(** * Two pseudo-random number generators: LCG and XORShift32

    A shallow embedding of [rng_lcg.py] and [rng_xor_shift.py].

    - Python integers are unbounded: they are modelled by [Z].  Python's
      [%] is the floor remainder (sign of the divisor), which is
      [Z.modulo]; [&], [^], [<<] and [>>] on integers are [Z.land],
      [Z.lxor], [Z.shiftl] and [Z.shiftr] (two's complement of unbounded
      width, arithmetic right shift).
    - Python floats are IEEE-754 binary64 values: they are modelled by the
      standard library's [spec_float] at precision 53 and [emax] 1024,
      with its operations [SFadd] and [SFdiv] (round to nearest, ties to
      even).  [int / int] rounds the exact quotient once; [int + float]
      and [int / float] first convert the integer.
    - A method mutates its object and may raise.  A raise does not undo
      the mutations made before it, so a method is a function from the
      object to an outcome together with the object as the call left it.
    - The arguments are integers, as the annotations say, and memory is
      unbounded: a shift by a huge count is a (huge) integer. *)

From Stdlib Require Import ZArith List String Bool Lia.
From Stdlib Require Import Floats.SpecFloat.
Import ListNotations.
Local Open Scope string_scope.
Local Open Scope Z_scope.

(** ** Exceptions and outcomes *)

Inductive exn : Type :=
| ValueError (msg : string)
| ZeroDivisionError (msg : string)
| OverflowError (msg : string).

Inductive outcome (A : Type) : Type :=
| Return (v : A)
| Raise (e : exn).

Arguments Return {A} v.
Arguments Raise {A} e.

(** The three failures the classes raise themselves. *)
Definition InvalidSeed : exn := ValueError "Seed must be non-zero".
Definition InvalidRange : exn := ValueError "low must be <= high".
Definition InvalidCount : exn := ValueError "n must be positive".

(** ** Methods: state survives a raise *)

Definition meth (S A : Type) : Type := S -> outcome A * S.

Definition ret {S A} (v : A) : meth S A := fun s => (Return v, s).

Definition raise {S A} (e : exn) : meth S A := fun s => (Raise e, s).

Definition bind {S A B} (c : meth S A) (k : A -> meth S B) : meth S B :=
  fun s =>
    match c s with
    | (Return v, s') => k v s'
    | (Raise e, s') => (Raise e, s')
    end.

Definition get {S} : meth S S := fun s => (Return s, s).

Definition put {S} (s' : S) : meth S unit := fun _ => (Return tt, s').

(** An expression that reads nothing and writes nothing. *)
Definition lift {S A} (o : outcome A) : meth S A := fun s => (o, s).

Declare Scope meth_scope.
Delimit Scope meth_scope with meth.
Notation "x <- c ;; k" := (bind c (fun x => k))
  (at level 61, c at next level, right associativity) : meth_scope.
Notation "c ;;; k" := (bind c (fun _ => k))
  (at level 61, right associativity) : meth_scope.
Local Open Scope meth_scope.

(** [[c for _ in range(n)]]: [n] evaluations of [c], left to right. *)
Fixpoint comprehension {S A} (n : nat) (c : meth S A) : meth S (list A) :=
  match n with
  | O => ret []
  | Datatypes.S n' =>
      v <- c ;;
      vs <- comprehension n' c ;;
      ret (v :: vs)
  end.

(** [range(n)] has [n] elements when [n] is positive, none otherwise. *)
Definition range_len (n : Z) : nat := Z.to_nat n.

(** ** Integer operators that can raise *)

Definition py_mod (x y : Z) : outcome Z :=
  if y =? 0 then Raise (ZeroDivisionError "integer modulo by zero")
  else Return (x mod y).

Definition py_lshift (x n : Z) : outcome Z :=
  if n <? 0 then Raise (ValueError "negative shift count")
  else Return (Z.shiftl x n).

Definition py_rshift (x n : Z) : outcome Z :=
  if n <? 0 then Raise (ValueError "negative shift count")
  else Return (Z.shiftr x n).

(** [min(seq)] and [max(seq)] of a list of integers; the empty list raises. *)
Definition py_min (seq : list Z) : outcome Z :=
  match seq with
  | [] => Raise (ValueError "min() arg is an empty sequence")
  | x :: xs => Return (fold_left Z.min xs x)
  end.

Definition py_max (seq : list Z) : outcome Z :=
  match seq with
  | [] => Raise (ValueError "max() arg is an empty sequence")
  | x :: xs => Return (fold_left Z.max xs x)
  end.

(** ** Floats *)

Definition prec : Z := 53.
Definition emax : Z := 1024.

Definition float : Type := spec_float.

(** The float nearest to an integer, ties to even; [float(x)] raises when
    the integer is beyond the largest finite float. *)
Definition nearest_float (x : Z) : float := binary_normalize prec emax x 0 false.

Definition float_of_int (x : Z) : outcome float :=
  match nearest_float x with
  | S754_infinity _ => Raise (OverflowError "int too large to convert to float")
  | f => Return f
  end.

Definition exact_of_int (x : Z) : float :=
  match x with
  | Z0 => S754_zero false
  | Zpos p => S754_finite false p 0
  | Zneg p => S754_finite true p 0
  end.

(** [x / y] on two integers: the float nearest to the exact quotient (the
    operands are not rounded first). *)
Definition int_truediv (x y : Z) : outcome float :=
  if y =? 0 then Raise (ZeroDivisionError "division by zero")
  else
    match SFdiv prec emax (exact_of_int x) (exact_of_int y) with
    | S754_infinity _ =>
        Raise (OverflowError "integer division result too large for a float")
    | f => Return f
    end.

(** [x + f] with [x] an integer and [f] a float. *)
Definition int_add_float (x : Z) (f : float) : outcome float :=
  match float_of_int x with
  | Raise e => Raise e
  | Return fx => Return (SFadd prec emax fx f)
  end.

(** [x / f] with [x] an integer and [f] a float. *)
Definition int_truediv_float (x : Z) (f : float) : outcome float :=
  match float_of_int x with
  | Raise e => Raise e
  | Return fx =>
      match f with
      | S754_zero _ => Raise (ZeroDivisionError "float division by zero")
      | _ => Return (SFdiv prec emax fx f)
      end
  end.

(** The literals [0.0] and [1e-6]. *)
Definition zero_float : float := S754_zero false.
Definition eps : float := S754_finite false 4722366482869645 (-72).
Definition one_float : float := S754_finite false 4503599627370496 (-52).

(** The expression [(x - min_val) / (max_val - min_val + 1e-6)]: the
    integer [max_val - min_val] is converted and added to [1e-6], then
    the integer [x - min_val] is converted and divided by the sum. *)
Definition scale_expr (min_val max_val x : Z) : outcome float :=
  match int_add_float (max_val - min_val) eps with
  | Raise e => Raise e
  | Return d => int_truediv_float (x - min_val) d
  end.

(** What [generate_sequence] returns: raw integers or scaled floats. *)
Inductive sequence : Type :=
| Raw (seq : list Z)
| Scaled (seq : list float).

(** [[e(x) for x in seq]] for an expression that touches no state. *)
Fixpoint map_outcome {A B} (f : A -> outcome B) (l : list A) : outcome (list B) :=
  match l with
  | [] => Return []
  | x :: xs =>
      match f x with
      | Raise e => Raise e
      | Return y =>
          match map_outcome f xs with
          | Raise e => Raise e
          | Return ys => Return (y :: ys)
          end
      end
  end.

(** ** rng_lcg.py *)

Module LCG.

Record LCG : Type := mk { state : Z; a : Z; c : Z; m : Z }.

Definition set_state (self : LCG) (v : Z) : LCG :=
  {| state := v; a := self.(a); c := self.(c); m := self.(m) |}.

(** [LCG(seed, a=..., c=..., m=...)]: an object or a raise. *)
Definition __init__ (seed a c m : Z) : outcome LCG :=
  if seed =? 0 then Raise (ValueError "Seed must be non-zero")
  else
    match py_mod seed m with
    | Raise e => Raise e
    | Return s => Return {| state := s; a := a; c := c; m := m |}
    end.

Definition default_a : Z := 1664525.
Definition default_c : Z := 1013904223.
Definition default_m : Z := 2 ^ 32.

Definition next : meth LCG Z :=
  self <- get ;;
  v <- lift (py_mod (self.(a) * self.(state) + self.(c)) self.(m)) ;;
  put (set_state self v) ;;;
  self <- get ;;
  ret self.(state).

Definition random : meth LCG float :=
  x <- next ;;
  self <- get ;;
  lift (int_truediv x self.(m)).

Definition randint (low high : Z) : meth LCG Z :=
  if low >? high then raise (ValueError "low must be <= high")
  else
    x <- next ;;
    r <- lift (py_mod x (high - low + 1)) ;;
    ret (low + r).

Definition generate_sequence (n : Z) (scale : bool) : meth LCG sequence :=
  if n <=? 0 then raise (ValueError "n must be positive")
  else
    seq <- comprehension (range_len n) next ;;
    if negb scale then ret (Raw seq)
    else
      min_val <- lift (py_min seq) ;;
      max_val <- lift (py_max seq) ;;
      if max_val =? min_val then ret (Scaled (map (fun _ => zero_float) seq))
      else
        out <- lift (map_outcome (scale_expr min_val max_val) seq) ;;
        ret (Scaled out).

End LCG.

(** ** rng_xor_shift.py *)

Module XORShiftRNG.

Record XORShiftRNG : Type := mk { state : Z; q : Z; r : Z; s : Z }.

Definition set_state (self : XORShiftRNG) (v : Z) : XORShiftRNG :=
  {| state := v; q := self.(q); r := self.(r); s := self.(s) |}.

Definition mask32 : Z := 0xFFFFFFFF.

(** [XORShiftRNG(seed, q=..., r=..., s=...)]: an object or a raise. *)
Definition __init__ (seed q r s : Z) : outcome XORShiftRNG :=
  if seed =? 0 then Raise (ValueError "Seed must be non-zero")
  else Return {| state := Z.land seed mask32; q := q; r := r; s := s |}.

Definition default_q : Z := 13.
Definition default_r : Z := 17.
Definition default_s : Z := 5.

Definition next : meth XORShiftRNG Z :=
  self <- get ;;
  let x := self.(state) in
  t <- lift (py_lshift x self.(q)) ;;
  let x := Z.lxor x (Z.land t mask32) in
  t <- lift (py_rshift x self.(r)) ;;
  let x := Z.lxor x t in
  t <- lift (py_lshift x self.(s)) ;;
  let x := Z.lxor x (Z.land t mask32) in
  put (set_state self (Z.land x mask32)) ;;;
  self <- get ;;
  ret self.(state).

Definition random : meth XORShiftRNG float :=
  x <- next ;;
  lift (int_truediv x (2 ^ 32)).

Definition randint (low high : Z) : meth XORShiftRNG Z :=
  if low >? high then raise (ValueError "low must be <= high")
  else
    x <- next ;;
    r <- lift (py_mod x (high - low + 1)) ;;
    ret (low + r).

Definition generate_sequence (n : Z) (scale : bool)
  : meth XORShiftRNG sequence :=
  if n <=? 0 then raise (ValueError "n must be positive")
  else
    seq <- comprehension (range_len n) next ;;
    if negb scale then ret (Raw seq)
    else
      min_val <- lift (py_min seq) ;;
      max_val <- lift (py_max seq) ;;
      if max_val =? min_val then ret (Scaled (map (fun _ => zero_float) seq))
      else
        out <- lift (map_outcome (scale_expr min_val max_val) seq) ;;
        ret (Scaled out).

End XORShiftRNG.

(** ** Vocabulary of the properties *)

(** The object a call leaves behind, and the object after [i] calls. *)
Definition advance {S A} (c : meth S A) (s : S) : S := snd (c s).

Definition after_calls {S A} (c : meth S A) (i : nat) (s : S) : S :=
  Nat.iter i (advance c) s.

(** A [ValueError], as opposed to the errors of the arithmetic. *)
Definition is_ValueError (e : exn) : bool :=
  match e with ValueError _ => true | _ => false end.

(** The value [(x - lo) / (hi - lo + 1e-6)] when nothing overflows. *)
Definition scaled_value (lo hi x : Z) : float :=
  SFdiv prec emax (nearest_float (x - lo))
    (SFadd prec emax (nearest_float (hi - lo)) eps).

(** A well-formed float [y] with [0.0 <= y < 1.0]. *)
Definition in_unit_interval (y : float) : bool :=
  valid_binary prec emax y && SFleb zero_float y && SFltb y one_float.

(** A well-formed float [y] with [0.0 <= y <= 1.0]. *)
Definition in_closed_unit_interval (y : float) : bool :=
  valid_binary prec emax y && SFleb zero_float y && SFleb y one_float.

(** The first integer [float] rejects: half a unit in the last place
    above the largest finite float, 2^1024 - 2^971. *)
Definition float_limit : Z := 2 ^ 1024 - 2 ^ 970.

(** [N / D] rounded to the nearest integer, ties to even. *)
Definition round_half_even (N D : Z) : Z :=
  match 2 * (N mod D) ?= D with
  | Lt => N / D
  | Eq => if Z.even (N / D) then N / D else N / D + 1
  | Gt => N / D + 1
  end.

(** A shift record stands for the fraction [N / D]: its mantissa is the
    integer part, its round bit says whether the rest is at least a
    half, its sticky bit whether the rest is neither zero nor a half. *)
Definition represents (N D : Z) (mrs : shr_record) : Prop :=
  shr_m mrs = N / D /\
  shr_r mrs = (D <=? 2 * (N mod D)) /\
  shr_s mrs = negb (N mod D =? 0) && negb (2 * (N mod D) =? D).

(** The float nearest to a positive integer, as mantissa and exponent:
    exact up to 53 bits, rounded half-even to 53 bits above. *)
Definition nearest_parts (X : Z) : Z * Z :=
  let j := Zdigits2 X in
  if j <=? 53 then (X * 2 ^ (53 - j), j - 53)
  else
    let m := round_half_even X (2 ^ (j - 53)) in
    if m =? 2 ^ 53 then (2 ^ 52, j - 52) else (m, j - 53).

Module LCGSpec.
Import LCG.

(** The recurrence of the docstring: [X_{n+1} = (a * X_n + c) % m]. *)
Definition recurrence (self : LCG) : Z :=
  (self.(a) * self.(state) + self.(c)) mod self.(m).

(** The range the docstring of [next] gives, for a positive modulus. *)
Definition inv (self : LCG) : Prop :=
  0 < self.(m) /\ 0 <= self.(state) < self.(m).

End LCGSpec.

Module XORShiftSpec.
Import XORShiftRNG.

(** The shift amounts are usable: a negative count makes [<<] and [>>]
    raise. *)
Definition shifts_ok (self : XORShiftRNG) : Prop :=
  0 <= self.(q) /\ 0 <= self.(r) /\ 0 <= self.(s).

(** The three statements of [next], as the source writes them. *)
Definition step1 (self : XORShiftRNG) (x : Z) : Z :=
  Z.lxor x (Z.land (Z.shiftl x self.(q)) mask32).

Definition step2 (self : XORShiftRNG) (x : Z) : Z :=
  Z.lxor x (Z.shiftr x self.(r)).

Definition step3 (self : XORShiftRNG) (x : Z) : Z :=
  Z.lxor x (Z.land (Z.shiftl x self.(s)) mask32).

Definition scramble (self : XORShiftRNG) : Z :=
  Z.land (step3 self (step2 self (step1 self self.(state)))) mask32.

(** The same three steps with a single mask at the very end. *)
Definition scramble_mask_at_end (self : XORShiftRNG) : Z :=
  let x := self.(state) in
  let x := Z.lxor x (Z.shiftl x self.(q)) in
  let x := Z.lxor x (Z.shiftr x self.(r)) in
  let x := Z.lxor x (Z.shiftl x self.(s)) in
  Z.land x mask32.

(** A 32-bit state. *)
Definition inv (self : XORShiftRNG) : Prop :=
  0 <= self.(state) < 2 ^ 32.

End XORShiftSpec.

(** [randint] and [generate_sequence] are the same statements in both
    files; only [next] differs.  Here they are over any [next]. *)

Section SharedMethods.
Variable G : Type.
Variable next : meth G Z.

Definition randint_with (low high : Z) : meth G Z :=
  if low >? high then raise (ValueError "low must be <= high")
  else
    x <- next ;;
    r <- lift (py_mod x (high - low + 1)) ;;
    ret (low + r).

Definition generate_sequence_with (n : Z) (scale : bool) : meth G sequence :=
  if n <=? 0 then raise (ValueError "n must be positive")
  else
    seq <- comprehension (range_len n) next ;;
    if negb scale then ret (Raw seq)
    else
      min_val <- lift (py_min seq) ;;
      max_val <- lift (py_max seq) ;;
      if max_val =? min_val then ret (Scaled (map (fun _ => zero_float) seq))
      else
        out <- lift (map_outcome (scale_expr min_val max_val) seq) ;;
        ret (Scaled out).

(** [next] returns in every state of the set [ok], which it does not
    leave. *)
Definition always_returns (ok : G -> Prop) : Prop :=
  forall g, ok g -> exists v g', next g = (Return v, g') /\ ok g'.

(** Two objects, each with its own state; the schedule says which one
    is called next.  The outcomes are collected per object. *)
Fixpoint interleave (sched : list bool) (g1 g2 : G)
  : list (outcome Z) * list (outcome Z) :=
  match sched with
  | [] => ([], [])
  | true :: rest =>
      let (o, g1') := next g1 in
      let (o1, o2) := interleave rest g1' g2 in
      (o :: o1, o2)
  | false :: rest =>
      let (o, g2') := next g2 in
      let (o1, o2) := interleave rest g1 g2' in
      (o1, o :: o2)
  end.

End SharedMethods.

Arguments randint_with {G} next low high.
Arguments generate_sequence_with {G} next n scale.
Arguments always_returns {G} next ok.
Arguments interleave {G} next sched g1 g2.

(** ** Vocabulary of the further properties *)

Module XORShiftWords.
Import XORShiftRNG XORShiftSpec.

(** The three steps in a row, on a state given apart from the object. *)
Definition steps (self : XORShiftRNG) (x : Z) : Z :=
  step3 self (step2 self (step1 self x)).

End XORShiftWords.

(** The float [y] is the rational [x / 2^p], with nothing rounded away:
    it is [0.0] for [x = 0], and otherwise a positive normal float whose
    53-digit mantissa [m] and exponent [e] satisfy m * 2^e = x * 2^-p. *)
Definition equals_over_pow2 (y : float) (x p : Z) : Prop :=
  (x = 0 /\ y = S754_zero false) \/
  (exists m e,
      y = S754_finite false m e /\ e + p <= 0 /\
      Zpos m = x * 2 ^ (- (e + p)) /\ Zpos (digits2_pos m) = 53).

(** * Properties *)

(** ** Running methods *)

Ltac run_meth :=
  unfold bind, get, put, lift, ret, raise; cbn [fst snd].

Lemma bind_Return {S A B} (c : meth S A) (k : A -> meth S B) s v s' :
  c s = (Return v, s') -> bind c k s = k v s'.
Proof. intros H. unfold bind. now rewrite H. Qed.
Arguments bind_Return {S A B} c k [s v s'] _.

Lemma bind_Raise {S A B} (c : meth S A) (k : A -> meth S B) s e s' :
  c s = (Raise e, s') -> bind c k s = (Raise e, s').
Proof. intros H. unfold bind. now rewrite H. Qed.

Arguments bind_Raise {S A B} c k [s e s'] _.

(** ** Integer facts *)

Lemma py_mod_nonzero x y : y <> 0 -> py_mod x y = Return (x mod y).
Proof.
  intros Hy. unfold py_mod. destruct (Z.eqb_spec y 0); [contradiction | reflexivity].
Qed.

Lemma py_mod_zero x : py_mod x 0 = Raise (ZeroDivisionError "integer modulo by zero").
Proof. reflexivity. Qed.

Lemma py_lshift_nonneg x n : 0 <= n -> py_lshift x n = Return (Z.shiftl x n).
Proof.
  intros Hn. unfold py_lshift. destruct (Z.ltb_spec n 0); [lia | reflexivity].
Qed.

Lemma py_rshift_nonneg x n : 0 <= n -> py_rshift x n = Return (Z.shiftr x n).
Proof.
  intros Hn. unfold py_rshift. destruct (Z.ltb_spec n 0); [lia | reflexivity].
Qed.

Lemma py_lshift_neg x n :
  n < 0 -> py_lshift x n = Raise (ValueError "negative shift count").
Proof.
  intros Hn. unfold py_lshift. destruct (Z.ltb_spec n 0); [reflexivity | lia].
Qed.

Lemma py_rshift_neg x n :
  n < 0 -> py_rshift x n = Raise (ValueError "negative shift count").
Proof.
  intros Hn. unfold py_rshift. destruct (Z.ltb_spec n 0); [reflexivity | lia].
Qed.

Lemma land_mask32 x : Z.land x XORShiftRNG.mask32 = x mod 2 ^ 32.
Proof.
  change XORShiftRNG.mask32 with (Z.ones 32). apply Z.land_ones. lia.
Qed.

Lemma land_mask32_range x : 0 <= Z.land x XORShiftRNG.mask32 < 2 ^ 32.
Proof. rewrite land_mask32. apply Z.mod_pos_bound. lia. Qed.

Lemma land_mask32_small x : 0 <= x < 2 ^ 32 -> Z.land x XORShiftRNG.mask32 = x.
Proof. intros Hx. rewrite land_mask32. now apply Z.mod_small. Qed.

Lemma land_lxor_distr x y z :
  Z.land (Z.lxor x y) z = Z.lxor (Z.land x z) (Z.land y z).
Proof.
  apply Z.bits_inj'. intros n Hn.
  rewrite Z.land_spec, !Z.lxor_spec, !Z.land_spec.
  destruct (Z.testbit x n), (Z.testbit y n), (Z.testbit z n); reflexivity.
Qed.

(** ** [LCG.next] *)

Module LCGFacts.
Import LCG LCGSpec.

Lemma lcg_next_returns self :
  self.(m) <> 0 ->
  next self = (Return (recurrence self), set_state self (recurrence self)).
Proof.
  intros Hm. unfold next, recurrence. run_meth.
  rewrite (py_mod_nonzero _ _ Hm). reflexivity.
Qed.

Lemma lcg_next_raises self :
  self.(m) = 0 ->
  next self = (Raise (ZeroDivisionError "integer modulo by zero"), self).
Proof.
  intros Hm. unfold next. run_meth. rewrite Hm. reflexivity.
Qed.

Lemma lcg_init_returns seed a0 c0 m0 :
  seed <> 0 -> m0 <> 0 ->
  __init__ seed a0 c0 m0 =
    Return {| state := seed mod m0; a := a0; c := c0; m := m0 |}.
Proof.
  intros Hs Hm. unfold __init__.
  destruct (Z.eqb_spec seed 0); [contradiction |].
  now rewrite (py_mod_nonzero _ _ Hm).
Qed.

Lemma lcg_init_inversion seed a0 c0 m0 self :
  __init__ seed a0 c0 m0 = Return self ->
  seed <> 0 /\ m0 <> 0 /\
  self = {| state := seed mod m0; a := a0; c := c0; m := m0 |}.
Proof.
  unfold __init__, py_mod.
  destruct (Z.eqb_spec seed 0); [discriminate |].
  destruct (Z.eqb_spec m0 0); [discriminate |].
  intros H. injection H as <-. auto.
Qed.

End LCGFacts.

(** C1. An LCG built from seed 123456 with the default parameters first
    returns (1664525 * 123456 + 1013904223) mod 2^32, which is 351072415;
    and in every state with a non-zero modulus (the modulus of every
    constructed LCG is non-zero), [next] stores (a * state + c) mod m in
    [state], leaves [a], [c] and [m] alone, and returns the stored
    value. *)
Theorem C1_lcg_next
  (self : LCG.LCG) (Hm : self.(LCG.m) <> 0) :
  (exists g g',
      LCG.__init__ 123456 LCG.default_a LCG.default_c LCG.default_m = Return g /\
      LCG.next g = (Return ((1664525 * 123456 + 1013904223) mod 2 ^ 32), g') /\
      (1664525 * 123456 + 1013904223) mod 2 ^ 32 = 351072415) /\
  (exists self',
      LCG.next self = (Return self'.(LCG.state), self') /\
      self'.(LCG.state) =
        (self.(LCG.a) * self.(LCG.state) + self.(LCG.c)) mod self.(LCG.m) /\
      self'.(LCG.a) = self.(LCG.a) /\
      self'.(LCG.c) = self.(LCG.c) /\
      self'.(LCG.m) = self.(LCG.m)) /\
  (forall seed a c m g, LCG.__init__ seed a c m = Return g -> g.(LCG.m) <> 0).
Proof.
  split; [| split].
  - exists (LCG.mk 123456 1664525 1013904223 (2 ^ 32)).
    exists (LCG.mk 351072415 1664525 1013904223 (2 ^ 32)).
    repeat split; vm_compute; reflexivity.
  - exists (LCG.set_state self (LCGSpec.recurrence self)).
    rewrite (LCGFacts.lcg_next_returns self Hm). cbn. repeat split; reflexivity.
  - intros seed a c m g Hinit.
    apply LCGFacts.lcg_init_inversion in Hinit. destruct Hinit as (_ & Hm0 & ->).
    exact Hm0.
Qed.

Lemma C1_lcg_next_witness :
  (LCG.mk 7 3 5 10).(LCG.m) <> 0 /\
  exists self',
    LCG.next (LCG.mk 7 3 5 10) = (Return self'.(LCG.state), self') /\
    self'.(LCG.state) = (3 * 7 + 5) mod 10.
Proof.
  assert (Hm : (LCG.mk 7 3 5 10).(LCG.m) <> 0) by (cbn; lia).
  split; [exact Hm |].
  destruct (C1_lcg_next (LCG.mk 7 3 5 10) Hm) as (_ & (self' & Hn & Hs & _) & _).
  exists self'. split; [exact Hn | exact Hs].
Defined.

(** ** [XORShiftRNG.next] *)

Module XORShiftFacts.
Import XORShiftRNG XORShiftSpec.

Lemma xorshift_next_returns self :
  shifts_ok self ->
  next self = (Return (scramble self), set_state self (scramble self)).
Proof.
  intros (Hq & Hr & Hs). unfold next, scramble, step3, step2, step1. run_meth.
  rewrite (py_lshift_nonneg _ _ Hq). cbn iota.
  rewrite (py_rshift_nonneg _ _ Hr). cbn iota.
  rewrite (py_lshift_nonneg _ _ Hs). reflexivity.
Qed.

(** With an unusable shift amount the call raises at the first bad
    shift, before the assignment to [self.state]. *)
Lemma xorshift_next_raises self :
  ~ shifts_ok self ->
  next self = (Raise (ValueError "negative shift count"), self).
Proof.
  intros Hbad. unfold next. run_meth.
  destruct (Z.ltb_spec self.(q) 0) as [Hq | Hq].
  { now rewrite (py_lshift_neg _ _ Hq). }
  rewrite (py_lshift_nonneg _ _ Hq). cbn iota.
  destruct (Z.ltb_spec self.(r) 0) as [Hr | Hr].
  { now rewrite (py_rshift_neg _ _ Hr). }
  rewrite (py_rshift_nonneg _ _ Hr). cbn iota.
  destruct (Z.ltb_spec self.(s) 0) as [Hs | Hs].
  { now rewrite (py_lshift_neg _ _ Hs). }
  exfalso. apply Hbad. repeat split; assumption.
Qed.

Lemma shifts_ok_dec self : shifts_ok self \/ ~ shifts_ok self.
Proof. unfold shifts_ok. lia. Qed.

(** Bits of a 32-bit value. *)
Lemma lxor_range x y :
  0 <= x < 2 ^ 32 -> 0 <= y < 2 ^ 32 -> 0 <= Z.lxor x y < 2 ^ 32.
Proof.
  intros Hx Hy.
  rewrite <- (land_mask32_small _ Hx), <- (land_mask32_small _ Hy).
  rewrite <- land_lxor_distr. apply land_mask32_range.
Qed.

Lemma shiftr_range x n : 0 <= n -> 0 <= x < 2 ^ 32 -> 0 <= Z.shiftr x n < 2 ^ 32.
Proof.
  intros Hn Hx. rewrite Z.shiftr_div_pow2 by assumption.
  assert (0 < 2 ^ n) by (apply Z.pow_pos_nonneg; lia).
  split.
  - apply Z.div_pos; lia.
  - apply Z.le_lt_trans with x; [| lia].
    apply Z.div_le_upper_bound; nia.
Qed.

Lemma step1_range self x :
  0 <= x < 2 ^ 32 -> 0 <= step1 self x < 2 ^ 32.
Proof. intros Hx. apply lxor_range; [assumption | apply land_mask32_range]. Qed.

Lemma step2_range self x :
  0 <= self.(r) -> 0 <= x < 2 ^ 32 -> 0 <= step2 self x < 2 ^ 32.
Proof. intros Hr Hx. apply lxor_range; [assumption | now apply shiftr_range]. Qed.

Lemma step3_range self x :
  0 <= x < 2 ^ 32 -> 0 <= step3 self x < 2 ^ 32.
Proof. intros Hx. apply lxor_range; [assumption | apply land_mask32_range]. Qed.

(** On a 32-bit value, masking the shifted operand and masking the whole
    xor are the same. *)
Lemma step1_mask_whole self x :
  0 <= x < 2 ^ 32 ->
  step1 self x = Z.land (Z.lxor x (Z.shiftl x self.(q))) mask32.
Proof.
  intros Hx. unfold step1.
  rewrite land_lxor_distr, (land_mask32_small _ Hx). reflexivity.
Qed.

Lemma step3_mask_whole self x :
  0 <= x < 2 ^ 32 ->
  step3 self x = Z.land (Z.lxor x (Z.shiftl x self.(s))) mask32.
Proof.
  intros Hx. unfold step3.
  rewrite land_lxor_distr, (land_mask32_small _ Hx). reflexivity.
Qed.

Example mask_at_end_differs :
  scramble (mk (2 ^ 31) 13 17 5) <> scramble_mask_at_end (mk (2 ^ 31) 13 17 5).
Proof. vm_compute. discriminate. Qed.

End XORShiftFacts.

(** C2. In every 32-bit state with usable shift amounts, [next] applies
    x ^= (x << q) & 0xFFFFFFFF, then x ^= x >> r, then
    x ^= (x << s) & 0xFFFFFFFF, each left shift being masked where it is
    made (which, on a 32-bit x, is the same as masking the whole xor),
    stores the 32-bit result in [state] and returns it; from seed 123456
    with q = 13, r = 17, s = 5 the first value is 3044438244. *)
Theorem C2_xorshift_next
  (self : XORShiftRNG.XORShiftRNG)
  (Hshift : XORShiftSpec.shifts_ok self)
  (Hstate : 0 <= self.(XORShiftRNG.state) < 2 ^ 32) :
  let M := XORShiftRNG.mask32 in
  let x0 := self.(XORShiftRNG.state) in
  let x1 := Z.lxor x0 (Z.land (Z.shiftl x0 self.(XORShiftRNG.q)) M) in
  let x2 := Z.lxor x1 (Z.shiftr x1 self.(XORShiftRNG.r)) in
  let x3 := Z.lxor x2 (Z.land (Z.shiftl x2 self.(XORShiftRNG.s)) M) in
  XORShiftRNG.next self = (Return x3, XORShiftRNG.set_state self x3) /\
  0 <= x3 < 2 ^ 32 /\
  x1 = Z.land (Z.lxor x0 (Z.shiftl x0 self.(XORShiftRNG.q))) M /\
  x3 = Z.land (Z.lxor x2 (Z.shiftl x2 self.(XORShiftRNG.s))) M /\
  (exists g g',
      XORShiftRNG.__init__ 123456 13 17 5 = Return g /\
      XORShiftRNG.next g = (Return 3044438244, g') /\
      g'.(XORShiftRNG.state) = 3044438244).
Proof.
  intros M x0 x1 x2 x3.
  pose proof Hshift as (Hq & Hr & Hs).
  assert (H1 : 0 <= x1 < 2 ^ 32) by (apply (XORShiftFacts.step1_range self); assumption).
  assert (H2 : 0 <= x2 < 2 ^ 32) by (apply (XORShiftFacts.step2_range self); assumption).
  assert (H3 : 0 <= x3 < 2 ^ 32) by (apply (XORShiftFacts.step3_range self); assumption).
  split; [| split; [| split; [| split]]].
  - rewrite (XORShiftFacts.xorshift_next_returns _ Hshift).
    unfold XORShiftSpec.scramble.
    change (XORShiftSpec.step3 self
              (XORShiftSpec.step2 self
                 (XORShiftSpec.step1 self self.(XORShiftRNG.state)))) with x3.
    rewrite (land_mask32_small _ H3). reflexivity.
  - exact H3.
  - apply (XORShiftFacts.step1_mask_whole self _ Hstate).
  - apply (XORShiftFacts.step3_mask_whole self _ H2).
  - exists (XORShiftRNG.mk 123456 13 17 5), (XORShiftRNG.mk 3044438244 13 17 5).
    repeat split; vm_compute; reflexivity.
Qed.

Lemma C2_xorshift_next_witness :
  XORShiftSpec.shifts_ok (XORShiftRNG.mk 1 13 17 5) /\
  0 <= 1 < 2 ^ 32 /\
  XORShiftRNG.next (XORShiftRNG.mk 1 13 17 5) =
    (Return 270369, XORShiftRNG.mk 270369 13 17 5).
Proof.
  assert (Hs : XORShiftSpec.shifts_ok (XORShiftRNG.mk 1 13 17 5))
    by (unfold XORShiftSpec.shifts_ok; cbn; lia).
  assert (Hr : 0 <= (XORShiftRNG.mk 1 13 17 5).(XORShiftRNG.state) < 2 ^ 32)
    by (cbn; lia).
  split; [exact Hs |]. split; [lia |].
  exact (proj1 (C2_xorshift_next _ Hs Hr)).
Defined.

(** ** What the two classes share

    [randint] and [generate_sequence] are the same statements in both
    files; only [next] differs.  The facts about them are proved once,
    over any [next]. *)

Lemma after_calls_succ {S A} (c : meth S A) i s :
  after_calls c (Datatypes.S i) s = after_calls c i (advance c s).
Proof.
  unfold after_calls. induction i as [| i IH]; [reflexivity |].
  cbn in *. now rewrite IH.
Qed.

Section Shared.
Variable G : Type.
Variable next : meth G Z.

(** *** [randint] *)

Lemma randint_with_invalid low high g :
  low > high -> randint_with next low high g = (Raise InvalidRange, g).
Proof.
  intros H. unfold randint_with.
  destruct (Z.gtb_spec low high); [reflexivity | lia].
Qed.

Lemma randint_with_returns low high g v g' :
  low <= high -> next g = (Return v, g') ->
  randint_with next low high g = (Return (low + v mod (high - low + 1)), g').
Proof.
  intros H Hn. unfold randint_with.
  destruct (Z.gtb_spec low high); [lia |].
  rewrite (bind_Return _ _ Hn). run_meth.
  rewrite py_mod_nonzero by lia. reflexivity.
Qed.

Lemma randint_with_raises low high g e g' :
  low <= high -> next g = (Raise e, g') ->
  randint_with next low high g = (Raise e, g').
Proof.
  intros H Hn. unfold randint_with.
  destruct (Z.gtb_spec low high); [lia |].
  now rewrite (bind_Raise _ _ Hn).
Qed.

Lemma randint_value_range low high v :
  low <= high -> low <= low + v mod (high - low + 1) <= high.
Proof.
  intros H. pose proof (Z.mod_pos_bound v (high - low + 1)). lia.
Qed.

(** Whatever [randint] does, it leaves the object as it was or as one
    call of [next] leaves it. *)
Lemma randint_with_state low high g :
  snd (randint_with next low high g) = g \/
  snd (randint_with next low high g) = advance next g.
Proof.
  destruct (Z.le_gt_cases low high) as [H | H].
  - right. unfold advance. destruct (next g) as [[v | e] g'] eqn:Hn.
    + now rewrite (randint_with_returns _ _ _ _ _ H Hn).
    + now rewrite (randint_with_raises _ _ _ _ _ H Hn).
  - left. rewrite randint_with_invalid by lia. reflexivity.
Qed.

(** *** The list comprehension over [next] *)

Lemma comprehension_state k g :
  exists j, (j <= k)%nat /\ snd (comprehension k next g) = after_calls next j g.
Proof.
  revert g. induction k as [| k IH]; intros g.
  - exists 0%nat. split; [lia | reflexivity].
  - cbn [comprehension]. unfold bind at 1.
    destruct (next g) as [[v | e] g'] eqn:Hn.
    + destruct (IH g') as (j & Hj & Hs). exists (Datatypes.S j). split; [lia |].
      assert (Hadv : advance next g = g') by (unfold advance; now rewrite Hn).
      rewrite after_calls_succ, Hadv.
      rewrite <- Hs. unfold bind.
      destruct (comprehension k next g') as [[vs | e] g'']; reflexivity.
    + exists 1%nat. split; [lia |]. cbn. unfold advance. now rewrite Hn.
Qed.

Lemma comprehension_returns ok k g :
  always_returns next ok -> ok g ->
  exists vs,
    comprehension k next g = (Return vs, after_calls next k g) /\
    List.length vs = k /\
    ok (after_calls next k g) /\
    forall i, (i < k)%nat ->
      fst (next (after_calls next i g)) = Return (nth i vs 0).
Proof.
  intros Hret. revert g. induction k as [| k IH]; intros g Hg.
  - exists []. repeat split; [assumption | intros i Hi; lia].
  - destruct (Hret g Hg) as (v & g' & Hn & Hg').
    destruct (IH g' Hg') as (vs & Hc & Hlen & Hok & Hnth).
    assert (Hadv : advance next g = g') by (unfold advance; now rewrite Hn).
    exists (v :: vs). rewrite after_calls_succ, Hadv.
    repeat split.
    + cbn [comprehension]. rewrite (bind_Return _ _ Hn).
      rewrite (bind_Return _ _ Hc). reflexivity.
    + cbn. now rewrite Hlen.
    + assumption.
    + intros [| i] Hi.
      * cbn. now rewrite Hn.
      * rewrite after_calls_succ, Hadv. cbn [nth]. apply Hnth. lia.
Qed.

Lemma comprehension_raises k g e g' :
  comprehension k next g = (Raise e, g') ->
  exists g0 g1, next g0 = (Raise e, g1).
Proof.
  revert g. induction k as [| k IH]; intros g; cbn [comprehension].
  - discriminate.
  - unfold bind at 1. destruct (next g) as [[v | e0] g0] eqn:Hn.
    + unfold bind. destruct (comprehension k next g0) as [[vs | e1] g1] eqn:Hc.
      * discriminate.
      * intros H. injection H as <- <-. exact (IH _ Hc).
    + intros H. injection H as <- <-. now exists g, g0.
Qed.

(** *** [generate_sequence] *)

Lemma generate_sequence_with_invalid n scale g :
  n <= 0 -> generate_sequence_with next n scale g = (Raise InvalidCount, g).
Proof.
  intros H. unfold generate_sequence_with.
  destruct (Z.leb_spec n 0); [reflexivity | lia].
Qed.

Lemma generate_sequence_with_raw n g vs g' :
  0 < n -> comprehension (range_len n) next g = (Return vs, g') ->
  generate_sequence_with next n false g = (Return (Raw vs), g').
Proof.
  intros H Hc. unfold generate_sequence_with.
  destruct (Z.leb_spec n 0); [lia |].
  rewrite (bind_Return _ _ Hc). reflexivity.
Qed.

Lemma generate_sequence_with_state n scale g :
  exists j, snd (generate_sequence_with next n scale g) = after_calls next j g.
Proof.
  unfold generate_sequence_with. destruct (n <=? 0).
  - now exists 0%nat.
  - destruct (comprehension_state (range_len n) g) as (j & _ & Hj).
    exists j. rewrite <- Hj. unfold bind at 1.
    destruct (comprehension (range_len n) next g) as [[seq | e] g']; [| reflexivity].
    cbn [snd]. destruct (negb scale); [reflexivity |]. run_meth.
    destruct (py_min seq); [| reflexivity].
    destruct (py_max seq) as [v0 |]; [| reflexivity].
    destruct (v0 =? v); [reflexivity |].
    destruct (map_outcome _ seq); reflexivity.
Qed.

End Shared.


Lemma LCG_randint_shared low high :
  LCG.randint low high = randint_with LCG.next low high.
Proof. reflexivity. Qed.

Lemma XORShiftRNG_randint_shared low high :
  XORShiftRNG.randint low high = randint_with XORShiftRNG.next low high.
Proof. reflexivity. Qed.

Lemma LCG_generate_sequence_shared n scale :
  LCG.generate_sequence n scale = generate_sequence_with LCG.next n scale.
Proof. reflexivity. Qed.

Lemma XORShiftRNG_generate_sequence_shared n scale :
  XORShiftRNG.generate_sequence n scale =
    generate_sequence_with XORShiftRNG.next n scale.
Proof. reflexivity. Qed.

(** *** Which exceptions can come out *)

Lemma map_outcome_raises {A B} (f : A -> outcome B) l e :
  map_outcome f l = Raise e -> exists x, In x l /\ f x = Raise e.
Proof.
  induction l as [| x xs IH]; cbn; [discriminate |].
  destruct (f x) as [y | e0] eqn:Hx.
  - destruct (map_outcome f xs) as [ys | e1]; [discriminate |].
    intros H. injection H as <-. destruct (IH eq_refl) as (x0 & Hin & Hx0).
    exists x0. auto.
  - intros H. injection H as <-. exists x. auto.
Qed.

Lemma map_outcome_returns {A B} (f : A -> outcome B) (g : A -> B) l :
  (forall x, In x l -> f x = Return (g x)) ->
  map_outcome f l = Return (map g l).
Proof.
  induction l as [| x xs IH]; intros H; cbn; [reflexivity |].
  rewrite (H x) by (left; reflexivity).
  rewrite IH by (intros y Hy; apply H; right; exact Hy). reflexivity.
Qed.

Lemma float_of_int_exn x e :
  float_of_int x = Raise e -> is_ValueError e = false.
Proof.
  unfold float_of_int.
  destruct (nearest_float x); try discriminate.
  intros H. injection H as <-. reflexivity.
Qed.

Lemma scale_expr_exn lo hi x e :
  scale_expr lo hi x = Raise e -> is_ValueError e = false.
Proof.
  unfold scale_expr, int_add_float, int_truediv_float.
  destruct (float_of_int (hi - lo)) as [d | e0] eqn:Hd.
  - destruct (float_of_int (x - lo)) as [fx | e1] eqn:Hx.
    + destruct (SFadd prec emax d eps); try discriminate.
      intros H. injection H as <-. reflexivity.
    + intros H. injection H as <-. exact (float_of_int_exn _ _ Hx).
  - intros H. injection H as <-. exact (float_of_int_exn _ _ Hd).
Qed.

Section SharedFailures.
Variable G : Type.
Variable next : meth G Z.

(** [next] raises neither of the two argument errors. *)
Hypothesis next_exn :
  forall g e g', next g = (Raise e, g') -> e <> InvalidRange /\ e <> InvalidCount.

Lemma randint_with_InvalidRange low high g g' :
  randint_with next low high g = (Raise InvalidRange, g') -> low > high /\ g' = g.
Proof.
  destruct (Z.le_gt_cases low high) as [H | H].
  - destruct (next g) as [[v | e] g0] eqn:Hn.
    + rewrite (randint_with_returns _ _ _ _ _ _ _ H Hn). discriminate.
    + rewrite (randint_with_raises _ _ _ _ _ _ _ H Hn). intros Heq.
      injection Heq as -> _. now destruct (next_exn _ _ _ Hn).
  - rewrite randint_with_invalid by lia. intros Heq.
    injection Heq as <-. split; [lia | reflexivity].
Qed.

Lemma generate_sequence_with_InvalidCount n scale g g' :
  generate_sequence_with next n scale g = (Raise InvalidCount, g') ->
  n <= 0 /\ g' = g.
Proof.
  destruct (Z.le_gt_cases n 0) as [H | H].
  - rewrite generate_sequence_with_invalid by assumption. intros Heq.
    injection Heq as <-. now split.
  - unfold generate_sequence_with.
    destruct (Z.leb_spec n 0); [lia |]. unfold bind at 1.
    destruct (comprehension (range_len n) next g) as [[seq | e] g0] eqn:Hc.
    + destruct (negb scale); [discriminate |]. run_meth.
      destruct seq as [| x xs]; [discriminate |]. cbn [py_min py_max].
      destruct (_ =? _); [discriminate |].
      destruct (map_outcome _ _) as [out | e] eqn:Hm; [discriminate |].
      intros Heq. injection Heq as -> _.
      destruct (map_outcome_raises _ _ _ Hm) as (y & _ & Hy).
      apply scale_expr_exn in Hy. discriminate.
    + intros Heq. injection Heq as -> _.
      destruct (comprehension_raises _ _ _ _ _ _ Hc) as (g1 & g2 & Hn).
      now destruct (next_exn _ _ _ Hn).
Qed.

End SharedFailures.

(** *** Interleaved calls on two objects *)

Section Interleaving.
Variable G : Type.
Variable next : meth G Z.

Lemma interleave_nth sched : forall g1 g2 i o,
  (nth_error (fst (interleave next sched g1 g2)) i = Some o ->
   o = fst (next (after_calls next i g1))) /\
  (nth_error (snd (interleave next sched g1 g2)) i = Some o ->
   o = fst (next (after_calls next i g2))).
Proof.
  induction sched as [| b rest IH]; intros g1 g2 i o.
  - cbn. split; destruct i; discriminate.
  - destruct b; cbn [interleave].
    + destruct (next g1) as [o0 g1'] eqn:Hn.
      specialize (IH g1' g2).
      destruct (interleave next rest g1' g2) as [o1 o2]. cbn [fst snd] in *.
      split.
      * destruct i as [| i]; cbn [nth_error].
        -- intros H. injection H as <-. cbn. now rewrite Hn.
        -- intros H. rewrite after_calls_succ. unfold advance. rewrite Hn.
           now apply IH.
      * apply IH.
    + destruct (next g2) as [o0 g2'] eqn:Hn.
      specialize (IH g1 g2').
      destruct (interleave next rest g1 g2') as [o1 o2]. cbn [fst snd] in *.
      split.
      * apply IH.
      * destruct i as [| i]; cbn [nth_error].
        -- intros H. injection H as <-. cbn. now rewrite Hn.
        -- intros H. rewrite after_calls_succ. unfold advance. rewrite Hn.
           now apply IH.
Qed.

Lemma interleave_agree sched g i o1 o2 :
  nth_error (fst (interleave next sched g g)) i = Some o1 ->
  nth_error (snd (interleave next sched g g)) i = Some o2 ->
  o1 = o2.
Proof.
  intros H1 H2.
  apply (proj1 (interleave_nth sched g g i o1)) in H1.
  apply (proj2 (interleave_nth sched g g i o2)) in H2.
  congruence.
Qed.

(** Preservation of a property of the object by any number of calls. *)
Lemma after_calls_preserves (inv : G -> Prop) :
  (forall g, inv g -> inv (advance next g)) ->
  forall i g, inv g -> inv (after_calls next i g).
Proof.
  intros Hstep i. induction i as [| i IH]; intros g Hg; [exact Hg |].
  rewrite after_calls_succ. apply IH, Hstep, Hg.
Qed.

End Interleaving.


(** ** The two generators, side by side *)

Lemma LCG_always_returns :
  always_returns LCG.next (fun g => g.(LCG.m) <> 0).
Proof.
  intros g Hm. exists (LCGSpec.recurrence g).
  exists (LCG.set_state g (LCGSpec.recurrence g)).
  split; [exact (LCGFacts.lcg_next_returns g Hm) | exact Hm].
Qed.

Lemma XORShiftRNG_always_returns :
  always_returns XORShiftRNG.next XORShiftSpec.shifts_ok.
Proof.
  intros g Hs. exists (XORShiftSpec.scramble g).
  exists (XORShiftRNG.set_state g (XORShiftSpec.scramble g)).
  split; [exact (XORShiftFacts.xorshift_next_returns g Hs) | exact Hs].
Qed.

Lemma LCG_next_exn g e g' :
  LCG.next g = (Raise e, g') -> e <> InvalidRange /\ e <> InvalidCount.
Proof.
  destruct (Z.eq_dec g.(LCG.m) 0) as [Hm | Hm].
  - rewrite (LCGFacts.lcg_next_raises g Hm). intros H. injection H as <- _.
    split; discriminate.
  - rewrite (LCGFacts.lcg_next_returns g Hm). discriminate.
Qed.

Lemma XORShiftRNG_next_exn g e g' :
  XORShiftRNG.next g = (Raise e, g') -> e <> InvalidRange /\ e <> InvalidCount.
Proof.
  destruct (XORShiftFacts.shifts_ok_dec g) as [Hs | Hs].
  - rewrite (XORShiftFacts.xorshift_next_returns g Hs). discriminate.
  - rewrite (XORShiftFacts.xorshift_next_raises g Hs). intros H. injection H as <- _.
    split; discriminate.
Qed.

(** C3. For low <= high, [randint(low, high)] returns
    low + (next() mod (high - low + 1)), where next() is the value the
    call to [next] returns in the current state, and the result lies in
    [low, high]; for the LCG (non-zero modulus) and for XORShift32 (usable
    shift amounts). *)
Theorem C3_randint_formula_and_bounds
  (lcg : LCG.LCG) (xs : XORShiftRNG.XORShiftRNG) (low high : Z)
  (Hrange : low <= high)
  (Hm : lcg.(LCG.m) <> 0)
  (Hshift : XORShiftSpec.shifts_ok xs) :
  (exists v lcg',
      LCG.next lcg = (Return v, lcg') /\
      LCG.randint low high lcg = (Return (low + v mod (high - low + 1)), lcg') /\
      low <= low + v mod (high - low + 1) <= high) /\
  (exists v xs',
      XORShiftRNG.next xs = (Return v, xs') /\
      XORShiftRNG.randint low high xs =
        (Return (low + v mod (high - low + 1)), xs') /\
      low <= low + v mod (high - low + 1) <= high).
Proof.
  split.
  - destruct (LCG_always_returns lcg Hm) as (v & g' & Hn & _).
    exists v, g'. split; [exact Hn |]. split.
    + rewrite LCG_randint_shared.
      exact (randint_with_returns _ _ _ _ _ _ _ Hrange Hn).
    + exact (randint_value_range _ _ v Hrange).
  - destruct (XORShiftRNG_always_returns xs Hshift) as (v & g' & Hn & _).
    exists v, g'. split; [exact Hn |]. split.
    + rewrite XORShiftRNG_randint_shared.
      exact (randint_with_returns _ _ _ _ _ _ _ Hrange Hn).
    + exact (randint_value_range _ _ v Hrange).
Qed.

Lemma C3_randint_formula_and_bounds_witness :
  10 <= 20 /\
  (LCG.mk 123456 1664525 1013904223 (2 ^ 32)).(LCG.m) <> 0 /\
  XORShiftSpec.shifts_ok (XORShiftRNG.mk 123456 13 17 5) /\
  (exists v lcg',
      LCG.next (LCG.mk 123456 1664525 1013904223 (2 ^ 32)) = (Return v, lcg') /\
      LCG.randint 10 20 (LCG.mk 123456 1664525 1013904223 (2 ^ 32)) =
        (Return (10 + v mod (20 - 10 + 1)), lcg') /\
      10 <= 10 + v mod (20 - 10 + 1) <= 20) /\
  (exists v xs',
      XORShiftRNG.next (XORShiftRNG.mk 123456 13 17 5) = (Return v, xs') /\
      XORShiftRNG.randint 10 20 (XORShiftRNG.mk 123456 13 17 5) =
        (Return (10 + v mod (20 - 10 + 1)), xs') /\
      10 <= 10 + v mod (20 - 10 + 1) <= 20).
Proof.
  assert (H1 : 10 <= 20) by lia.
  assert (H2 : (LCG.mk 123456 1664525 1013904223 (2 ^ 32)).(LCG.m) <> 0)
    by (cbn; lia).
  assert (H3 : XORShiftSpec.shifts_ok (XORShiftRNG.mk 123456 13 17 5))
    by (unfold XORShiftSpec.shifts_ok; cbn; lia).
  split; [exact H1 |]. split; [exact H2 |]. split; [exact H3 |].
  exact (C3_randint_formula_and_bounds _ _ _ _ H1 H2 H3).
Defined.

(** C6. For n > 0, [generate_sequence(n, scale=False)] returns the list of
    exactly n integers whose i-th element is what [next] returns in the
    object as i earlier calls of [next] left it, and leaves the object as
    n calls of [next] leave it; for the LCG (non-zero modulus) and for
    XORShift32 (usable shift amounts). *)
Theorem C6_raw_sequence_is_successive_next
  (lcg : LCG.LCG) (xs : XORShiftRNG.XORShiftRNG) (n : Z)
  (Hn : 0 < n)
  (Hm : lcg.(LCG.m) <> 0)
  (Hshift : XORShiftSpec.shifts_ok xs) :
  (exists vs,
      LCG.generate_sequence n false lcg =
        (Return (Raw vs), after_calls LCG.next (Z.to_nat n) lcg) /\
      Z.of_nat (List.length vs) = n /\
      forall i, (i < Z.to_nat n)%nat ->
        fst (LCG.next (after_calls LCG.next i lcg)) = Return (nth i vs 0)) /\
  (exists vs,
      XORShiftRNG.generate_sequence n false xs =
        (Return (Raw vs), after_calls XORShiftRNG.next (Z.to_nat n) xs) /\
      Z.of_nat (List.length vs) = n /\
      forall i, (i < Z.to_nat n)%nat ->
        fst (XORShiftRNG.next (after_calls XORShiftRNG.next i xs)) =
          Return (nth i vs 0)).
Proof.
  split.
  - destruct (comprehension_returns _ _ _ (Z.to_nat n) lcg LCG_always_returns Hm)
      as (vs & Hc & Hlen & _ & Hnth).
    exists vs. split; [| split].
    + rewrite LCG_generate_sequence_shared.
      exact (generate_sequence_with_raw _ _ _ _ _ _ Hn Hc).
    + rewrite Hlen. lia.
    + exact Hnth.
  - destruct (comprehension_returns _ _ _ (Z.to_nat n) xs
                XORShiftRNG_always_returns Hshift)
      as (vs & Hc & Hlen & _ & Hnth).
    exists vs. split; [| split].
    + rewrite XORShiftRNG_generate_sequence_shared.
      exact (generate_sequence_with_raw _ _ _ _ _ _ Hn Hc).
    + rewrite Hlen. lia.
    + exact Hnth.
Qed.

Lemma C6_raw_sequence_is_successive_next_witness :
  0 < 3 /\
  (LCG.mk 7 3 5 10).(LCG.m) <> 0 /\
  XORShiftSpec.shifts_ok (XORShiftRNG.mk 1 13 17 5) /\
  (exists vs,
      LCG.generate_sequence 3 false (LCG.mk 7 3 5 10) =
        (Return (Raw vs), after_calls LCG.next (Z.to_nat 3) (LCG.mk 7 3 5 10)) /\
      Z.of_nat (List.length vs) = 3 /\
      forall i, (i < Z.to_nat 3)%nat ->
        fst (LCG.next (after_calls LCG.next i (LCG.mk 7 3 5 10))) =
          Return (nth i vs 0)) /\
  (exists vs,
      XORShiftRNG.generate_sequence 3 false (XORShiftRNG.mk 1 13 17 5) =
        (Return (Raw vs),
         after_calls XORShiftRNG.next (Z.to_nat 3) (XORShiftRNG.mk 1 13 17 5)) /\
      Z.of_nat (List.length vs) = 3 /\
      forall i, (i < Z.to_nat 3)%nat ->
        fst (XORShiftRNG.next
               (after_calls XORShiftRNG.next i (XORShiftRNG.mk 1 13 17 5))) =
          Return (nth i vs 0)).
Proof.
  assert (H1 : 0 < 3) by lia.
  assert (H2 : (LCG.mk 7 3 5 10).(LCG.m) <> 0) by (cbn; lia).
  assert (H3 : XORShiftSpec.shifts_ok (XORShiftRNG.mk 1 13 17 5))
    by (unfold XORShiftSpec.shifts_ok; cbn; lia).
  split; [exact H1 |]. split; [exact H2 |]. split; [exact H3 |].
  exact (C6_raw_sequence_is_successive_next _ _ _ H1 H2 H3).
Defined.

Example raw_sequence_lcg :
  fst (LCG.generate_sequence 3 false (LCG.mk 7 3 5 10)) = Return (Raw [6; 3; 4]).
Proof. reflexivity. Qed.

(** ** Failures *)

Lemma LCG_init_InvalidSeed seed a c m :
  LCG.__init__ seed a c m = Raise InvalidSeed <-> seed = 0.
Proof.
  unfold LCG.__init__, py_mod. destruct (Z.eqb_spec seed 0) as [-> | Hs].
  - split; reflexivity.
  - destruct (m =? 0); split; (discriminate || contradiction).
Qed.

Lemma XORShiftRNG_init_InvalidSeed seed q r s :
  XORShiftRNG.__init__ seed q r s = Raise InvalidSeed <-> seed = 0.
Proof.
  unfold XORShiftRNG.__init__. destruct (Z.eqb_spec seed 0) as [-> | Hs].
  - split; reflexivity.
  - split; (discriminate || contradiction).
Qed.

(** C7. Both constructors raise [InvalidSeed] for seed 0 (and then there
    is no object: the outcome is a raise); [randint] raises
    [InvalidRange] exactly when low > high; [generate_sequence] raises
    [InvalidCount] exactly when n <= 0; and each of these failures leaves
    the object exactly as it was. *)
Theorem C7_argument_failures_are_atomic :
  (forall a c m, LCG.__init__ 0 a c m = Raise InvalidSeed) /\
  (forall q r s, XORShiftRNG.__init__ 0 q r s = Raise InvalidSeed) /\
  (forall low high g g',
      LCG.randint low high g = (Raise InvalidRange, g') <->
      low > high /\ g' = g) /\
  (forall low high g g',
      XORShiftRNG.randint low high g = (Raise InvalidRange, g') <->
      low > high /\ g' = g) /\
  (forall n scale g g',
      LCG.generate_sequence n scale g = (Raise InvalidCount, g') <->
      n <= 0 /\ g' = g) /\
  (forall n scale g g',
      XORShiftRNG.generate_sequence n scale g = (Raise InvalidCount, g') <->
      n <= 0 /\ g' = g).
Proof.
  split; [| split; [| split; [| split; [| split]]]].
  - intros a c m. now apply LCG_init_InvalidSeed.
  - intros q r s. now apply XORShiftRNG_init_InvalidSeed.
  - intros low high g g'. rewrite LCG_randint_shared. split.
    + apply randint_with_InvalidRange, LCG_next_exn.
    + intros [H ->]. now apply randint_with_invalid.
  - intros low high g g'. rewrite XORShiftRNG_randint_shared. split.
    + apply randint_with_InvalidRange, XORShiftRNG_next_exn.
    + intros [H ->]. now apply randint_with_invalid.
  - intros n scale g g'. rewrite LCG_generate_sequence_shared. split.
    + apply generate_sequence_with_InvalidCount, LCG_next_exn.
    + intros [H ->]. now apply generate_sequence_with_invalid.
  - intros n scale g g'. rewrite XORShiftRNG_generate_sequence_shared. split.
    + apply generate_sequence_with_InvalidCount, XORShiftRNG_next_exn.
    + intros [H ->]. now apply generate_sequence_with_invalid.
Qed.

Lemma C7_argument_failures_are_atomic_witness :
  LCG.randint 5 3 (LCG.mk 7 3 5 10) = (Raise InvalidRange, LCG.mk 7 3 5 10) /\
  XORShiftRNG.generate_sequence 0 true (XORShiftRNG.mk 1 13 17 5) =
    (Raise InvalidCount, XORShiftRNG.mk 1 13 17 5).
Proof.
  destruct C7_argument_failures_are_atomic as (_ & _ & Hr & _ & _ & Hg).
  split.
  - apply Hr. split; [lia | reflexivity].
  - apply Hg. split; [lia | reflexivity].
Defined.

(** ** The range of the state *)

Lemma LCG_next_inv g : 0 < g.(LCG.m) -> LCGSpec.inv (advance LCG.next g).
Proof.
  intros Hm. unfold advance. rewrite LCGFacts.lcg_next_returns by lia.
  unfold LCGSpec.inv, LCGSpec.recurrence. cbn. split; [exact Hm |].
  now apply Z.mod_pos_bound.
Qed.

Lemma LCG_advance_inv g : LCGSpec.inv g -> LCGSpec.inv (advance LCG.next g).
Proof. intros [Hm _]. now apply LCG_next_inv. Qed.

Lemma XORShiftRNG_advance_inv g :
  XORShiftSpec.inv g -> XORShiftSpec.inv (advance XORShiftRNG.next g).
Proof.
  intros Hg. unfold advance.
  destruct (XORShiftFacts.shifts_ok_dec g) as [Hs | Hs].
  - rewrite (XORShiftFacts.xorshift_next_returns g Hs). unfold XORShiftSpec.inv. cbn.
    apply land_mask32_range.
  - rewrite (XORShiftFacts.xorshift_next_raises g Hs). exact Hg.
Qed.

Lemma LCG_random_state g : snd (LCG.random g) = advance LCG.next g.
Proof.
  unfold LCG.random, advance, bind at 1.
  destruct (LCG.next g) as [[v | e] g']; reflexivity.
Qed.

Lemma XORShiftRNG_random_state g :
  snd (XORShiftRNG.random g) = advance XORShiftRNG.next g.
Proof.
  unfold XORShiftRNG.random, advance, bind.
  destruct (XORShiftRNG.next g) as [[v | e] g']; reflexivity.
Qed.

(** C8. An LCG built with a positive modulus has state = seed mod m in
    [0, m-1], and [next], [random], [randint] and [generate_sequence] all
    leave the state in [0, m-1], with [next] returning a value of that
    range; an XORShift32 generator is built with a state in [0, 2^32-1],
    every operation leaves the state in that range, and every value
    [next] returns is in it. *)
Theorem C8_state_stays_in_range :
  (forall seed a c m g,
      0 < m -> LCG.__init__ seed a c m = Return g ->
      g.(LCG.state) = seed mod m /\ g.(LCG.m) = m /\ LCGSpec.inv g) /\
  (forall g, LCGSpec.inv g ->
      (exists v g', LCG.next g = (Return v, g') /\
                    0 <= v <= g.(LCG.m) - 1 /\ g'.(LCG.m) = g.(LCG.m) /\
                    LCGSpec.inv g') /\
      LCGSpec.inv (snd (LCG.random g)) /\
      (forall low high, LCGSpec.inv (snd (LCG.randint low high g))) /\
      (forall n scale, LCGSpec.inv (snd (LCG.generate_sequence n scale g)))) /\
  (forall seed q r s g,
      XORShiftRNG.__init__ seed q r s = Return g -> XORShiftSpec.inv g) /\
  (forall g, XORShiftSpec.inv g ->
      XORShiftSpec.inv (snd (XORShiftRNG.next g)) /\
      (forall v g', XORShiftRNG.next g = (Return v, g') -> 0 <= v <= 2 ^ 32 - 1) /\
      XORShiftSpec.inv (snd (XORShiftRNG.random g)) /\
      (forall low high, XORShiftSpec.inv (snd (XORShiftRNG.randint low high g))) /\
      (forall n scale,
          XORShiftSpec.inv (snd (XORShiftRNG.generate_sequence n scale g)))).
Proof.
  split; [| split; [| split]].
  - intros seed a c m g Hm Hinit.
    apply LCGFacts.lcg_init_inversion in Hinit. destruct Hinit as (_ & _ & ->).
    unfold LCGSpec.inv. cbn. repeat split; try lia; now apply Z.mod_pos_bound.
  - intros g Hg. pose proof Hg as [Hm Hs]. split; [| split; [| split]].
    + exists (LCGSpec.recurrence g), (LCG.set_state g (LCGSpec.recurrence g)).
      pose proof (Z.mod_pos_bound
                    (g.(LCG.a) * g.(LCG.state) + g.(LCG.c)) g.(LCG.m) Hm) as Hb.
      split; [apply LCGFacts.lcg_next_returns; lia |].
      unfold LCGSpec.inv, LCGSpec.recurrence. cbn. lia.
    + rewrite LCG_random_state. now apply LCG_advance_inv.
    + intros low high. rewrite LCG_randint_shared.
      destruct (randint_with_state _ LCG.next low high g) as [-> | ->];
        [exact Hg | now apply LCG_advance_inv].
    + intros n scale. rewrite LCG_generate_sequence_shared.
      destruct (generate_sequence_with_state _ LCG.next n scale g) as [j ->].
      apply after_calls_preserves; [exact LCG_advance_inv | exact Hg].
  - intros seed q r s g. unfold XORShiftRNG.__init__.
    destruct (seed =? 0); [discriminate |]. intros H. injection H as <-.
    unfold XORShiftSpec.inv. cbn. apply land_mask32_range.
  - intros g Hg. split; [| split; [| split; [| split]]].
    + now apply XORShiftRNG_advance_inv.
    + intros v g' H.
      destruct (XORShiftFacts.shifts_ok_dec g) as [Hs | Hs].
      * rewrite (XORShiftFacts.xorshift_next_returns g Hs) in H. injection H as <- _.
        pose proof (land_mask32_range
          (XORShiftSpec.step3 g (XORShiftSpec.step2 g
             (XORShiftSpec.step1 g g.(XORShiftRNG.state))))).
        unfold XORShiftSpec.scramble. lia.
      * rewrite (XORShiftFacts.xorshift_next_raises g Hs) in H. discriminate.
    + rewrite XORShiftRNG_random_state. now apply XORShiftRNG_advance_inv.
    + intros low high. rewrite XORShiftRNG_randint_shared.
      destruct (randint_with_state _ XORShiftRNG.next low high g) as [-> | ->];
        [exact Hg | now apply XORShiftRNG_advance_inv].
    + intros n scale. rewrite XORShiftRNG_generate_sequence_shared.
      destruct (generate_sequence_with_state _ XORShiftRNG.next n scale g)
        as [j ->].
      apply after_calls_preserves; [exact XORShiftRNG_advance_inv | exact Hg].
Qed.

Lemma C8_state_stays_in_range_witness :
  LCGSpec.inv (LCG.mk 7 3 5 10) /\
  LCGSpec.inv (snd (LCG.generate_sequence 4 true (LCG.mk 7 3 5 10))) /\
  XORShiftSpec.inv (XORShiftRNG.mk 1 13 17 5) /\
  XORShiftSpec.inv (snd (XORShiftRNG.randint 1 6 (XORShiftRNG.mk 1 13 17 5))).
Proof.
  assert (H1 : LCGSpec.inv (LCG.mk 7 3 5 10)) by (unfold LCGSpec.inv; cbn; lia).
  assert (H2 : XORShiftSpec.inv (XORShiftRNG.mk 1 13 17 5))
    by (unfold XORShiftSpec.inv; cbn; lia).
  destruct C8_state_stays_in_range as (_ & Hl & _ & Hx).
  split; [exact H1 |]. split; [| split; [exact H2 |]].
  - exact (proj2 (proj2 (proj2 (Hl _ H1))) 4 true).
  - exact (proj1 (proj2 (proj2 (proj2 (Hx _ H2)))) 1 6).
Defined.

(** ** Determinism *)

(** C9. Two generators of the same kind built from the same seed and the
    same parameters are two objects with separate states; however their
    [next] calls are interleaved, the i-th outcome of the one is the i-th
    outcome of the other, and any number n of successive calls yields the
    same list from both. *)
Theorem C9_same_seed_same_sequence :
  (forall seed a c m g1 g2 sched i o1 o2,
      LCG.__init__ seed a c m = Return g1 ->
      LCG.__init__ seed a c m = Return g2 ->
      nth_error (fst (interleave LCG.next sched g1 g2)) i = Some o1 ->
      nth_error (snd (interleave LCG.next sched g1 g2)) i = Some o2 ->
      o1 = o2) /\
  (forall seed a c m g1 g2 n,
      LCG.__init__ seed a c m = Return g1 ->
      LCG.__init__ seed a c m = Return g2 ->
      fst (comprehension n LCG.next g1) = fst (comprehension n LCG.next g2)) /\
  (forall seed q r s g1 g2 sched i o1 o2,
      XORShiftRNG.__init__ seed q r s = Return g1 ->
      XORShiftRNG.__init__ seed q r s = Return g2 ->
      nth_error (fst (interleave XORShiftRNG.next sched g1 g2)) i = Some o1 ->
      nth_error (snd (interleave XORShiftRNG.next sched g1 g2)) i = Some o2 ->
      o1 = o2) /\
  (forall seed q r s g1 g2 n,
      XORShiftRNG.__init__ seed q r s = Return g1 ->
      XORShiftRNG.__init__ seed q r s = Return g2 ->
      fst (comprehension n XORShiftRNG.next g1) =
        fst (comprehension n XORShiftRNG.next g2)).
Proof.
  split; [| split; [| split]].
  - intros seed a c m g1 g2 sched i o1 o2 H1 H2.
    rewrite H1 in H2. injection H2 as <-.
    apply interleave_agree.
  - intros seed a c m g1 g2 n H1 H2.
    rewrite H1 in H2. injection H2 as <-. reflexivity.
  - intros seed q r s g1 g2 sched i o1 o2 H1 H2.
    rewrite H1 in H2. injection H2 as <-.
    apply interleave_agree.
  - intros seed q r s g1 g2 n H1 H2.
    rewrite H1 in H2. injection H2 as <-. reflexivity.
Qed.

Lemma C9_same_seed_same_sequence_witness :
  LCG.__init__ 123456 1664525 1013904223 (2 ^ 32) =
    Return (LCG.mk 123456 1664525 1013904223 (2 ^ 32)) /\
  nth_error (fst (interleave LCG.next [true; false; false; true]
                    (LCG.mk 123456 1664525 1013904223 (2 ^ 32))
                    (LCG.mk 123456 1664525 1013904223 (2 ^ 32)))) 1 =
    Some (Return 870155634) /\
  nth_error (snd (interleave LCG.next [true; false; false; true]
                    (LCG.mk 123456 1664525 1013904223 (2 ^ 32))
                    (LCG.mk 123456 1664525 1013904223 (2 ^ 32)))) 1 =
    Some (Return 870155634) /\
  @Return Z 870155634 = Return 870155634.
Proof.
  assert (H0 : LCG.__init__ 123456 1664525 1013904223 (2 ^ 32) =
               Return (LCG.mk 123456 1664525 1013904223 (2 ^ 32)))
    by reflexivity.
  assert (H1 : nth_error (fst (interleave LCG.next [true; false; false; true]
                    (LCG.mk 123456 1664525 1013904223 (2 ^ 32))
                    (LCG.mk 123456 1664525 1013904223 (2 ^ 32)))) 1 =
               Some (Return 870155634)) by (vm_compute; reflexivity).
  assert (H2 : nth_error (snd (interleave LCG.next [true; false; false; true]
                    (LCG.mk 123456 1664525 1013904223 (2 ^ 32))
                    (LCG.mk 123456 1664525 1013904223 (2 ^ 32)))) 1 =
               Some (Return 870155634)) by (vm_compute; reflexivity).
  split; [exact H0 |]. split; [exact H1 |]. split; [exact H2 |].
  exact (proj1 C9_same_seed_same_sequence _ _ _ _ _ _ _ _ _ _ H0 H0 H1 H2).
Defined.

(** ** The zero state of XORShift32 *)

Lemma xorshift_zero_fixed q r s :
  0 <= q -> 0 <= r -> 0 <= s ->
  XORShiftRNG.next (XORShiftRNG.mk 0 q r s) = (Return 0, XORShiftRNG.mk 0 q r s).
Proof.
  intros Hq Hr Hs.
  rewrite XORShiftFacts.xorshift_next_returns by (unfold XORShiftSpec.shifts_ok; cbn; lia).
  unfold XORShiftSpec.scramble, XORShiftSpec.step3, XORShiftSpec.step2,
    XORShiftSpec.step1, XORShiftRNG.set_state. cbn [XORShiftRNG.state
    XORShiftRNG.q XORShiftRNG.r XORShiftRNG.s].
  rewrite !Z.shiftl_0_l, !Z.land_0_l, !Z.lxor_0_l, Z.shiftr_0_l, Z.shiftl_0_l.
  rewrite !Z.land_0_l. reflexivity.
Qed.

Lemma xorshift_zero_forever q r s n :
  0 <= q -> 0 <= r -> 0 <= s ->
  comprehension n XORShiftRNG.next (XORShiftRNG.mk 0 q r s) =
    (Return (repeat 0 n), XORShiftRNG.mk 0 q r s).
Proof.
  intros Hq Hr Hs. induction n as [| n IH]; [reflexivity |].
  cbn [comprehension repeat].
  rewrite (bind_Return _ _ (xorshift_zero_fixed q r s Hq Hr Hs)).
  rewrite (bind_Return _ _ IH). reflexivity.
Qed.

(** C10. Every non-zero multiple of 2^32 (2^32 itself, for one) is a seed
    the XORShift32 constructor accepts and turns into state 0; with usable
    shift amounts, [next] in state 0 returns 0 and leaves state 0, so
    every later call returns 0 as well. *)
Theorem C10_xorshift_zero_state_is_absorbing
  (k q r s : Z) (Hk : k <> 0) (Hq : 0 <= q) (Hr : 0 <= r) (Hs : 0 <= s) :
  k * 2 ^ 32 <> 0 /\
  XORShiftRNG.__init__ (k * 2 ^ 32) q r s = Return (XORShiftRNG.mk 0 q r s) /\
  XORShiftRNG.next (XORShiftRNG.mk 0 q r s) =
    (Return 0, XORShiftRNG.mk 0 q r s) /\
  (forall n,
      comprehension n XORShiftRNG.next (XORShiftRNG.mk 0 q r s) =
        (Return (repeat 0 n), XORShiftRNG.mk 0 q r s)) /\
  (forall i,
      after_calls XORShiftRNG.next i (XORShiftRNG.mk 0 q r s) =
        XORShiftRNG.mk 0 q r s).
Proof.
  assert (Hseed : k * 2 ^ 32 <> 0) by lia.
  split; [exact Hseed |]. split; [| split; [| split]].
  - unfold XORShiftRNG.__init__.
    destruct (Z.eqb_spec (k * 2 ^ 32) 0); [contradiction |].
    rewrite land_mask32, Z.mod_mul by lia. reflexivity.
  - now apply xorshift_zero_fixed.
  - intros n. now apply xorshift_zero_forever.
  - intros i. induction i as [| i IH]; [reflexivity |].
    rewrite after_calls_succ. unfold advance at 1.
    rewrite (xorshift_zero_fixed q r s Hq Hr Hs). exact IH.
Qed.

Lemma C10_xorshift_zero_state_is_absorbing_witness :
  1 <> 0 /\ 0 <= 13 /\ 0 <= 17 /\ 0 <= 5 /\
  XORShiftRNG.__init__ (2 ^ 32) 13 17 5 = Return (XORShiftRNG.mk 0 13 17 5) /\
  XORShiftRNG.next (XORShiftRNG.mk 0 13 17 5) =
    (Return 0, XORShiftRNG.mk 0 13 17 5).
Proof.
  assert (Hk : 1 <> 0) by lia.
  assert (Hq : 0 <= 13) by lia.
  assert (Hr : 0 <= 17) by lia.
  assert (Hs : 0 <= 5) by lia.
  destruct (C10_xorshift_zero_state_is_absorbing 1 13 17 5 Hk Hq Hr Hs)
    as (_ & Hinit & Hnext & _).
  repeat (split; [assumption |]). exact Hnext.
Defined.

(** ** Binary64 rounding *)

(** The literals are the floats nearest to what they denote. *)
Example eps_is_nearest_to_1e_6 :
  SFdiv prec emax (exact_of_int 1) (exact_of_int (10 ^ 6)) = eps.
Proof. vm_compute. reflexivity. Qed.

Example one_float_is_1 : nearest_float 1 = one_float.
Proof. vm_compute. reflexivity. Qed.

Example zero_float_is_0 : nearest_float 0 = zero_float.
Proof. reflexivity. Qed.

Lemma digits2_pos_bounds (p : positive) :
  2 ^ (Zpos (digits2_pos p) - 1) <= Zpos p < 2 ^ Zpos (digits2_pos p).
Proof.
  induction p as [p IH | p IH |]; cbn [digits2_pos].
  - rewrite Pos2Z.inj_succ.
    replace (Z.succ (Zpos (digits2_pos p)) - 1) with (Z.succ (Zpos (digits2_pos p) - 1)) by lia.
    rewrite !Z.pow_succ_r by lia. lia.
  - rewrite Pos2Z.inj_succ.
    replace (Z.succ (Zpos (digits2_pos p)) - 1) with (Z.succ (Zpos (digits2_pos p) - 1)) by lia.
    rewrite !Z.pow_succ_r by lia. lia.
  - cbn. lia.
Qed.

Lemma digits2_pos_unique (p : positive) (d : Z) :
  2 ^ (d - 1) <= Zpos p < 2 ^ d -> Zpos (digits2_pos p) = d.
Proof.
  intros [Hlo Hhi]. pose proof (digits2_pos_bounds p) as [Blo Bhi].
  assert (Hd : 0 < d).
  { destruct (Z.lt_trichotomy d 0) as [Hneg | [-> | Hpos]]; [| | assumption].
    - rewrite Z.pow_neg_r in Hhi by assumption. lia.
    - cbn in Hhi. lia. }
  destruct (Z.lt_trichotomy (Zpos (digits2_pos p)) d) as [Hlt | [Heq | Hgt]];
    [| assumption |].
  - assert (2 ^ Zpos (digits2_pos p) <= 2 ^ (d - 1)) by (apply Z.pow_le_mono_r; lia).
    lia.
  - assert (2 ^ d <= 2 ^ (Zpos (digits2_pos p) - 1)) by (apply Z.pow_le_mono_r; lia).
    lia.
Qed.

Lemma shr_1_m mrs : 0 <= shr_m mrs -> shr_m (shr_1 mrs) = shr_m mrs / 2.
Proof.
  destruct mrs as [m r s]. cbn [shr_m]. intros Hm.
  rewrite <- Z.div2_div.
  destruct m as [| [p | p |] | p]; try reflexivity; lia.
Qed.

Lemma iter_shr_1_m (n : positive) : forall mrs,
  0 <= shr_m mrs ->
  shr_m (iter_pos shr_1 n mrs) = shr_m mrs / 2 ^ Zpos n.
Proof.
  assert (Hhalf : forall mrs, 0 <= shr_m mrs -> 0 <= shr_m (shr_1 mrs)).
  { intros mrs H. rewrite shr_1_m by assumption. apply Z.div_pos; lia. }
  induction n as [n IH | n IH |]; intros mrs Hm; cbn [iter_pos].
  - assert (H1 : 0 <= shr_m (shr_1 mrs)) by auto.
    assert (H2 : 0 <= shr_m (iter_pos shr_1 n (shr_1 mrs))).
    { rewrite IH by assumption. apply Z.div_pos; [assumption | apply Z.pow_pos_nonneg; lia]. }
    rewrite IH, IH, shr_1_m by assumption.
    rewrite !Z.div_div by (try apply Z.pow_pos_nonneg; lia).
    f_equal. rewrite (Pos2Z.inj_xI n).
    replace (2 * Zpos n + 1) with (1 + Zpos n + Zpos n) by lia.
    rewrite (Z.pow_add_r 2 (1 + Zpos n) (Zpos n)) by lia.
    rewrite (Z.pow_add_r 2 1 (Zpos n)) by lia. lia.
  - assert (H2 : 0 <= shr_m (iter_pos shr_1 n mrs)).
    { rewrite IH by assumption. apply Z.div_pos; [assumption | apply Z.pow_pos_nonneg; lia]. }
    rewrite IH, IH by assumption.
    rewrite !Z.div_div by (try apply Z.pow_pos_nonneg; lia).
    f_equal. rewrite (Pos2Z.inj_xO n).
    replace (2 * Zpos n) with (Zpos n + Zpos n) by lia.
    rewrite (Z.pow_add_r 2 (Zpos n) (Zpos n)) by lia. lia.
  - rewrite shr_1_m by assumption. reflexivity.
Qed.

Lemma shr_spec mrs e n :
  0 <= shr_m mrs -> 0 <= n ->
  shr_m (fst (shr mrs e n)) = shr_m mrs / 2 ^ n /\ snd (shr mrs e n) = e + n.
Proof.
  intros Hm Hn. destruct n as [| p | p]; cbn [shr fst snd]; [| | lia].
  - rewrite Z.div_1_r. split; [reflexivity | lia].
  - split; [now apply iter_shr_1_m | reflexivity].
Qed.

Lemma shr_m_of_loc m l : shr_m (shr_record_of_loc m l) = m.
Proof. destruct l as [| []]; reflexivity. Qed.

Lemma round_nearest_even_bounds m l :
  m <= round_nearest_even m l <= m + 1.
Proof.
  unfold round_nearest_even. destruct l as [| []]; try destruct (Z.even m); lia.
Qed.

Lemma fexp_normal e : -1074 <= e - 53 -> fexp prec emax e = e - 53.
Proof. unfold fexp, emin, prec, emax. lia. Qed.

Lemma pow2_split (a b : Z) : 0 <= a -> 0 <= b -> 2 ^ (a + b) = 2 ^ a * 2 ^ b.
Proof. intros. now apply Z.pow_add_r. Qed.

(** Rounding a positive mantissa of at least 53 digits, away from the
    subnormal range and from overflow: the result is finite with a
    53-digit mantissa, which is the truncated mantissa or one more. *)
Lemma binary_round_aux_normal (mx : positive) (ex : Z) (lx : location) :
  let d := Zpos (digits2_pos mx) in
  let e1 := ex + d - 53 in
  let q1 := Zpos mx / 2 ^ (d - 53) in
  53 <= d -> -1074 <= e1 -> e1 + 1 <= 971 ->
  exists m e,
    binary_round_aux prec emax false (Zpos mx) ex lx = S754_finite false m e /\
    Zpos (digits2_pos m) = 53 /\
    ((e = e1 /\ q1 <= Zpos m <= q1 + 1) \/
     (e = e1 + 1 /\ Zpos m = 2 ^ 52 /\ q1 = 2 ^ 53 - 1)).
Proof.
  intros d e1 q1 Hd Hlo Hhi.
  assert (Hq1 : 2 ^ 52 <= q1 < 2 ^ 53).
  { pose proof (digits2_pos_bounds mx) as [Blo Bhi]. fold d in Blo, Bhi.
    assert (Hpow : 0 < 2 ^ (d - 53)) by (apply Z.pow_pos_nonneg; lia).
    assert (E1 : 2 ^ (d - 1) = 2 ^ 52 * 2 ^ (d - 53))
      by (rewrite <- pow2_split by lia; f_equal; lia).
    assert (E2 : 2 ^ d = 2 ^ 53 * 2 ^ (d - 53))
      by (rewrite <- pow2_split by lia; f_equal; lia).
    rewrite E1 in Blo. rewrite E2 in Bhi.
    unfold q1. split.
    - apply Z.div_le_lower_bound; lia.
    - apply Z.div_lt_upper_bound; lia. }
  unfold binary_round_aux.
  (* first shift *)
  unfold shr_fexp at 1. cbn [Zdigits2]. fold d.
  rewrite fexp_normal by lia.
  replace (d + ex - 53 - ex) with (d - 53) by lia.
  pose proof (shr_spec (shr_record_of_loc (Zpos mx) lx) ex (d - 53)) as Hshr.
  rewrite shr_m_of_loc in Hshr.
  destruct Hshr as [Hm1 He1]; [lia | lia |].
  destruct (shr (shr_record_of_loc (Zpos mx) lx) ex (d - 53)) as [mrs' e'].
  cbn [fst snd] in Hm1, He1. fold q1 in Hm1.
  replace (ex + (d - 53)) with e1 in He1 by (unfold e1; lia). subst e'.
  (* rounding *)
  pose proof (round_nearest_even_bounds (shr_m mrs') (loc_of_shr_record mrs')) as Hrnd.
  set (m2 := round_nearest_even (shr_m mrs') (loc_of_shr_record mrs')) in *.
  rewrite Hm1 in Hrnd.
  (* second shift *)
  destruct (Z.eq_dec m2 (2 ^ 53)) as [Htop | Htop].
  - rewrite Htop. unfold shr_fexp.
    change (Zdigits2 (2 ^ 53)) with 54.
    rewrite fexp_normal by lia.
    replace (54 + e1 - 53 - e1) with 1 by lia.
    cbn [shr_record_of_loc shr iter_pos]. cbn.
    destruct (Z.leb_spec (e1 + 1) 971) as [_ | Hbad]; [| lia].
    eexists. eexists. split; [reflexivity |]. split; [reflexivity |].
    right. repeat split. lia.
  - assert (Hm2 : 2 ^ 52 <= m2 < 2 ^ 53) by lia.
    destruct m2 as [| pm | pm] eqn:Em2; [lia | | lia].
    pose proof (digits2_pos_unique pm 53 Hm2) as Hdig.
    unfold shr_fexp. cbn [Zdigits2]. rewrite Hdig.
    rewrite fexp_normal by lia.
    replace (53 + e1 - 53 - e1) with 0 by lia.
    cbn [shr_record_of_loc shr shr_m].
    change (emax - prec) with 971.
    destruct (Z.leb_spec e1 971) as [_ | Hbad]; [| lia].
    exists pm, e1. split; [reflexivity |]. split; [exact Hdig |].
    left. split; [reflexivity | lia].
Qed.

Lemma iter_xO_spec (d mx : positive) :
  Zpos (Pos.iter xO mx d) = Zpos mx * 2 ^ Zpos d.
Proof.
  induction d as [| d IH] using Pos.peano_ind.
  - cbn [Pos.iter]. rewrite Pos2Z.inj_xO. change (2 ^ 1) with 2. lia.
  - rewrite Pos.iter_succ, Pos2Z.inj_xO, IH, Pos2Z.inj_succ, Z.pow_succ_r by lia.
    lia.
Qed.

Lemma shl_align_spec (mx : positive) (ex ex' : Z) :
  ex' <= ex ->
  snd (shl_align mx ex ex') = ex' /\
  Zpos (fst (shl_align mx ex ex')) = Zpos mx * 2 ^ (ex - ex').
Proof.
  intros Hle. unfold shl_align.
  destruct (ex' - ex) as [| d | d] eqn:Hd; [| lia |].
  - assert (ex' = ex) as -> by lia. cbn [fst snd].
    rewrite Z.sub_diag. split; [reflexivity | lia].
  - cbn [fst snd]. split; [reflexivity |].
    rewrite iter_xO_spec. f_equal. f_equal. lia.
Qed.

Lemma shl_align_id (mx : positive) (ex ex' : Z) :
  ex <= ex' -> shl_align mx ex ex' = (mx, ex).
Proof.
  intros Hle. unfold shl_align. destruct (ex' - ex) eqn:Hd; (reflexivity || lia).
Qed.

(** A 53-digit mantissa with nothing to round is left as it is. *)
Lemma binary_round_aux_exact (mx : positive) (ex : Z) :
  Zpos (digits2_pos mx) = 53 -> -1074 <= ex <= 971 ->
  binary_round_aux prec emax false (Zpos mx) ex loc_Exact = S754_finite false mx ex.
Proof.
  intros Hd He. unfold binary_round_aux, shr_fexp. cbn [Zdigits2]. rewrite Hd.
  rewrite fexp_normal by lia.
  replace (53 + ex - 53 - ex) with 0 by lia.
  cbn [shr_record_of_loc shr shr_m loc_of_shr_record round_nearest_even Zdigits2].
  rewrite Hd, fexp_normal by lia.
  replace (53 + ex - 53 - ex) with 0 by lia.
  cbn [shr shr_m]. change (emax - prec) with 971.
  destruct (Z.leb_spec ex 971); [reflexivity | lia].
Qed.

(** [float(z)] is exact for a positive integer of at most 53 bits: its
    mantissa is [z] shifted up to 53 digits. *)
Lemma binary_normalize_small (z : positive) :
  let k := Zpos (digits2_pos z) in
  k <= 53 ->
  exists m,
    binary_normalize prec emax (Zpos z) 0 false = S754_finite false m (k - 53) /\
    Zpos m = Zpos z * 2 ^ (53 - k) /\
    Zpos (digits2_pos m) = 53.
Proof.
  intros k Hk. cbn [binary_normalize]. unfold binary_round.
  replace (Zpos (digits2_pos z) + 0) with k by (unfold k; lia).
  rewrite fexp_normal by lia.
  destruct (shl_align_spec z 0 (k - 53)) as [He Hm]; [lia |].
  destruct (shl_align z 0 (k - 53)) as [mz ez]. cbn [fst snd] in He, Hm. subst ez.
  replace (0 - (k - 53)) with (53 - k) in Hm by lia.
  assert (Hdig : Zpos (digits2_pos mz) = 53).
  { apply digits2_pos_unique. rewrite Hm.
    pose proof (digits2_pos_bounds z) as [Blo Bhi]. fold k in Blo, Bhi.
    assert (Hpow : 0 < 2 ^ (53 - k)) by (apply Z.pow_pos_nonneg; lia).
    assert (E1 : 2 ^ (53 - 1) = 2 ^ (k - 1) * 2 ^ (53 - k))
      by (rewrite <- pow2_split by lia; f_equal; lia).
    assert (E2 : 2 ^ 53 = 2 ^ k * 2 ^ (53 - k))
      by (rewrite <- pow2_split by lia; f_equal; lia).
    rewrite E1, E2. split.
    - apply Z.mul_le_mono_nonneg_r; lia.
    - apply Z.mul_lt_mono_pos_r; lia. }
  exists mz. split; [| split; assumption].
  apply binary_round_aux_exact; [assumption | lia].
Qed.

(** Adding [1e-6] to an exactly converted integer of at most 33 bits
    moves its 53-digit mantissa up by at least one unit. *)
Lemma add_eps_spec (mH : positive) (H k : Z) :
  1 <= k <= 33 -> 2 ^ (k - 1) <= H < 2 ^ k -> Zpos mH = H * 2 ^ (53 - k) ->
  exists m,
    SFadd prec emax (S754_finite false mH (k - 53)) eps =
      S754_finite false m (k - 53) /\
    Zpos (digits2_pos m) = 53 /\
    H * 2 ^ (53 - k) + 1 <= Zpos m.
Proof.
  intros Hk HH HmH.
  set (P := 2 ^ (53 - k)) in *. set (T := 2 ^ (k + 19)).
  assert (HP : 2 ^ 20 <= P) by (apply Z.pow_le_mono_r; lia).
  assert (HT : 2 ^ 20 <= T <= 2 ^ 52) by (split; apply Z.pow_le_mono_r; lia).
  assert (HPT : P * T = 2 ^ 72) by (unfold P, T; rewrite <- pow2_split by lia; f_equal; lia).
  assert (HkP : 2 ^ k * P = 2 ^ 53) by (unfold P; rewrite <- pow2_split by lia; f_equal; lia).
  assert (Hk1P : 2 ^ (k - 1) * P = 2 ^ 52) by (unfold P; rewrite <- pow2_split by lia; f_equal; lia).
  assert (Hk1T : 2 ^ (k - 1) * 2 ^ 72 = 2 ^ (k + 72 - 1))
    by (rewrite <- pow2_split by lia; f_equal; lia).
  assert (HkT : 2 ^ k * 2 ^ 72 = 2 ^ (k + 72))
    by (rewrite <- pow2_split by lia; f_equal; lia).
  unfold SFadd, eps. rewrite Z.min_r by lia.
  destruct (shl_align_spec mH (k - 53) (-72)) as [_ Hm']; [lia |].
  rewrite (shl_align_id _ (-72) (-72)) by lia.
  set (m' := fst (shl_align mH (k - 53) (-72))) in *.
  replace (k - 53 - -72) with (k + 19) in Hm' by lia. fold T in Hm'.
  cbn [cond_Zopp fst Z.add binary_normalize].
  set (S := (m' + 4722366482869645)%positive).
  assert (HS : Zpos S = H * 2 ^ 72 + 4722366482869645).
  { unfold S. rewrite Pos2Z.inj_add, Hm', HmH, <- HPT. lia. }
  assert (HdS : Zpos (digits2_pos S) = k + 72).
  { apply digits2_pos_unique. rewrite HS, <- Hk1T, <- HkT.
    assert (H + 1 <= 2 ^ k) by lia.
    assert ((H + 1) * 2 ^ 72 <= 2 ^ k * 2 ^ 72) by (apply Z.mul_le_mono_nonneg_r; lia).
    assert (2 ^ (k - 1) * 2 ^ 72 <= H * 2 ^ 72) by (apply Z.mul_le_mono_nonneg_r; lia).
    lia. }
  unfold binary_round. rewrite HdS.
  rewrite fexp_normal by lia.
  rewrite shl_align_id by lia.
  pose proof (binary_round_aux_normal S (-72) loc_Exact) as B.
  cbv zeta in B. rewrite HdS in B.
  replace (-72 + (k + 72) - 53) with (k - 53) in B by lia.
  replace (k + 72 - 53) with (k + 19) in B by lia. fold T in B.
  destruct B as (m & e & Heq & Hdig & Hcase); [lia | lia | lia |].
  assert (Hq1 : Zpos S / T = H * P + 4722366482869645 / T).
  { rewrite HS, <- HPT.
    replace (H * (P * T) + 4722366482869645) with (H * P * T + 4722366482869645) by lia.
    rewrite Z.div_add_l by lia. reflexivity. }
  assert (HET : 1 <= 4722366482869645 / T).
  { apply Z.div_le_lower_bound; lia. }
  assert (HET' : 4722366482869645 / T < P - 1).
  { apply Z.div_lt_upper_bound; [lia |]. nia. }
  assert (HHP : H * P <= 2 ^ 53 - P).
  { assert ((H + 1) * P <= 2 ^ k * P) by (apply Z.mul_le_mono_nonneg_r; lia). lia. }
  rewrite Hq1 in Hcase.
  destruct Hcase as [[-> Hm] | [_ [_ Hbad]]]; [| lia].
  exists m. rewrite Heq. split; [reflexivity |]. split; [assumption | lia].
Qed.

(** ** Rounding to nearest, ties to even *)

Lemma shr_1_rs mrs :
  0 <= shr_m mrs ->
  shr_r (shr_1 mrs) = Z.odd (shr_m mrs) /\
  shr_s (shr_1 mrs) = shr_r mrs || shr_s mrs.
Proof.
  destruct mrs as [m r s]. cbn [shr_m shr_r shr_s]. intros Hm.
  destruct m as [| [p | p |] | p]; try (split; reflexivity); lia.
Qed.

Lemma represents_shr_1 N D mrs :
  0 <= N -> 0 < D -> represents N D mrs -> represents N (D * 2) (shr_1 mrs).
Proof.
  intros HN HD (Hm & Hr & Hs).
  assert (Hq : 0 <= N / D) by (apply Z.div_pos; lia).
  assert (Hm0 : 0 <= shr_m mrs) by lia.
  destruct (shr_1_rs mrs Hm0) as [Hr1 Hs1].
  pose proof (Z.mod_pos_bound N D HD) as Hrem.
  unfold represents.
  rewrite shr_1_m, Hr1, Hs1, Hm, Hr, Hs by assumption.
  rewrite Z.div_div by lia.
  rewrite (Z.rem_mul_r N D 2) by lia.
  rewrite (Zmod_odd (N / D)).
  set (q := N / D) in *. set (r := N mod D) in *.
  split; [reflexivity |].
  destruct (Z.odd q); split;
    repeat match goal with
           | |- context [?a <=? ?b] => destruct (Z.leb_spec a b)
           | |- context [?a =? ?b] => destruct (Z.eqb_spec a b)
           end; cbn; try reflexivity; lia.
Qed.

Lemma represents_iter (p : positive) : forall N D mrs,
  0 <= N -> 0 < D -> represents N D mrs ->
  represents N (D * 2 ^ Zpos p) (iter_pos shr_1 p mrs).
Proof.
  induction p as [p IH | p IH |]; intros N D mrs HN HD H; cbn [iter_pos].
  - assert (Hp : 0 < 2 ^ Zpos p) by (apply Z.pow_pos_nonneg; lia).
    apply represents_shr_1 in H; [| assumption | assumption].
    apply IH in H; [| assumption | lia].
    apply IH in H; [| assumption | nia].
    replace (D * 2 ^ Zpos p~1) with (D * 2 * 2 ^ Zpos p * 2 ^ Zpos p); [exact H |].
    rewrite (Pos2Z.inj_xI p).
    replace (2 * Zpos p + 1) with (1 + Zpos p + Zpos p) by lia.
    rewrite !pow2_split by lia. change (2 ^ 1) with 2. lia.
  - assert (Hp : 0 < 2 ^ Zpos p) by (apply Z.pow_pos_nonneg; lia).
    apply IH in H; [| assumption | lia].
    apply IH in H; [| assumption | nia].
    replace (D * 2 ^ Zpos p~0) with (D * 2 ^ Zpos p * 2 ^ Zpos p); [exact H |].
    rewrite (Pos2Z.inj_xO p).
    replace (2 * Zpos p) with (Zpos p + Zpos p) by lia.
    rewrite !pow2_split by lia. lia.
  - change (2 ^ 1) with 2. now apply represents_shr_1.
Qed.

Lemma represents_shr N D mrs e n :
  0 <= N -> 0 < D -> 0 <= n -> represents N D mrs ->
  represents N (D * 2 ^ n) (fst (shr mrs e n)) /\ snd (shr mrs e n) = e + n.
Proof.
  intros HN HD Hn H. destruct n as [| p | p]; cbn [shr fst snd]; [| | lia].
  - change (2 ^ 0) with 1. rewrite Z.mul_1_r. split; [exact H | lia].
  - split; [now apply represents_iter | reflexivity].
Qed.

Lemma represents_round N D mrs :
  0 < D -> represents N D mrs ->
  round_nearest_even (shr_m mrs) (loc_of_shr_record mrs) = round_half_even N D.
Proof.
  intros HD (Hm & Hr & Hs). destruct mrs as [m r s]. cbn [shr_m shr_r shr_s] in *.
  pose proof (Z.mod_pos_bound N D HD) as Hrem.
  unfold round_half_even. subst m r s.
  destruct (Z.compare_spec (2 * (N mod D)) D) as [E | E | E];
    destruct (Z.leb_spec D (2 * (N mod D))); try lia;
    destruct (Z.eqb_spec (N mod D) 0); try lia;
    destruct (Z.eqb_spec (2 * (N mod D)) D); try lia; reflexivity.
Qed.

Lemma represents_exact m : represents m 1 (shr_record_of_loc m loc_Exact).
Proof.
  unfold represents. cbn [shr_record_of_loc shr_m shr_r shr_s].
  rewrite Z.div_1_r, Z.mod_1_r. repeat split.
Qed.

Lemma round_half_even_bounds N D :
  N / D <= round_half_even N D <= N / D + 1.
Proof.
  unfold round_half_even.
  destruct (2 * (N mod D) ?= D); [destruct (Z.even (N / D)) | |]; lia.
Qed.

Lemma round_half_even_mono N1 N2 D :
  0 < D -> N1 <= N2 -> round_half_even N1 D <= round_half_even N2 D.
Proof.
  intros HD HN.
  pose proof (Z.div_le_mono N1 N2 D HD HN) as Hq.
  destruct (Z.eq_dec (N1 / D) (N2 / D)) as [E | E].
  - pose proof (Z.div_mod N1 D ltac:(lia)) as E1.
    pose proof (Z.div_mod N2 D ltac:(lia)) as E2.
    assert (Hr : N1 mod D <= N2 mod D) by (rewrite E in E1; nia).
    unfold round_half_even. rewrite E.
    destruct (Z.compare_spec (2 * (N1 mod D)) D);
      destruct (Z.compare_spec (2 * (N2 mod D)) D);
      destruct (Z.even (N2 / D)); lia.
  - pose proof (round_half_even_bounds N1 D). pose proof (round_half_even_bounds N2 D). lia.
Qed.

Lemma round_half_even_low N D :
  0 < D -> 2 * (N mod D) < D -> round_half_even N D = N / D.
Proof.
  intros HD H. unfold round_half_even.
  destruct (Z.compare_spec (2 * (N mod D)) D); lia.
Qed.

Lemma round_half_even_high N D :
  0 < D -> D < 2 * (N mod D) -> round_half_even N D = N / D + 1.
Proof.
  intros HD H. unfold round_half_even.
  destruct (Z.compare_spec (2 * (N mod D)) D); lia.
Qed.

Lemma binary_round_aux_nearest (mx : positive) (ex : Z) :
  let d := Zpos (digits2_pos mx) in
  let e1 := ex + d - 53 in
  let m2 := round_half_even (Zpos mx) (2 ^ (d - 53)) in
  53 <= d -> -1074 <= e1 ->
  2 ^ 52 <= m2 <= 2 ^ 53 /\
  binary_round_aux prec emax false (Zpos mx) ex loc_Exact =
    if m2 =? 2 ^ 53
    then (if e1 + 1 <=? 971 then S754_finite false 4503599627370496 (e1 + 1)
          else S754_infinity false)
    else (if e1 <=? 971 then S754_finite false (Z.to_pos m2) e1
          else S754_infinity false).
Proof.
  intros d e1 m2 Hd Hlo.
  assert (Hpow : 0 < 2 ^ (d - 53)) by (apply Z.pow_pos_nonneg; lia).
  assert (Hq1 : 2 ^ 52 <= Zpos mx / 2 ^ (d - 53) < 2 ^ 53).
  { pose proof (digits2_pos_bounds mx) as [Blo Bhi]. fold d in Blo, Bhi.
    assert (E1 : 2 ^ (d - 1) = 2 ^ 52 * 2 ^ (d - 53))
      by (rewrite <- pow2_split by lia; f_equal; lia).
    assert (E2 : 2 ^ d = 2 ^ 53 * 2 ^ (d - 53))
      by (rewrite <- pow2_split by lia; f_equal; lia).
    rewrite E1 in Blo. rewrite E2 in Bhi. split.
    - apply Z.div_le_lower_bound; lia.
    - apply Z.div_lt_upper_bound; lia. }
  pose proof (round_half_even_bounds (Zpos mx) (2 ^ (d - 53))) as Hrnd. fold m2 in Hrnd.
  split; [lia |].
  unfold binary_round_aux.
  unfold shr_fexp at 1. cbn [Zdigits2]. fold d.
  rewrite fexp_normal by lia.
  replace (d + ex - 53 - ex) with (d - 53) by lia.
  destruct (represents_shr (Zpos mx) 1 (shr_record_of_loc (Zpos mx) loc_Exact) ex (d - 53))
    as [Hrep He1]; [lia | lia | lia | apply represents_exact |].
  destruct (shr (shr_record_of_loc (Zpos mx) loc_Exact) ex (d - 53)) as [mrs' e'].
  cbn [fst snd] in Hrep, He1. rewrite Z.mul_1_l in Hrep.
  rewrite (represents_round _ _ _ Hpow Hrep). fold m2.
  replace (ex + (d - 53)) with e1 in He1 by (unfold e1; lia). subst e'.
  destruct (Z.eqb_spec m2 (2 ^ 53)) as [Htop | Htop].
  - rewrite Htop. unfold shr_fexp.
    change (Zdigits2 (2 ^ 53)) with 54.
    rewrite fexp_normal by lia.
    replace (54 + e1 - 53 - e1) with 1 by lia.
    cbn [shr_record_of_loc shr iter_pos]. cbn.
    reflexivity.
  - assert (Hm2 : 2 ^ 52 <= m2 < 2 ^ 53) by lia.
    destruct m2 as [| pm | pm] eqn:Em2; [lia | | lia].
    pose proof (digits2_pos_unique pm 53 Hm2) as Hdig.
    unfold shr_fexp. cbn [Zdigits2]. rewrite Hdig.
    rewrite fexp_normal by lia.
    replace (53 + e1 - 53 - e1) with 0 by lia.
    cbn [shr_record_of_loc shr shr_m Z.to_pos].
    change (emax - prec) with 971. reflexivity.
Qed.

Lemma nearest_parts_range X :
  1 <= X -> 2 ^ 52 <= fst (nearest_parts X) < 2 ^ 53 /\ -52 <= snd (nearest_parts X).
Proof.
  intros HX. destruct X as [| p | p]; [lia | | lia].
  unfold nearest_parts. cbn [Zdigits2].
  pose proof (digits2_pos_bounds p) as [Blo Bhi].
  set (j := Zpos (digits2_pos p)) in *.
  assert (Hj : 1 <= j) by (unfold j; lia).
  destruct (Z.leb_spec j 53) as [Hs | Hw].
  - cbn [fst snd].
    assert (Hpow : 0 < 2 ^ (53 - j)) by (apply Z.pow_pos_nonneg; lia).
    assert (E1 : 2 ^ 52 = 2 ^ (j - 1) * 2 ^ (53 - j))
      by (rewrite <- pow2_split by lia; f_equal; lia).
    assert (E2 : 2 ^ 53 = 2 ^ j * 2 ^ (53 - j))
      by (rewrite <- pow2_split by lia; f_equal; lia).
    rewrite E1, E2. split; [| lia]. split.
    + apply Z.mul_le_mono_nonneg_r; lia.
    + apply Z.mul_lt_mono_pos_r; lia.
  - pose proof (binary_round_aux_nearest p 0) as B. cbv zeta in B. fold j in B.
    destruct B as [Hm _]; [lia | lia |].
    destruct (Z.eqb_spec (round_half_even (Zpos p) (2 ^ (j - 53))) (2 ^ 53));
      cbn [fst snd]; lia.
Qed.

Lemma nearest_float_parts X :
  1 <= X ->
  nearest_float X =
    if snd (nearest_parts X) <=? 971
    then S754_finite false (Z.to_pos (fst (nearest_parts X))) (snd (nearest_parts X))
    else S754_infinity false.
Proof.
  intros HX. destruct X as [| p | p]; [lia | | lia].
  unfold nearest_parts. cbn [Zdigits2].
  set (j := Zpos (digits2_pos p)).
  assert (Hj : 1 <= j) by (unfold j; lia).
  destruct (Z.leb_spec j 53) as [Hs | Hw].
  - destruct (binary_normalize_small p) as (m & Hf & Hm & _); [fold j; lia |].
    fold j in Hf, Hm. unfold nearest_float. rewrite Hf. cbn [fst snd].
    destruct (Z.leb_spec (j - 53) 971); [| lia].
    rewrite <- Hm. reflexivity.
  - unfold nearest_float. cbn [binary_normalize]. unfold binary_round.
    replace (Zpos (digits2_pos p) + 0) with j by (unfold j; lia).
    rewrite fexp_normal by lia.
    rewrite shl_align_id by lia.
    pose proof (binary_round_aux_nearest p 0) as B. cbv zeta in B. fold j in B.
    destruct B as [_ B]; [lia | lia |]. rewrite B.
    replace (0 + j - 53) with (j - 53) by lia.
    replace (j - 53 + 1) with (j - 52) by lia.
    destruct (Z.eqb_spec (round_half_even (Zpos p) (2 ^ (j - 53))) (2 ^ 53));
      cbn [fst snd]; reflexivity.
Qed.

Lemma Zdigits2_mono X H : 1 <= X <= H -> Zdigits2 X <= Zdigits2 H.
Proof.
  intros HXH. destruct X as [| p | p]; [lia | | lia].
  destruct H as [| q | q]; [lia | | lia]. cbn [Zdigits2].
  pose proof (digits2_pos_bounds p) as [Blo _].
  pose proof (digits2_pos_bounds q) as [_ Bhi].
  assert (Hlt : 2 ^ (Zpos (digits2_pos p) - 1) < 2 ^ Zpos (digits2_pos q)) by lia.
  apply Z.pow_lt_mono_r_iff in Hlt; lia.
Qed.

Lemma nearest_parts_mono X H :
  1 <= X <= H ->
  snd (nearest_parts X) < snd (nearest_parts H) \/
  (snd (nearest_parts X) = snd (nearest_parts H) /\
   fst (nearest_parts X) <= fst (nearest_parts H)).
Proof.
  intros HXH.
  pose proof (Zdigits2_mono X H HXH) as Hjk.
  pose proof (nearest_parts_range H ltac:(lia)) as [RH _].
  pose proof (nearest_parts_range X ltac:(lia)) as [RX _].
  revert RH RX. unfold nearest_parts.
  set (j := Zdigits2 X) in *. set (k := Zdigits2 H) in *.
  set (a := round_half_even X (2 ^ (j - 53))).
  set (b := round_half_even H (2 ^ (k - 53))).
  destruct (Z.leb_spec j 53) as [Hj | Hj]; destruct (Z.leb_spec k 53) as [Hk | Hk];
    cbn [fst snd]; try lia.
  - intros _ _. destruct (Z.eq_dec j k) as [E | E]; [| lia].
    right. split; [lia |]. rewrite E.
    apply Z.mul_le_mono_nonneg_r; [apply Z.pow_nonneg |]; lia.
  - destruct (Z.eqb_spec b (2 ^ 53)); cbn [fst snd]; intros; lia.
  - destruct (Z.eq_dec j k) as [E | E].
    + assert (Hab : a <= b).
      { unfold a, b. rewrite E. apply round_half_even_mono; [| lia].
        apply Z.pow_pos_nonneg; lia. }
      destruct (Z.eqb_spec a (2 ^ 53)); destruct (Z.eqb_spec b (2 ^ 53));
        cbn [fst snd]; intros; lia.
    + destruct (Z.eqb_spec a (2 ^ 53)); destruct (Z.eqb_spec b (2 ^ 53));
        cbn [fst snd]; intros; lia.
Qed.

Lemma nearest_parts_limit X :
  1 <= X -> (snd (nearest_parts X) <= 971 <-> X < float_limit).
Proof.
  intros HX. split.
  - intros Hs. destruct (Z.lt_ge_cases X float_limit) as [| Hge]; [assumption |].
    exfalso.
    assert (HL : 1 <= float_limit <= X) by (split; [vm_compute; discriminate | assumption]).
    pose proof (nearest_parts_mono float_limit X HL) as Hmono.
    assert (E : snd (nearest_parts float_limit) = 972) by (vm_compute; reflexivity).
    rewrite E in Hmono. lia.
  - intros Hlt.
    assert (HL : 1 <= X <= float_limit - 1) by lia.
    pose proof (nearest_parts_mono X (float_limit - 1) HL) as Hmono.
    assert (E : snd (nearest_parts (float_limit - 1)) = 971) by (vm_compute; reflexivity).
    rewrite E in Hmono. lia.
Qed.

Lemma nearest_float_finite X :
  1 <= X < float_limit ->
  exists m e,
    nearest_float X = S754_finite false m e /\
    Zpos m = fst (nearest_parts X) /\ e = snd (nearest_parts X) /\
    Zpos (digits2_pos m) = 53 /\ -52 <= e <= 971.
Proof.
  intros [HX HL].
  pose proof (nearest_parts_range X HX) as [Rm Re].
  pose proof (proj2 (nearest_parts_limit X HX) HL) as He.
  rewrite (nearest_float_parts X HX).
  destruct (Z.leb_spec (snd (nearest_parts X)) 971); [| lia].
  exists (Z.to_pos (fst (nearest_parts X))), (snd (nearest_parts X)).
  assert (Hpos : Zpos (Z.to_pos (fst (nearest_parts X))) = fst (nearest_parts X))
    by (apply Z2Pos.id; lia).
  split; [reflexivity |]. split; [exact Hpos |]. split; [reflexivity |].
  split; [| lia]. apply digits2_pos_unique. rewrite Hpos. exact Rm.
Qed.

Lemma nearest_float_overflow X :
  float_limit <= X -> nearest_float X = S754_infinity false.
Proof.
  intros HL.
  assert (HX : 1 <= X) by (assert (1 <= float_limit) by (vm_compute; discriminate); lia).
  rewrite (nearest_float_parts X HX).
  destruct (Z.leb_spec (snd (nearest_parts X)) 971) as [Hs |]; [| reflexivity].
  apply (nearest_parts_limit X HX) in Hs. lia.
Qed.

(** Adding [1e-6] to a normal float of exponent at least -19: the sum of
    the aligned mantissas is rounded half-even back to 53 digits. *)
Lemma SFadd_eps_round (m : positive) (e : Z) :
  Zpos (digits2_pos m) = 53 -> -19 <= e <= 971 ->
  exists S,
    Zpos S = Zpos m * 2 ^ (e + 72) + 4722366482869645 /\
    Zpos (digits2_pos S) = e + 125 /\
    SFadd prec emax (S754_finite false m e) eps =
      binary_round_aux prec emax false (Zpos S) (-72) loc_Exact.
Proof.
  intros Hd He.
  pose proof (digits2_pos_bounds m) as Bm. rewrite Hd in Bm.
  assert (HA : 2 ^ 53 <= 2 ^ (e + 72)) by (apply Z.pow_le_mono_r; lia).
  unfold SFadd, eps. rewrite Z.min_r by lia.
  destruct (shl_align_spec m e (-72)) as [_ Hm']; [lia |].
  rewrite (shl_align_id _ (-72) (-72)) by lia.
  set (m' := fst (shl_align m e (-72))) in *.
  replace (e - -72) with (e + 72) in Hm' by lia.
  cbn [cond_Zopp fst Z.add binary_normalize].
  set (S := (m' + 4722366482869645)%positive).
  assert (HS : Zpos S = Zpos m * 2 ^ (e + 72) + 4722366482869645).
  { unfold S. rewrite Pos2Z.inj_add, Hm'. reflexivity. }
  assert (HdS : Zpos (digits2_pos S) = e + 125).
  { apply digits2_pos_unique. rewrite HS.
    assert (E1 : 2 ^ (e + 125 - 1) = 2 ^ 52 * 2 ^ (e + 72))
      by (rewrite <- pow2_split by lia; f_equal; lia).
    assert (E2 : 2 ^ (e + 125) = 2 ^ 53 * 2 ^ (e + 72))
      by (rewrite <- pow2_split by lia; f_equal; lia).
    rewrite E1, E2.
    assert (2 ^ 52 * 2 ^ (e + 72) <= Zpos m * 2 ^ (e + 72))
      by (apply Z.mul_le_mono_nonneg_r; lia).
    assert ((Zpos m + 1) * 2 ^ (e + 72) <= 2 ^ 53 * 2 ^ (e + 72))
      by (apply Z.mul_le_mono_nonneg_r; lia).
    lia. }
  exists S. split; [exact HS |]. split; [exact HdS |].
  unfold binary_round. rewrite HdS.
  rewrite fexp_normal by lia.
  rewrite shl_align_id by lia. reflexivity.
Qed.

(** From 2^34 on, [1e-6] is less than half a unit in the last place and
    the sum is the float itself. *)
Lemma add_eps_wide (m : positive) (e : Z) :
  Zpos (digits2_pos m) = 53 -> -18 <= e <= 971 ->
  SFadd prec emax (S754_finite false m e) eps = S754_finite false m e.
Proof.
  intros Hd He.
  pose proof (digits2_pos_bounds m) as Bm. rewrite Hd in Bm.
  destruct (SFadd_eps_round m e Hd) as (S & HS & HdS & ->); [lia |].
  pose proof (binary_round_aux_nearest S (-72)) as B. cbv zeta in B.
  rewrite HdS in B.
  replace (e + 125 - 53) with (e + 72) in B by lia.
  replace (-72 + (e + 125) - 53) with e in B by lia.
  destruct B as [_ B]; [lia | lia |]. rewrite B.
  assert (HA : 2 ^ 54 <= 2 ^ (e + 72)) by (apply Z.pow_le_mono_r; lia).
  set (A := 2 ^ (e + 72)) in *.
  assert (Hdiv : Zpos S / A = Zpos m).
  { rewrite HS, Z.div_add_l by lia. rewrite Z.div_small by lia. lia. }
  assert (Hmod : Zpos S mod A = 4722366482869645).
  { rewrite HS, Z.add_comm, Z.mod_add by lia. apply Z.mod_small. lia. }
  rewrite round_half_even_low by lia. rewrite Hdiv.
  destruct (Z.eqb_spec (Zpos m) (2 ^ 53)); [lia |].
  destruct (Z.leb_spec e 971); [| lia]. reflexivity.
Qed.

(** Between 2^33 and 2^34 it is more than half a unit, and the sum is the
    next float. *)
Lemma add_eps_34 (m : positive) :
  Zpos (digits2_pos m) = 53 -> Zpos m + 1 < 2 ^ 53 ->
  SFadd prec emax (S754_finite false m (-19)) eps =
    S754_finite false (m + 1) (-19).
Proof.
  intros Hd Hm.
  pose proof (digits2_pos_bounds m) as Bm. rewrite Hd in Bm.
  destruct (SFadd_eps_round m (-19) Hd) as (S & HS & HdS & ->); [lia |].
  pose proof (binary_round_aux_nearest S (-72)) as B. cbv zeta in B.
  rewrite HdS in B.
  change (-19 + 125 - 53) with 53 in B.
  change (-72 + (-19 + 125) - 53) with (-19) in B.
  destruct B as [_ B]; [lia | lia |]. rewrite B.
  change (-19 + 72) with 53 in HS.
  assert (Hdiv : Zpos S / 2 ^ 53 = Zpos m).
  { rewrite HS, Z.div_add_l by lia. rewrite Z.div_small by lia. lia. }
  assert (Hmod : Zpos S mod 2 ^ 53 = 4722366482869645).
  { rewrite HS, Z.add_comm, Z.mod_add by lia. apply Z.mod_small. lia. }
  rewrite round_half_even_high by lia. rewrite Hdiv.
  destruct (Z.eqb_spec (Zpos m + 1) (2 ^ 53)); [lia |].
  change (-19 <=? 971) with true. cbv iota. reflexivity.
Qed.

Lemma add_eps_spec_34 (mH : positive) (H k : Z) :
  1 <= k <= 34 -> 2 ^ (k - 1) <= H < 2 ^ k -> Zpos mH = H * 2 ^ (53 - k) ->
  exists m,
    SFadd prec emax (S754_finite false mH (k - 53)) eps =
      S754_finite false m (k - 53) /\
    Zpos (digits2_pos m) = 53 /\
    H * 2 ^ (53 - k) + 1 <= Zpos m.
Proof.
  intros Hk HH HmH.
  destruct (Z.eq_dec k 34) as [-> | Hne].
  - change (34 - 1) with 33 in HH. change (53 - 34) with 19 in *.
    change (34 - 53) with (-19).
    assert (Hd : Zpos (digits2_pos mH) = 53) by (apply digits2_pos_unique; lia).
    exists (mH + 1)%positive. split; [apply add_eps_34; [assumption | lia] |].
    split; [apply digits2_pos_unique |]; lia.
  - apply add_eps_spec; [lia | assumption | assumption].
Qed.

(** Division of two positive floats, given by any mantissas (normalised
    or not), whose exact quotient is at most 1 - 2^-53 in the sense that
    the dividend is at most the divisor less one unit of its mantissa:
    the rounded quotient is a normal float with exponent at most -53. *)
Lemma SFdiv_below_one (mX mD : positive) (eX eD : Z) :
  let dX := Zpos (digits2_pos mX) in
  let dD := Zpos (digits2_pos mD) in
  eX <= eD -> dD <= 53 -> dX <= dD + 53 ->
  -1021 <= dX + eX - (dD + eD) ->
  Zpos mX <= (Zpos mD - 1) * 2 ^ (eD - eX) ->
  exists m e,
    SFdiv prec emax (S754_finite false mX eX) (S754_finite false mD eD) =
      S754_finite false m e /\
    Zpos (digits2_pos m) = 53 /\
    -1074 <= e <= -53.
Proof.
  intros dX dD HeXD HdD HdXD Hlow Hbound.
  pose proof (digits2_pos_bounds mX) as BX. fold dX in BX.
  pose proof (digits2_pos_bounds mD) as BD. fold dD in BD.
  assert (HdX1 : 1 <= dX) by (unfold dX; lia).
  assert (HdD1 : 1 <= dD) by (unfold dD; lia).
  set (t := dX + eX - (dD + eD)) in *.
  assert (HmD : Zpos mD < 2 ^ 53).
  { assert (2 ^ dD <= 2 ^ 53) by (apply Z.pow_le_mono_r; lia). lia. }
  set (W := 2 ^ (eD - eX)) in *.
  assert (HW : 0 < W) by (apply Z.pow_pos_nonneg; lia).
  (* the quotient is below one, so it has no integer digit *)
  assert (Ht : t <= 0).
  { assert (Hlt : 2 ^ (dX - 1) < 2 ^ (dD + (eD - eX))).
    { rewrite pow2_split by lia. fold W.
      assert (Zpos mD * W <= 2 ^ dD * W) by (apply Z.mul_le_mono_nonneg_r; lia).
      lia. }
    apply Z.pow_lt_mono_r_iff in Hlt; lia. }
  set (s := 53 + dD - dX).
  assert (Hs : 0 <= s) by (unfold s; lia).
  set (V := 2 ^ (53 - t)).
  assert (HWs : W * 2 ^ s = V).
  { unfold W, V. rewrite <- pow2_split by lia. f_equal. unfold s, t. lia. }
  assert (Hpows : 0 < 2 ^ s) by (apply Z.pow_pos_nonneg; lia).
  unfold SFdiv.
  destruct (SFdiv_core_binary prec emax (Zpos mX) eX (Zpos mD) eD)
    as [[mz ez] lz] eqn:Hcore.
  unfold SFdiv_core_binary in Hcore. cbv zeta in Hcore.
  cbn [Zdigits2] in Hcore. fold dX dD in Hcore. fold t in Hcore.
  rewrite fexp_normal in Hcore by lia.
  rewrite Z.min_l in Hcore by (unfold t; lia).
  replace (eX - eD - (t - 53)) with s in Hcore by (unfold s, t; lia).
  assert (Hm' : match s with
                | 0 => Zpos mX
                | Zpos _ => Z.shiftl (Zpos mX) s
                | Zneg _ => 0
                end = Zpos mX * 2 ^ s).
  { destruct s as [| ps | ps] eqn:Es; [cbn; lia | | lia].
    rewrite Z.shiftl_mul_pow2 by lia. reflexivity. }
  rewrite Hm' in Hcore.
  destruct (Z.div_eucl (Zpos mX * 2 ^ s) (Zpos mD)) as [q r] eqn:Hdiv.
  injection Hcore as <- <- Hlz. clear Hlz.
  assert (Hq : q = Zpos mX * 2 ^ s / Zpos mD) by (unfold Z.div; now rewrite Hdiv).
  assert (E1 : 2 ^ (dX - 1) * 2 ^ s = 2 ^ 52 * 2 ^ dD).
  { rewrite <- !pow2_split by lia. f_equal. unfold s. lia. }
  assert (E2 : 2 ^ dX * 2 ^ s = 2 ^ 54 * 2 ^ (dD - 1)).
  { rewrite <- !pow2_split by lia. f_equal. unfold s. lia. }
  assert (Hq_lo : 2 ^ 52 <= q).
  { rewrite Hq. apply Z.div_le_lower_bound; [lia |].
    assert (2 ^ (dX - 1) * 2 ^ s <= Zpos mX * 2 ^ s)
      by (apply Z.mul_le_mono_nonneg_r; lia).
    assert (Zpos mD * 2 ^ 52 <= 2 ^ dD * 2 ^ 52)
      by (apply Z.mul_le_mono_nonneg_r; lia).
    lia. }
  assert (Hq_hi : q < 2 ^ 54).
  { rewrite Hq. apply Z.div_lt_upper_bound; [lia |].
    assert (Zpos mX * 2 ^ s < 2 ^ dX * 2 ^ s)
      by (apply Z.mul_lt_mono_pos_r; lia).
    assert (2 ^ (dD - 1) * 2 ^ 54 <= Zpos mD * 2 ^ 54)
      by (apply Z.mul_le_mono_nonneg_r; lia).
    lia. }
  assert (Hkey : q * Zpos mD <= (Zpos mD - 1) * V).
  { assert (q * Zpos mD <= Zpos mX * 2 ^ s)
      by (rewrite Hq, Z.mul_comm; apply Z.mul_div_le; lia).
    assert (Zpos mX * 2 ^ s <= (Zpos mD - 1) * W * 2 ^ s)
      by (apply Z.mul_le_mono_nonneg_r; lia).
    rewrite <- HWs. lia. }
  clear Hq Hdiv r.
  destruct q as [| pq | pq]; [lia | | lia].
  cbn [xorb].
  pose proof (binary_round_aux_normal pq (t - 53) lz) as B. cbv zeta in B.
  destruct (Z.ltb_spec (Zpos pq) (2 ^ 53)) as [Hsmall | Hbig].
  - (* a 53-digit quotient *)
    assert (Hd : Zpos (digits2_pos pq) = 53) by (apply digits2_pos_unique; lia).
    rewrite Hd in B.
    replace (t - 53 + 53 - 53) with (t - 53) in B by lia.
    change (2 ^ (53 - 53)) with 1 in B. rewrite Z.div_1_r in B.
    destruct B as (m & e & Heq & Hdig & Hcase); [lia | lia | lia |].
    exists m, e. split; [exact Heq |]. split; [exact Hdig |].
    destruct Hcase as [[-> _] | [-> [_ Htop]]]; [lia |].
    destruct (Z.eq_dec t 0) as [Ht0 | Ht0]; [| lia].
    exfalso. assert (V = 2 ^ 53) as HV by (unfold V; rewrite Ht0; reflexivity).
    rewrite HV, Htop in Hkey. lia.
  - (* a 54-digit quotient *)
    assert (Hd : Zpos (digits2_pos pq) = 54) by (apply digits2_pos_unique; lia).
    rewrite Hd in B.
    replace (t - 53 + 54 - 53) with (t - 52) in B by lia.
    change (2 ^ (54 - 53)) with 2 in B.
    assert (Ht1 : t <= -1).
    { destruct (Z.eq_dec t 0) as [Ht0 | Ht0]; [| lia].
      exfalso. assert (V = 2 ^ 53) as HV by (unfold V; rewrite Ht0; reflexivity).
      rewrite HV in Hkey. nia. }
    destruct B as (m & e & Heq & Hdig & Hcase); [lia | lia | lia |].
    exists m, e. split; [exact Heq |]. split; [exact Hdig |].
    destruct Hcase as [[-> _] | [-> [_ Htop]]]; [lia |].
    destruct (Z.eq_dec t (-1)) as [Ht0 | Ht0]; [| lia].
    exfalso. assert (V = 2 ^ 54) as HV by (unfold V; rewrite Ht0; reflexivity).
    assert (2 ^ 54 - 2 <= Zpos pq).
    { pose proof (Z.mul_div_le (Zpos pq) 2). lia. }
    rewrite HV in Hkey. nia.
Qed.

(** The case of two normalised operands: an exactly converted [X] and a
    divisor whose mantissa is at least one unit above that of [H >= X]. *)
Lemma div_below_one (mX mD : positive) (X H j k : Z) :
  1 <= j <= k -> k <= 34 ->
  Zpos mX = X * 2 ^ (53 - j) -> Zpos (digits2_pos mX) = 53 ->
  Zpos (digits2_pos mD) = 53 -> H * 2 ^ (53 - k) + 1 <= Zpos mD ->
  X <= H ->
  exists m e,
    SFdiv prec emax (S754_finite false mX (j - 53)) (S754_finite false mD (k - 53)) =
      S754_finite false m e /\
    Zpos (digits2_pos m) = 53 /\
    -1074 <= e <= -53.
Proof.
  intros Hj Hk HmX HdX HdD HmD HXH.
  pose proof (SFdiv_below_one mX mD (j - 53) (k - 53)) as Hdiv. cbv zeta in Hdiv.
  rewrite HdX, HdD in Hdiv. apply Hdiv; try lia.
  replace (k - 53 - (j - 53)) with (k - j) by lia.
  set (P := 2 ^ (53 - k)) in *. set (W := 2 ^ (k - j)).
  assert (HP : 0 < P) by (apply Z.pow_pos_nonneg; lia).
  assert (HW : 0 < W) by (apply Z.pow_pos_nonneg; lia).
  assert (HPW : 2 ^ (53 - j) = P * W)
    by (unfold P, W; rewrite <- pow2_split by lia; f_equal; lia).
  rewrite HmX, HPW.
  assert (X * (P * W) <= H * (P * W)) by (apply Z.mul_le_mono_nonneg_r; lia).
  assert (H * P * W <= (Zpos mD - 1) * W) by (apply Z.mul_le_mono_nonneg_r; lia).
  lia.
Qed.

(** ** Min-max scaling of a narrow range *)

Lemma digits_le_of_lt (p : positive) (b : Z) :
  0 <= b -> Zpos p < 2 ^ b -> Zpos (digits2_pos p) <= b.
Proof.
  intros Hb Hp. pose proof (digits2_pos_bounds p) as [Blo _].
  destruct (Z.le_gt_cases (Zpos (digits2_pos p)) b) as [| Hgt]; [assumption |].
  assert (2 ^ b <= 2 ^ (Zpos (digits2_pos p) - 1)) by (apply Z.pow_le_mono_r; lia).
  lia.
Qed.

Lemma scale_expr_narrow (lo hi x : Z) :
  lo <= x <= hi -> 1 <= hi - lo < 2 ^ 34 ->
  scale_expr lo hi x = Return (scaled_value lo hi x) /\
  in_unit_interval (scaled_value lo hi x) = true /\
  (x = lo -> scaled_value lo hi x = zero_float).
Proof.
  intros Hx Hspan.
  (* the divisor *)
  destruct (hi - lo) as [| pH | pH] eqn:EH; [lia | | lia].
  pose proof (digits_le_of_lt pH 34 ltac:(lia) (proj2 Hspan)) as Hk.
  pose proof (digits2_pos_bounds pH) as BH.
  set (k := Zpos (digits2_pos pH)) in *.
  destruct (binary_normalize_small pH) as (mH & HfH & HmH & HdH); [fold k; lia |].
  fold k in HfH, HmH. fold (nearest_float (Zpos pH)) in HfH.
  destruct (add_eps_spec_34 mH (Zpos pH) k) as (mD & HD & HdD & HmD);
    [lia | assumption | assumption |].
  unfold scale_expr, scaled_value, int_add_float, int_truediv_float, float_of_int.
  rewrite EH, !HfH, !HD.
  (* the dividend *)
  destruct (x - lo) as [| pX | pX] eqn:EX; [| | lia].
  - (* the minimum *)
    cbn. repeat split; reflexivity.
  - assert (HXH : Zpos pX <= Zpos pH) by lia.
    assert (Hj : Zpos (digits2_pos pX) <= k).
    { apply digits_le_of_lt; lia. }
    pose proof (digits2_pos_bounds pX) as BX.
    set (j := Zpos (digits2_pos pX)) in *.
    assert (Hj1 : 1 <= j) by (unfold j; lia).
    destruct (binary_normalize_small pX) as (mX & HfX & HmX & HdX); [fold j; lia |].
    fold j in HfX, HmX. fold (nearest_float (Zpos pX)) in HfX. rewrite !HfX.
    destruct (div_below_one mX mD (Zpos pX) (Zpos pH) j k) as (m & e & Hq & Hdm & He);
      try assumption; try lia.
    rewrite Hq. split; [reflexivity |]. split; [| intros; lia].
    unfold in_unit_interval, valid_binary, bounded, canonical_mantissa.
    rewrite Hdm, fexp_normal by lia.
    replace (53 + e - 53) with e by lia. rewrite Z.eqb_refl.
    change (emax - prec) with 971.
    destruct (Z.leb_spec e 971) as [_ |]; [| lia].
    unfold SFleb, SFltb, zero_float, one_float. cbn [SFcompare andb].
    destruct (Z.compare_spec e (-52)); [lia | reflexivity | lia].
Qed.

Lemma fold_left_min_spec (xs : list Z) : forall x,
  let m := fold_left Z.min xs x in
  In m (x :: xs) /\ forall y, In y (x :: xs) -> m <= y.
Proof.
  induction xs as [| z zs IH]; intros x; cbn [fold_left].
  - split; [now left | intros y [<- | []]; lia].
  - destruct (IH (Z.min x z)) as [Hin Hle]. split.
    + destruct Hin as [Heq | Hin].
      * rewrite <- Heq. destruct (Z.min_spec x z) as [[_ ->] | [_ ->]];
          [now left | right; now left].
      * right. now right.
    + intros y [<- | [<- | Hy]].
      * specialize (Hle (Z.min x z) (or_introl eq_refl)). lia.
      * specialize (Hle (Z.min x z) (or_introl eq_refl)). lia.
      * apply Hle. now right.
Qed.

Lemma fold_left_max_spec (xs : list Z) : forall x,
  let m := fold_left Z.max xs x in
  In m (x :: xs) /\ forall y, In y (x :: xs) -> y <= m.
Proof.
  induction xs as [| z zs IH]; intros x; cbn [fold_left].
  - split; [now left | intros y [<- | []]; lia].
  - destruct (IH (Z.max x z)) as [Hin Hle]. split.
    + destruct Hin as [Heq | Hin].
      * rewrite <- Heq. destruct (Z.max_spec x z) as [[_ ->] | [_ ->]];
          [right; now left | now left].
      * right. now right.
    + intros y [<- | [<- | Hy]].
      * specialize (Hle (Z.max x z) (or_introl eq_refl)). lia.
      * specialize (Hle (Z.max x z) (or_introl eq_refl)). lia.
      * apply Hle. now right.
Qed.

Lemma py_min_max_spec (seq : list Z) :
  seq <> [] ->
  exists lo hi,
    py_min seq = Return lo /\ py_max seq = Return hi /\
    In lo seq /\ In hi seq /\ forall x, In x seq -> lo <= x <= hi.
Proof.
  destruct seq as [| x xs]; [congruence |]. intros _.
  destruct (fold_left_min_spec xs x) as [Hmin Hle].
  destruct (fold_left_max_spec xs x) as [Hmax Hge].
  exists (fold_left Z.min xs x), (fold_left Z.max xs x).
  repeat split; try assumption; [now apply Hle | now apply Hge].
Qed.

Lemma map_const_repeat {A B} (b : B) (l : list A) :
  map (fun _ => b) l = repeat b (List.length l).
Proof. induction l as [| x xs IH]; cbn; [reflexivity | now rewrite IH]. Qed.

Section SharedScaling.
Variable G : Type.
Variable next : meth G Z.

(** What [generate_sequence(n)] does with the raw values once [next] has
    produced them. *)
Lemma generate_sequence_with_scaled n g vs g' :
  0 < n ->
  comprehension (range_len n) next g = (Return vs, g') -> vs <> [] ->
  exists lo hi,
    py_min vs = Return lo /\ py_max vs = Return hi /\
    In lo vs /\ In hi vs /\ (forall x, In x vs -> lo <= x <= hi) /\
    (hi = lo ->
     generate_sequence_with next n true g =
       (Return (Scaled (repeat zero_float (List.length vs))), g')) /\
    (hi <> lo ->
     generate_sequence_with next n true g =
       (match map_outcome (scale_expr lo hi) vs with
        | Return ys => Return (Scaled ys)
        | Raise e => Raise e
        end, g')) /\
    (hi <> lo -> hi - lo < 2 ^ 33 ->
     generate_sequence_with next n true g =
       (Return (Scaled (map (scaled_value lo hi) vs)), g') /\
     forall x, In x vs ->
       in_unit_interval (scaled_value lo hi x) = true /\
       (x = lo -> scaled_value lo hi x = zero_float)).
Proof.
  intros Hn Hc Hne.
  destruct (py_min_max_spec vs Hne) as (lo & hi & Hmin & Hmax & Hlo & Hhi & Hbetween).
  exists lo, hi. repeat (split; [assumption |]).
  assert (Hrun : generate_sequence_with next n true g =
                 (if hi =? lo then ret (Scaled (map (fun _ => zero_float) vs))
                  else (out <- lift (map_outcome (scale_expr lo hi) vs) ;;
                        ret (Scaled out))) g').
  { unfold generate_sequence_with. destruct (Z.leb_spec n 0); [lia |].
    rewrite (bind_Return _ _ Hc). cbn [negb]. run_meth. now rewrite Hmin, Hmax. }
  split; [| split].
  - intros ->. rewrite Hrun, Z.eqb_refl, map_const_repeat. reflexivity.
  - intros Hneq. rewrite Hrun. destruct (Z.eqb_spec hi lo); [contradiction |].
    run_meth. destruct (map_outcome (scale_expr lo hi) vs); reflexivity.
  - intros Hneq Hspan.
    assert (Hall : forall x, In x vs ->
              scale_expr lo hi x = Return (scaled_value lo hi x) /\
              in_unit_interval (scaled_value lo hi x) = true /\
              (x = lo -> scaled_value lo hi x = zero_float)).
    { intros x Hx. apply scale_expr_narrow; [now apply Hbetween |].
      specialize (Hbetween hi Hhi). lia. }
    split.
    + rewrite Hrun. destruct (Z.eqb_spec hi lo); [contradiction |].
      run_meth. rewrite (map_outcome_returns (scale_expr lo hi) (scaled_value lo hi))
        by (intros x Hx; apply Hall, Hx).
      reflexivity.
    + intros x Hx. apply Hall, Hx.
Qed.

End SharedScaling.

Lemma xorshift_next_value_range g v g' :
  XORShiftRNG.next g = (Return v, g') -> 0 <= v < 2 ^ 32.
Proof.
  destruct (XORShiftFacts.shifts_ok_dec g) as [Hs | Hs].
  - rewrite (XORShiftFacts.xorshift_next_returns g Hs). intros H.
    injection H as <- _. apply land_mask32_range.
  - rewrite (XORShiftFacts.xorshift_next_raises g Hs). discriminate.
Qed.

Lemma xorshift_raw_values_range n g vs g' :
  comprehension n XORShiftRNG.next g = (Return vs, g') ->
  forall x, In x vs -> 0 <= x < 2 ^ 32.
Proof.
  revert g vs g'. induction n as [| n IH]; intros g vs g'; cbn [comprehension].
  - run_meth. intros H. injection H as <- _. intros x [].
  - unfold bind at 1. destruct (XORShiftRNG.next g) as [[v | e] g0] eqn:Hn;
      [| discriminate].
    unfold bind. destruct (comprehension n XORShiftRNG.next g0) as [[ws | e] g1] eqn:Hc;
      [| discriminate].
    run_meth. intros H. injection H as <- _. intros x [<- | Hx].
    + exact (xorshift_next_value_range _ _ _ Hn).
    + exact (IH _ _ _ Hc x Hx).
Qed.

Lemma in_unit_interval_below_one y :
  in_unit_interval y = true -> SFltb y one_float = true.
Proof.
  unfold in_unit_interval. intros H. now apply andb_true_iff in H as [_ H].
Qed.

(** ** [random] below 2^53 *)

Lemma in_unit_interval_normal (m : positive) (e : Z) :
  Zpos (digits2_pos m) = 53 -> -1074 <= e <= -53 ->
  in_unit_interval (S754_finite false m e) = true.
Proof.
  intros Hdm He.
  unfold in_unit_interval, valid_binary, bounded, canonical_mantissa.
  rewrite Hdm, fexp_normal by lia.
  replace (53 + e - 53) with e by lia. rewrite Z.eqb_refl.
  change (emax - prec) with 971.
  destruct (Z.leb_spec e 971) as [_ |]; [| lia].
  unfold SFleb, SFltb, zero_float, one_float. cbn [SFcompare andb].
  destruct (Z.compare_spec e (-52)); [lia | reflexivity | lia].
Qed.

(** [x / m] on integers [0 <= x < m < 2^53] is a float of [0, 1). *)
Lemma int_truediv_below_one (x m : Z) :
  0 <= x < m -> m < 2 ^ 53 ->
  exists y, int_truediv x m = Return y /\ in_unit_interval y = true.
Proof.
  intros Hx Hm. unfold int_truediv.
  destruct (Z.eqb_spec m 0); [lia |].
  destruct m as [| pm | pm]; [lia | | lia].
  destruct x as [| px | px]; [| | lia].
  - exists zero_float. split; reflexivity.
  - pose proof (digits_le_of_lt pm 53 ltac:(lia) Hm) as HdD.
    assert (HdX : Zpos (digits2_pos px) <= 53) by (apply digits_le_of_lt; lia).
    pose proof (SFdiv_below_one px pm 0 0) as Hdiv. cbv zeta in Hdiv.
    destruct Hdiv as (q & e & Hq & Hdq & He); try lia.
    cbn [exact_of_int]. rewrite Hq. exists (S754_finite false q e).
    split; [reflexivity | now apply in_unit_interval_normal].
Qed.

Lemma lcg_random_below_one (g : LCG.LCG) :
  0 < g.(LCG.m) < 2 ^ 53 ->
  exists y,
    LCG.random g = (Return y, advance LCG.next g) /\
    in_unit_interval y = true.
Proof.
  intros Hm. unfold LCG.random, advance.
  run_meth. rewrite !LCGFacts.lcg_next_returns by lia.
  cbv beta iota. cbn [LCG.set_state LCG.m snd].
  destruct (int_truediv_below_one (LCGSpec.recurrence g) g.(LCG.m)) as (y & Hy & Hin).
  - unfold LCGSpec.recurrence. apply Z.mod_pos_bound. lia.
  - lia.
  - exists y. rewrite Hy. split; [reflexivity | exact Hin].
Qed.

Lemma xorshift_random_below_one (g : XORShiftRNG.XORShiftRNG) :
  XORShiftSpec.shifts_ok g ->
  exists y,
    XORShiftRNG.random g = (Return y, advance XORShiftRNG.next g) /\
    in_unit_interval y = true.
Proof.
  intros Hs. unfold XORShiftRNG.random, advance.
  run_meth. rewrite !(XORShiftFacts.xorshift_next_returns g Hs).
  cbv beta iota. cbn [snd].
  destruct (int_truediv_below_one (XORShiftSpec.scramble g) (2 ^ 32)) as (y & Hy & Hin).
  - apply land_mask32_range.
  - lia.
  - exists y. rewrite Hy. split; [reflexivity | exact Hin].
Qed.

(** ** Scaling a wide range *)

Lemma in_unit_interval_closed y :
  in_unit_interval y = true -> in_closed_unit_interval y = true.
Proof.
  unfold in_unit_interval, in_closed_unit_interval, SFltb, SFleb.
  intros H. apply andb_true_iff in H as [H1 H2]. rewrite H1. cbn [andb].
  destruct (SFcompare y one_float) as [[| |] |]; (reflexivity || discriminate).
Qed.

Lemma in_closed_unit_interval_one : in_closed_unit_interval one_float = true.
Proof. reflexivity. Qed.

Lemma in_closed_unit_interval_zero : in_closed_unit_interval zero_float = true.
Proof. reflexivity. Qed.

(** A float divided by itself is 1.0. *)
Lemma SFdiv_self (m : positive) (e : Z) :
  Zpos (digits2_pos m) = 53 ->
  SFdiv prec emax (S754_finite false m e) (S754_finite false m e) = one_float.
Proof.
  intros Hd. unfold SFdiv, SFdiv_core_binary. cbn [Zdigits2]. rewrite Hd.
  replace (53 + e - (53 + e)) with 0 by lia.
  replace (e - e) with 0 by lia.
  change (Z.min (fexp prec emax 0) 0) with (-53).
  change (0 - -53) with 53. cbv iota.
  rewrite Z.shiftl_mul_pow2 by lia.
  destruct (Z.div_eucl (Zpos m * 2 ^ 53) (Zpos m)) as [q r] eqn:Hdiv.
  assert (Hq : q = Zpos m * 2 ^ 53 / Zpos m) by (unfold Z.div; now rewrite Hdiv).
  assert (Hr : r = (Zpos m * 2 ^ 53) mod Zpos m) by (unfold Z.modulo; now rewrite Hdiv).
  rewrite Z.mul_comm, Z.div_mul in Hq by lia.
  rewrite Z.mul_comm, Z.mod_mul in Hr by lia.
  subst q r. unfold new_location, new_location_even, new_location_odd.
  destruct (Z.even (Zpos m)); reflexivity.
Qed.

(** Rounding at the smallest exponent: nothing is shifted out, and the
    result is a valid float far below 1.0. *)
Lemma binary_round_aux_subnormal (mx : positive) (lx : location) :
  Zpos mx < 2 ^ 53 ->
  in_unit_interval (binary_round_aux prec emax false (Zpos mx) (-1074) lx) = true.
Proof.
  intros Hmx.
  assert (Hd : Zpos (digits2_pos mx) <= 53) by (apply digits_le_of_lt; lia).
  unfold binary_round_aux, shr_fexp at 1. cbn [Zdigits2].
  assert (Hf : fexp prec emax (Zpos (digits2_pos mx) + -1074) = -1074)
    by (unfold fexp, emin, prec, emax; lia).
  rewrite Hf. change (-1074 - -1074) with 0. cbn [shr].
  rewrite shr_m_of_loc.
  pose proof (round_nearest_even_bounds (Zpos mx)
                (loc_of_shr_record (shr_record_of_loc (Zpos mx) lx))) as Hrnd.
  set (m2 := round_nearest_even _ _) in *.
  destruct (Z.eq_dec m2 (2 ^ 53)) as [Htop | Htop].
  - rewrite Htop. reflexivity.
  - assert (Hm2 : 0 < m2 < 2 ^ 53) by lia.
    destruct m2 as [| pm | pm] eqn:Em2; [lia | | lia].
    assert (Hd2 : Zpos (digits2_pos pm) <= 53) by (apply digits_le_of_lt; lia).
    assert (Hf2 : fexp prec emax (Zpos (digits2_pos pm) + -1074) = -1074)
      by (unfold fexp, emin, prec, emax; lia).
    unfold shr_fexp. cbn [Zdigits2]. rewrite Hf2.
    change (-1074 - -1074) with 0. cbn [shr shr_record_of_loc shr_m].
    change (-1074 <=? emax - prec) with true. cbv iota.
    unfold in_unit_interval, valid_binary, bounded, canonical_mantissa.
    rewrite Hf2. reflexivity.
Qed.

(** The quotient of two positive normal floats, the first smaller than
    the second, is a float of [0, 1): it never rounds up to 1.0. *)
Lemma SFdiv_lt_one (mX mD : positive) (eX eD : Z) :
  Zpos (digits2_pos mX) = 53 -> Zpos (digits2_pos mD) = 53 ->
  -52 <= eX -> eD <= 971 ->
  eX < eD \/ (eX = eD /\ Zpos mX < Zpos mD) ->
  in_unit_interval
    (SFdiv prec emax (S754_finite false mX eX) (S754_finite false mD eD)) = true.
Proof.
  intros HdX HdD HeX HeD Hlt.
  pose proof (digits2_pos_bounds mX) as BX. rewrite HdX in BX.
  pose proof (digits2_pos_bounds mD) as BD. rewrite HdD in BD.
  change (2 ^ (53 - 1)) with (2 ^ 52) in BX, BD.
  assert (Hnormal : -1021 <= eX - eD ->
                    Zpos mX <= (Zpos mD - 1) * 2 ^ (eD - eX) ->
                    in_unit_interval
                      (SFdiv prec emax (S754_finite false mX eX)
                         (S754_finite false mD eD)) = true).
  { intros Ht Hb.
    pose proof (SFdiv_below_one mX mD eX eD) as Hdiv. cbv zeta in Hdiv.
    rewrite HdX, HdD in Hdiv.
    destruct Hdiv as (m & e & -> & Hdm & He); try lia.
    now apply in_unit_interval_normal. }
  destruct (Z.le_gt_cases (-1021) (eX - eD)) as [Ht | Ht].
  - destruct (Z.le_gt_cases (Zpos mX) ((Zpos mD - 1) * 2 ^ (eD - eX))) as [Hb | Hb];
      [now apply Hnormal |].
    (* the one case left: the largest mantissa over the smallest one *)
    destruct Hlt as [He | [He Hm]].
    2:{ rewrite He, Z.sub_diag in Hb. change (2 ^ 0) with 1 in Hb. lia. }
    assert (Hone : eD - eX = 1).
    { destruct (Z.eq_dec (eD - eX) 1) as [| Hne]; [assumption |]. exfalso.
      assert (2 ^ 2 <= 2 ^ (eD - eX)) by (apply Z.pow_le_mono_r; lia).
      nia. }
    rewrite Hone in Hb. change (2 ^ 1) with 2 in Hb.
    assert (EX : mX = 9007199254740991%positive) by lia.
    assert (ED : mD = 4503599627370496%positive) by lia.
    subst mX mD. replace eD with (eX + 1) by lia.
    unfold SFdiv, SFdiv_core_binary. cbn [Zdigits2].
    change (Zpos (digits2_pos 9007199254740991)) with 53.
    change (Zpos (digits2_pos 4503599627370496)) with 53.
    replace (53 + eX - (53 + (eX + 1))) with (-1) by lia.
    replace (eX - (eX + 1)) with (-1) by lia.
    vm_compute. reflexivity.
  - (* a quotient below the normal range *)
    unfold SFdiv, SFdiv_core_binary. cbn [Zdigits2]. rewrite HdX, HdD.
    replace (53 + eX - (53 + eD)) with (eX - eD) by lia.
    assert (Hf : fexp prec emax (eX - eD) = -1074)
      by (unfold fexp, emin, prec, emax; lia).
    rewrite Hf, Z.min_l by lia.
    set (s := eX - eD - -1074).
    assert (Hs : 51 <= s <= 52) by (unfold s; lia).
    assert (Hm' : match s with
                  | 0 => Zpos mX
                  | Zpos _ => Z.shiftl (Zpos mX) s
                  | Zneg _ => 0
                  end = Zpos mX * 2 ^ s).
    { destruct s as [| ps | ps] eqn:Es; [lia | | lia].
      rewrite Z.shiftl_mul_pow2 by lia. reflexivity. }
    rewrite Hm'.
    destruct (Z.div_eucl (Zpos mX * 2 ^ s) (Zpos mD)) as [q r] eqn:Hdiv.
    assert (Hq : q = Zpos mX * 2 ^ s / Zpos mD) by (unfold Z.div; now rewrite Hdiv).
    assert (Hs1 : 2 ^ 1 <= 2 ^ s) by (apply Z.pow_le_mono_r; lia).
    assert (Hs2 : 2 ^ s <= 2 ^ 52) by (apply Z.pow_le_mono_r; lia).
    change (2 ^ 1) with 2 in Hs1.
    assert (Hq_lo : 1 <= q).
    { rewrite Hq. apply Z.div_le_lower_bound; [lia |]. nia. }
    assert (Hq_hi : q < 2 ^ 53).
    { rewrite Hq. apply Z.div_lt_upper_bound; [lia |].
      assert (Zpos mX * 2 ^ s <= Zpos mX * 2 ^ 52)
        by (apply Z.mul_le_mono_nonneg_l; lia).
      assert (2 ^ 52 * 2 ^ 53 <= Zpos mD * 2 ^ 53)
        by (apply Z.mul_le_mono_nonneg_r; lia).
      nia. }
    destruct q as [| pq | pq]; [lia | | lia].
    cbn [xorb]. now apply binary_round_aux_subnormal.
Qed.

Lemma scale_expr_wide (lo hi x : Z) :
  lo <= x <= hi -> 2 ^ 34 <= hi - lo < float_limit ->
  scale_expr lo hi x = Return (scaled_value lo hi x) /\
  in_closed_unit_interval (scaled_value lo hi x) = true /\
  (x = lo -> scaled_value lo hi x = zero_float) /\
  (x = hi -> scaled_value lo hi x = one_float).
Proof.
  intros Hx Hspan.
  (* the divisor *)
  destruct (nearest_float_finite (hi - lo)) as (mH & eH & HfH & HmH & HeH & HdH & RH);
    [lia |].
  assert (HeH18 : -18 <= eH).
  { pose proof (nearest_parts_mono (2 ^ 34) (hi - lo) ltac:(lia)) as Hmono.
    assert (E : snd (nearest_parts (2 ^ 34)) = -18) by (vm_compute; reflexivity).
    rewrite E in Hmono. lia. }
  unfold scale_expr, scaled_value, int_add_float, int_truediv_float, float_of_int.
  rewrite !HfH, !add_eps_wide by (assumption || lia).
  (* the dividend *)
  destruct (Z.eq_dec x lo) as [-> | Hne].
  - rewrite Z.sub_diag. cbn. repeat split; try reflexivity. intros <-. lia.
  - destruct (nearest_float_finite (x - lo)) as (mX & eX & HfX & HmX & HeX & HdX & RX);
      [lia |].
    rewrite !HfX. split; [reflexivity |].
    destruct (Z.eq_dec x hi) as [-> | Hne'].
    + rewrite HfH in HfX. injection HfX as <- <-.
      rewrite SFdiv_self by assumption.
      repeat split; try reflexivity. intros ->. contradiction.
    + split; [| split; intros; lia].
      pose proof (nearest_parts_mono (x - lo) (hi - lo) ltac:(lia)) as Hmono.
      rewrite <- HeX, <- HeH, <- HmX, <- HmH in Hmono.
      destruct (Z.eq_dec (Zpos mX) (Zpos mH)) as [Em | Em];
        [destruct (Z.eq_dec eX eH) as [Ee | Ee] |].
      * injection Em as ->. rewrite Ee. now rewrite SFdiv_self.
      * apply in_unit_interval_closed, SFdiv_lt_one; try assumption; lia.
      * apply in_unit_interval_closed, SFdiv_lt_one; try assumption; lia.
Qed.

Lemma scale_expr_overflow (lo hi x : Z) :
  float_limit <= hi - lo ->
  scale_expr lo hi x = Raise (OverflowError "int too large to convert to float").
Proof.
  intros H. unfold scale_expr, int_add_float, float_of_int.
  now rewrite nearest_float_overflow.
Qed.

(** The comprehension over the raw values, by the width of their span:
    below 2^34, from there to the first integer [float] rejects, and
    beyond. *)
Lemma map_scale_expr_by_span (lo hi : Z) (vs : list Z) :
  vs <> [] -> (forall x, In x vs -> lo <= x <= hi) -> lo < hi ->
  (hi - lo < 2 ^ 34 ->
   map_outcome (scale_expr lo hi) vs = Return (map (scaled_value lo hi) vs) /\
   forall x, In x vs ->
     in_unit_interval (scaled_value lo hi x) = true /\
     (x = lo -> scaled_value lo hi x = zero_float)) /\
  (2 ^ 34 <= hi - lo < float_limit ->
   map_outcome (scale_expr lo hi) vs = Return (map (scaled_value lo hi) vs) /\
   forall x, In x vs ->
     in_closed_unit_interval (scaled_value lo hi x) = true /\
     (x = lo -> scaled_value lo hi x = zero_float) /\
     (x = hi -> scaled_value lo hi x = one_float)) /\
  (float_limit <= hi - lo ->
   map_outcome (scale_expr lo hi) vs =
     Raise (OverflowError "int too large to convert to float")).
Proof.
  intros Hne Hbetween Hlt. split; [| split].
  - intros Hspan.
    assert (Hall : forall x, In x vs ->
              scale_expr lo hi x = Return (scaled_value lo hi x) /\
              in_unit_interval (scaled_value lo hi x) = true /\
              (x = lo -> scaled_value lo hi x = zero_float)).
    { intros x Hx. apply scale_expr_narrow; [now apply Hbetween | lia]. }
    split.
    + apply map_outcome_returns. intros x Hx. apply Hall, Hx.
    + intros x Hx. apply Hall, Hx.
  - intros Hspan.
    assert (Hall : forall x, In x vs ->
              scale_expr lo hi x = Return (scaled_value lo hi x) /\
              in_closed_unit_interval (scaled_value lo hi x) = true /\
              (x = lo -> scaled_value lo hi x = zero_float) /\
              (x = hi -> scaled_value lo hi x = one_float)).
    { intros x Hx. apply scale_expr_wide; [now apply Hbetween | lia]. }
    split.
    + apply map_outcome_returns. intros x Hx. apply Hall, Hx.
    + intros x Hx. apply Hall, Hx.
  - intros Hspan. destruct vs as [| v vs']; [congruence |].
    cbn [map_outcome]. now rewrite scale_expr_overflow.
Qed.

(** ** [random] at a large modulus *)

(** C4. [LCG.random] is documented to return a float in [0, 1); with the
    modulus 2^60 and the state one below it, [next() / m] is the float
    nearest to 1 - 2^-60, which is 1.0. *)
Theorem C4_lcg_random_reaches_one :
  LCG.__init__ 1 1 (2 ^ 60 - 2) (2 ^ 60) =
    Return (LCG.mk 1 1 (2 ^ 60 - 2) (2 ^ 60)) /\
  fst (LCG.next (LCG.mk 1 1 (2 ^ 60 - 2) (2 ^ 60))) = Return (2 ^ 60 - 1) /\
  fst (LCG.random (LCG.mk 1 1 (2 ^ 60 - 2) (2 ^ 60))) = Return one_float /\
  SFltb one_float one_float = false /\
  in_unit_interval one_float = false.
Proof. repeat split; vm_compute; reflexivity. Qed.

(** ** [generate_sequence] with scaling *)

(** C5 as stated fails: with a span of 2^40 between the raw values,
    hi - lo + 1e-6 rounds to hi - lo and the largest raw value is scaled
    to exactly 1.0, which is not below 1.0. *)
Lemma C5_maximum_reaches_one :
  LCG.__init__ 1 1 (2 ^ 40) (2 ^ 60) = Return (LCG.mk 1 1 (2 ^ 40) (2 ^ 60)) /\
  fst (LCG.generate_sequence 2 false (LCG.mk 1 1 (2 ^ 40) (2 ^ 60))) =
    Return (Raw [2 ^ 40 + 1; 2 ^ 41 + 1]) /\
  fst (LCG.generate_sequence 2 true (LCG.mk 1 1 (2 ^ 40) (2 ^ 60))) =
    Return (Scaled [zero_float; one_float]) /\
  SFltb one_float one_float = false /\
  in_unit_interval one_float = false.
Proof. repeat split; vm_compute; reflexivity. Qed.

(** The same happens with the usual 64-bit parameters: every span is far
    above 2^34 there. *)
Example scaled_maximum_64_bit :
  fst (LCG.generate_sequence 3 true
         (LCG.mk 1 6364136223846793005 1442695040888963407 (2 ^ 64))) =
    Return (Scaled [zero_float; S754_finite false 6896773192222678 (-54); one_float]).
Proof. vm_compute. reflexivity. Qed.

(** Both thresholds are sharp: a span of 2^34 - 1 keeps the maximum
    below 1.0 and a span of 2^34 does not; the largest integer [float]
    accepts is one below [float_limit]. *)
Example scaled_maximum_at_the_threshold :
  SFltb (scaled_value 0 (2 ^ 34 - 1) (2 ^ 34 - 1)) one_float = true /\
  scaled_value 0 (2 ^ 34) (2 ^ 34) = one_float.
Proof. split; vm_compute; reflexivity. Qed.

Example float_limit_is_sharp :
  float_of_int (float_limit - 1) =
    Return (S754_finite false 9007199254740991 971) /\
  float_of_int float_limit =
    Raise (OverflowError "int too large to convert to float").
Proof. split; vm_compute; reflexivity. Qed.

(** C5 (amended). For n > 0, [generate_sequence(n)] takes lo = min and
    hi = max of the n raw values (those [scale=False] returns); if
    hi == lo it returns n copies of 0.0, otherwise it evaluates
    (x - lo) / (hi - lo + 1e-6) in binary64 for each raw value in order.
    Whenever hi - lo can be converted to a float (it is below
    2^1024 - 2^970) the call returns, every scaled value lies in [0, 1]
    and the minimum maps to exactly 0.0.  The strict bound holds exactly
    for the spans below 2^34 -- always so for XORShift32: there every
    value lies in [0, 1) and the maximum maps to less than 1.0, while
    from 2^34 on the maximum maps to exactly 1.0.  A span that [float]
    rejects makes the call raise OverflowError, after the n draws. *)
Theorem C5_scaled_sequence_by_span
  (lcg : LCG.LCG) (xs : XORShiftRNG.XORShiftRNG) (n : Z)
  (Hn : 0 < n)
  (Hm : lcg.(LCG.m) <> 0)
  (Hshift : XORShiftSpec.shifts_ok xs) :
  (exists vs lcg' lo hi,
      LCG.generate_sequence n false lcg = (Return (Raw vs), lcg') /\
      Z.of_nat (List.length vs) = n /\
      py_min vs = Return lo /\ py_max vs = Return hi /\
      (hi = lo ->
       LCG.generate_sequence n true lcg =
         (Return (Scaled (repeat zero_float (Z.to_nat n))), lcg')) /\
      (hi <> lo ->
       LCG.generate_sequence n true lcg =
         (match map_outcome (scale_expr lo hi) vs with
          | Return ys => Return (Scaled ys)
          | Raise e => Raise e
          end, lcg')) /\
      (hi <> lo -> hi - lo < float_limit ->
       LCG.generate_sequence n true lcg =
         (Return (Scaled (map (scaled_value lo hi) vs)), lcg') /\
       (forall x, In x vs ->
          in_closed_unit_interval (scaled_value lo hi x) = true) /\
       scaled_value lo hi lo = zero_float) /\
      (hi <> lo -> hi - lo < 2 ^ 34 ->
       (forall x, In x vs -> in_unit_interval (scaled_value lo hi x) = true) /\
       SFltb (scaled_value lo hi hi) one_float = true) /\
      (2 ^ 34 <= hi - lo < float_limit ->
       scaled_value lo hi hi = one_float) /\
      (float_limit <= hi - lo ->
       LCG.generate_sequence n true lcg =
         (Raise (OverflowError "int too large to convert to float"), lcg'))) /\
  (exists vs xs' lo hi,
      XORShiftRNG.generate_sequence n false xs = (Return (Raw vs), xs') /\
      Z.of_nat (List.length vs) = n /\
      py_min vs = Return lo /\ py_max vs = Return hi /\
      (hi = lo ->
       XORShiftRNG.generate_sequence n true xs =
         (Return (Scaled (repeat zero_float (Z.to_nat n))), xs')) /\
      (hi <> lo ->
       XORShiftRNG.generate_sequence n true xs =
         (Return (Scaled (map (scaled_value lo hi) vs)), xs') /\
       (forall x, In x vs -> in_unit_interval (scaled_value lo hi x) = true) /\
       scaled_value lo hi lo = zero_float /\
       SFltb (scaled_value lo hi hi) one_float = true)).
Proof.
  split.
  - destruct (comprehension_returns _ _ _ (Z.to_nat n) lcg LCG_always_returns Hm)
      as (vs & Hc & Hlen & _ & _).
    assert (Hne : vs <> []) by (destruct vs; [cbn in Hlen; lia | discriminate]).
    destruct (generate_sequence_with_scaled _ LCG.next n lcg vs _ Hn Hc Hne)
      as (lo & hi & Hmin & Hmax & Hlo & Hhi & Hbetween & Heq & Hgen & _).
    assert (Hle : lo <= hi) by (apply (Hbetween hi Hhi)).
    assert (Hspan : lo < hi ->
              (hi - lo < 2 ^ 34 ->
               map_outcome (scale_expr lo hi) vs =
                 Return (map (scaled_value lo hi) vs) /\
               forall x, In x vs ->
                 in_unit_interval (scaled_value lo hi x) = true /\
                 (x = lo -> scaled_value lo hi x = zero_float)) /\
              (2 ^ 34 <= hi - lo < float_limit ->
               map_outcome (scale_expr lo hi) vs =
                 Return (map (scaled_value lo hi) vs) /\
               forall x, In x vs ->
                 in_closed_unit_interval (scaled_value lo hi x) = true /\
                 (x = lo -> scaled_value lo hi x = zero_float) /\
                 (x = hi -> scaled_value lo hi x = one_float)) /\
              (float_limit <= hi - lo ->
               map_outcome (scale_expr lo hi) vs =
                 Raise (OverflowError "int too large to convert to float")))
      by (intros Hlt; exact (map_scale_expr_by_span lo hi vs Hne Hbetween Hlt)).
    assert (Hlimit : 2 ^ 34 < float_limit) by (vm_compute; reflexivity).
    exists vs, (after_calls LCG.next (Z.to_nat n) lcg), lo, hi.
    rewrite (LCG_generate_sequence_shared n false).
    rewrite !(LCG_generate_sequence_shared n true).
    split; [exact (generate_sequence_with_raw _ _ _ _ _ _ Hn Hc) |].
    split; [lia |]. split; [exact Hmin |]. split; [exact Hmax |].
    split; [| split; [exact Hgen |]].
    { intros E. rewrite (Heq E), Hlen. reflexivity. }
    split; [| split; [| split]].
    + intros Hneq Hfin. rewrite (Hgen Hneq).
      destruct (Hspan ltac:(lia)) as (Hnarrow & Hwide & _).
      destruct (Z.lt_ge_cases (hi - lo) (2 ^ 34)) as [Hs | Hs].
      * destruct (Hnarrow Hs) as [-> Hall]. split; [reflexivity |]. split.
        -- intros x Hx. apply in_unit_interval_closed, (Hall x Hx).
        -- apply (Hall lo Hlo). reflexivity.
      * destruct (Hwide (conj Hs Hfin)) as [-> Hall]. split; [reflexivity |]. split.
        -- intros x Hx. apply (Hall x Hx).
        -- apply (Hall lo Hlo). reflexivity.
    + intros Hneq Hs. destruct (Hspan ltac:(lia)) as (Hnarrow & _ & _).
      destruct (Hnarrow Hs) as [_ Hall]. split.
      * intros x Hx. apply (Hall x Hx).
      * apply in_unit_interval_below_one, (Hall hi Hhi).
    + intros Hs. destruct (Hspan ltac:(lia)) as (_ & Hwide & _).
      destruct (Hwide Hs) as [_ Hall]. apply (Hall hi Hhi). reflexivity.
    + intros Hs. rewrite (Hgen ltac:(lia)).
      destruct (Hspan ltac:(lia)) as (_ & _ & Hover).
      rewrite (Hover Hs). reflexivity.
  - destruct (comprehension_returns _ _ _ (Z.to_nat n) xs
                XORShiftRNG_always_returns Hshift)
      as (vs & Hc & Hlen & _ & _).
    assert (Hne : vs <> []) by (destruct vs; [cbn in Hlen; lia | discriminate]).
    destruct (generate_sequence_with_scaled _ XORShiftRNG.next n xs vs _ Hn Hc Hne)
      as (lo & hi & Hmin & Hmax & Hlo & Hhi & _ & Heq & _ & Hnarrow).
    pose proof (xorshift_raw_values_range _ _ _ _ Hc lo Hlo) as Rlo.
    pose proof (xorshift_raw_values_range _ _ _ _ Hc hi Hhi) as Rhi.
    exists vs, (after_calls XORShiftRNG.next (Z.to_nat n) xs), lo, hi.
    rewrite (XORShiftRNG_generate_sequence_shared n false).
    rewrite !(XORShiftRNG_generate_sequence_shared n true).
    split; [exact (generate_sequence_with_raw _ _ _ _ _ _ Hn Hc) |].
    split; [lia |]. split; [exact Hmin |]. split; [exact Hmax |].
    split.
    + intros E. rewrite (Heq E), Hlen. reflexivity.
    + intros Hneq. destruct (Hnarrow Hneq) as [Hrun Hall]; [lia |].
      split; [exact Hrun |]. split; [| split].
      * intros x Hx. apply (Hall x Hx).
      * apply (Hall lo Hlo). reflexivity.
      * apply in_unit_interval_below_one, (Hall hi Hhi).
Qed.

Lemma C5_scaled_sequence_by_span_witness :
  0 < 2 /\
  (LCG.mk 1 1 (2 ^ 40) (2 ^ 60)).(LCG.m) <> 0 /\
  XORShiftSpec.shifts_ok (XORShiftRNG.mk 123456 13 17 5) /\
  (exists vs lcg' lo hi,
      LCG.generate_sequence 2 false (LCG.mk 1 1 (2 ^ 40) (2 ^ 60)) =
        (Return (Raw vs), lcg') /\
      py_min vs = Return lo /\ py_max vs = Return hi /\
      (hi <> lo -> hi - lo < float_limit ->
       LCG.generate_sequence 2 true (LCG.mk 1 1 (2 ^ 40) (2 ^ 60)) =
         (Return (Scaled (map (scaled_value lo hi) vs)), lcg') /\
       (forall x, In x vs ->
          in_closed_unit_interval (scaled_value lo hi x) = true) /\
       scaled_value lo hi lo = zero_float)) /\
  (exists vs xs' lo hi,
      XORShiftRNG.generate_sequence 2 false (XORShiftRNG.mk 123456 13 17 5) =
        (Return (Raw vs), xs') /\
      py_min vs = Return lo /\ py_max vs = Return hi /\
      (hi <> lo ->
       XORShiftRNG.generate_sequence 2 true (XORShiftRNG.mk 123456 13 17 5) =
         (Return (Scaled (map (scaled_value lo hi) vs)), xs') /\
       SFltb (scaled_value lo hi hi) one_float = true)).
Proof.
  assert (H1 : 0 < 2) by lia.
  assert (H2 : (LCG.mk 1 1 (2 ^ 40) (2 ^ 60)).(LCG.m) <> 0)
    by (vm_compute; discriminate).
  assert (H3 : XORShiftSpec.shifts_ok (XORShiftRNG.mk 123456 13 17 5))
    by (unfold XORShiftSpec.shifts_ok; cbn; lia).
  split; [exact H1 |]. split; [exact H2 |]. split; [exact H3 |].
  destruct (C5_scaled_sequence_by_span _ _ 2 H1 H2 H3) as [HL HX]. split.
  - destruct HL as (vs & lcg' & lo & hi & Hraw & _ & Hmin & Hmax & _ & _ & Hfin & _).
    exists vs, lcg', lo, hi.
    split; [exact Hraw |]. split; [exact Hmin |]. split; [exact Hmax | exact Hfin].
  - destruct HX as (vs & xs' & lo & hi & Hraw & _ & Hmin & Hmax & _ & Hscaled).
    exists vs, xs', lo, hi.
    split; [exact Hraw |]. split; [exact Hmin |]. split; [exact Hmax |].
    intros Hneq. destruct (Hscaled Hneq) as (Hrun & _ & _ & Hlt).
    split; [exact Hrun | exact Hlt].
Defined.

Example scaled_sequence_xorshift :
  fst (XORShiftRNG.generate_sequence 4 true (XORShiftRNG.mk 123456 13 17 5)) =
    Return (Scaled [S754_finite false 9007199254740989 (-53);
                    zero_float;
                    S754_finite false 5087950595166119 (-56);
                    S754_finite false 8694872396250887 (-53)]).
Proof. vm_compute. reflexivity. Qed.

(** * Further properties of the two classes *)

(** ** The xor-shift steps as linear maps on 32-bit words *)

Lemma lxor_swap4 (a b c d : Z) :
  Z.lxor (Z.lxor a b) (Z.lxor c d) = Z.lxor (Z.lxor a c) (Z.lxor b d).
Proof.
  apply Z.bits_inj'. intros n _. rewrite !Z.lxor_spec.
  destruct (Z.testbit a n), (Z.testbit b n), (Z.testbit c n), (Z.testbit d n);
    reflexivity.
Qed.

(** A word equal to a left shift of itself by at least one bit, masked
    or not, has no bit set. *)
Lemma shiftl_fixed_is_zero (x n mask : Z) :
  1 <= n -> x = Z.land (Z.shiftl x n) mask -> x = 0.
Proof.
  intros Hn Hx. apply Z.bits_inj'. intros i Hi. rewrite Z.bits_0.
  revert i Hi. apply (Z_lt_induction (fun i => Z.testbit x i = false)).
  intros i IH.
  destruct (Z.ltb_spec i 0) as [Hi | Hi]; [now apply Z.testbit_neg_r |].
  rewrite Hx, Z.land_spec, Z.shiftl_spec by assumption.
  destruct (Z.ltb_spec (i - n) 0) as [Hneg | Hpos].
  - rewrite Z.testbit_neg_r by assumption. reflexivity.
  - rewrite IH by lia. reflexivity.
Qed.

Lemma shiftr_fixed_is_zero (x n : Z) :
  1 <= n -> 0 <= x -> x = Z.shiftr x n -> x = 0.
Proof.
  intros Hn Hx Heq. rewrite Z.shiftr_div_pow2 in Heq by lia.
  assert (Hpow : 2 <= 2 ^ n).
  { change 2 with (2 ^ 1) at 1. apply Z.pow_le_mono_r; lia. }
  destruct (Z.eq_dec x 0) as [| Hnz]; [assumption | exfalso].
  assert (x / 2 ^ n < x) by (apply Z.div_lt; lia).
  lia.
Qed.

Module XORShiftAlgebra.
Import XORShiftRNG XORShiftSpec XORShiftWords.

Lemma step1_lxor self x y :
  step1 self (Z.lxor x y) = Z.lxor (step1 self x) (step1 self y).
Proof.
  unfold step1. rewrite Z.shiftl_lxor, land_lxor_distr. apply lxor_swap4.
Qed.

Lemma step2_lxor self x y :
  step2 self (Z.lxor x y) = Z.lxor (step2 self x) (step2 self y).
Proof.
  unfold step2. rewrite Z.shiftr_lxor. apply lxor_swap4.
Qed.

Lemma step3_lxor self x y :
  step3 self (Z.lxor x y) = Z.lxor (step3 self x) (step3 self y).
Proof.
  unfold step3. rewrite Z.shiftl_lxor, land_lxor_distr. apply lxor_swap4.
Qed.

Lemma step1_kernel self x : 1 <= self.(q) -> step1 self x = 0 -> x = 0.
Proof.
  intros Hq H. unfold step1 in H. apply Z.lxor_eq in H.
  exact (shiftl_fixed_is_zero x self.(q) mask32 Hq H).
Qed.

Lemma step2_kernel self x : 1 <= self.(r) -> 0 <= x -> step2 self x = 0 -> x = 0.
Proof.
  intros Hr Hx H. unfold step2 in H. apply Z.lxor_eq in H.
  exact (shiftr_fixed_is_zero x self.(r) Hr Hx H).
Qed.

Lemma step3_kernel self x : 1 <= self.(s) -> step3 self x = 0 -> x = 0.
Proof.
  intros Hs H. unfold step3 in H. apply Z.lxor_eq in H.
  exact (shiftl_fixed_is_zero x self.(s) mask32 Hs H).
Qed.

Lemma steps_range self x :
  0 <= self.(r) -> 0 <= x < 2 ^ 32 -> 0 <= steps self x < 2 ^ 32.
Proof.
  intros Hr Hx. unfold steps.
  apply XORShiftFacts.step3_range, XORShiftFacts.step2_range; [assumption |].
  now apply XORShiftFacts.step1_range.
Qed.

Lemma steps_lxor self x y :
  steps self (Z.lxor x y) = Z.lxor (steps self x) (steps self y).
Proof. unfold steps. now rewrite step1_lxor, step2_lxor, step3_lxor. Qed.

Lemma steps_kernel self x :
  1 <= self.(q) -> 1 <= self.(r) -> 1 <= self.(s) ->
  0 <= x < 2 ^ 32 -> steps self x = 0 -> x = 0.
Proof.
  intros Hq Hr Hs Hx H. unfold steps in H.
  apply step3_kernel in H; [| assumption].
  apply step2_kernel in H; [| assumption |].
  - now apply step1_kernel in H.
  - apply (XORShiftFacts.step1_range self x Hx).
Qed.

Lemma steps_injective self x y :
  1 <= self.(q) -> 1 <= self.(r) -> 1 <= self.(s) ->
  0 <= x < 2 ^ 32 -> 0 <= y < 2 ^ 32 ->
  steps self x = steps self y -> x = y.
Proof.
  intros Hq Hr Hs Hx Hy H. apply Z.lxor_eq.
  apply (steps_kernel self); try assumption.
  - now apply XORShiftFacts.lxor_range.
  - rewrite steps_lxor, H. apply Z.lxor_nilpotent.
Qed.

Lemma scramble_steps self :
  0 <= self.(r) -> 0 <= self.(state) < 2 ^ 32 ->
  scramble self = steps self self.(state).
Proof.
  intros Hr Hx. unfold scramble. fold (steps self self.(state)).
  apply land_mask32_small. now apply steps_range.
Qed.

End XORShiftAlgebra.

(** ** XORShift32: what the shift amounts do *)

Lemma xorshift_steps_params (g1 g2 : XORShiftRNG.XORShiftRNG) (x : Z) :
  g2.(XORShiftRNG.q) = g1.(XORShiftRNG.q) ->
  g2.(XORShiftRNG.r) = g1.(XORShiftRNG.r) ->
  g2.(XORShiftRNG.s) = g1.(XORShiftRNG.s) ->
  XORShiftWords.steps g2 x = XORShiftWords.steps g1 x.
Proof.
  intros Hq Hr Hs.
  unfold XORShiftWords.steps, XORShiftSpec.step3, XORShiftSpec.step2,
    XORShiftSpec.step1.
  now rewrite Hq, Hr, Hs.
Qed.

Lemma xorshift_next_steps (g : XORShiftRNG.XORShiftRNG) :
  XORShiftSpec.shifts_ok g -> XORShiftSpec.inv g ->
  XORShiftRNG.next g =
    (Return (XORShiftWords.steps g g.(XORShiftRNG.state)),
     XORShiftRNG.set_state g (XORShiftWords.steps g g.(XORShiftRNG.state))).
Proof.
  intros Hs Hinv. rewrite (XORShiftFacts.xorshift_next_returns g Hs).
  rewrite XORShiftAlgebra.scramble_steps; [reflexivity | apply Hs | exact Hinv].
Qed.

(** X1. With shift amounts of at least 1, [XORShiftRNG.next] is
    injective on 32-bit states: two generators with the same q, r, s
    whose [next] returns the same value were in the same state. *)
Theorem X1_xorshift_next_is_injective
  (g1 g2 g1' g2' : XORShiftRNG.XORShiftRNG) (v : Z)
  (Hq : 1 <= g1.(XORShiftRNG.q))
  (Hr : 1 <= g1.(XORShiftRNG.r))
  (Hs : 1 <= g1.(XORShiftRNG.s))
  (Hsame : g2.(XORShiftRNG.q) = g1.(XORShiftRNG.q) /\
           g2.(XORShiftRNG.r) = g1.(XORShiftRNG.r) /\
           g2.(XORShiftRNG.s) = g1.(XORShiftRNG.s))
  (Hinv1 : XORShiftSpec.inv g1) (Hinv2 : XORShiftSpec.inv g2)
  (Hn1 : XORShiftRNG.next g1 = (Return v, g1'))
  (Hn2 : XORShiftRNG.next g2 = (Return v, g2')) :
  g1.(XORShiftRNG.state) = g2.(XORShiftRNG.state) /\ g1 = g2.
Proof.
  destruct Hsame as (Eq & Er & Es).
  assert (Hok1 : XORShiftSpec.shifts_ok g1) by (unfold XORShiftSpec.shifts_ok; lia).
  assert (Hok2 : XORShiftSpec.shifts_ok g2) by (unfold XORShiftSpec.shifts_ok; lia).
  rewrite (xorshift_next_steps g1 Hok1 Hinv1) in Hn1.
  rewrite (xorshift_next_steps g2 Hok2 Hinv2) in Hn2.
  injection Hn1 as Hv1 _. injection Hn2 as Hv2 _.
  rewrite (xorshift_steps_params g1 g2 _ Eq Er Es) in Hv2.
  assert (Hst : g1.(XORShiftRNG.state) = g2.(XORShiftRNG.state)).
  { apply (XORShiftAlgebra.steps_injective g1); try assumption. congruence. }
  split; [exact Hst |].
  destruct g1, g2. cbn in *. congruence.
Qed.

Lemma X1_xorshift_next_is_injective_witness :
  XORShiftRNG.next (XORShiftRNG.mk 1 13 17 5) =
    (Return 270369, XORShiftRNG.mk 270369 13 17 5) /\
  XORShiftRNG.mk 1 13 17 5 = XORShiftRNG.mk 1 13 17 5.
Proof.
  assert (Hn : XORShiftRNG.next (XORShiftRNG.mk 1 13 17 5) =
               (Return 270369, XORShiftRNG.mk 270369 13 17 5))
    by (vm_compute; reflexivity).
  split; [exact Hn |].
  refine (proj2 (X1_xorshift_next_is_injective
                   (XORShiftRNG.mk 1 13 17 5) (XORShiftRNG.mk 1 13 17 5)
                   _ _ 270369 _ _ _ _ _ _ Hn Hn)).
  - cbn. lia.
  - cbn. lia.
  - cbn. lia.
  - cbn. repeat split.
  - unfold XORShiftSpec.inv. cbn. lia.
  - unfold XORShiftSpec.inv. cbn. lia.
Defined.

Lemma xorshift_next_nonzero (g : XORShiftRNG.XORShiftRNG) :
  1 <= g.(XORShiftRNG.q) -> 1 <= g.(XORShiftRNG.r) -> 1 <= g.(XORShiftRNG.s) ->
  XORShiftSpec.inv g -> g.(XORShiftRNG.state) <> 0 ->
  exists v,
    XORShiftRNG.next g = (Return v, XORShiftRNG.set_state g v) /\
    v <> 0 /\ 0 <= v < 2 ^ 32.
Proof.
  intros Hq Hr Hs Hinv Hnz.
  assert (Hok : XORShiftSpec.shifts_ok g) by (unfold XORShiftSpec.shifts_ok; lia).
  exists (XORShiftWords.steps g g.(XORShiftRNG.state)).
  split; [exact (xorshift_next_steps g Hok Hinv) |]. split.
  - intros H0. apply Hnz.
    exact (XORShiftAlgebra.steps_kernel g _ Hq Hr Hs Hinv H0).
  - apply XORShiftAlgebra.steps_range; [lia | exact Hinv].
Qed.

(** X2. With shift amounts of at least 1, a non-zero 32-bit state never
    reaches zero: [next] returns a non-zero value, and every value of a
    raw sequence of any length is non-zero, as is the state left
    behind. *)
Theorem X2_xorshift_nonzero_state_stays_nonzero
  (g : XORShiftRNG.XORShiftRNG) (n : Z)
  (Hq : 1 <= g.(XORShiftRNG.q))
  (Hr : 1 <= g.(XORShiftRNG.r))
  (Hs : 1 <= g.(XORShiftRNG.s))
  (Hinv : XORShiftSpec.inv g)
  (Hnz : g.(XORShiftRNG.state) <> 0)
  (Hn : 0 < n) :
  exists vs g',
    XORShiftRNG.generate_sequence n false g = (Return (Raw vs), g') /\
    Z.of_nat (List.length vs) = n /\
    (forall x, In x vs -> x <> 0) /\
    g'.(XORShiftRNG.state) <> 0.
Proof.
  assert (Hgen : forall k g0,
             1 <= g0.(XORShiftRNG.q) -> 1 <= g0.(XORShiftRNG.r) ->
             1 <= g0.(XORShiftRNG.s) ->
             XORShiftSpec.inv g0 -> g0.(XORShiftRNG.state) <> 0 ->
             exists vs g',
               comprehension k XORShiftRNG.next g0 = (Return vs, g') /\
               List.length vs = k /\ (forall x, In x vs -> x <> 0) /\
               g'.(XORShiftRNG.state) <> 0).
  { induction k as [| k IH]; intros g0 Hq0 Hr0 Hs0 Hinv0 Hnz0.
    - exists [], g0. repeat split; [intros x [] | assumption].
    - destruct (xorshift_next_nonzero g0 Hq0 Hr0 Hs0 Hinv0 Hnz0)
        as (v & Hnext & Hv & Hvr).
      destruct (IH (XORShiftRNG.set_state g0 v)) as (vs & g' & Hc & Hlen & Hall & Hg');
        try assumption.
      exists (v :: vs), g'. cbn [comprehension].
      rewrite (bind_Return _ _ Hnext), (bind_Return _ _ Hc).
      repeat split; [cbn; now rewrite Hlen | | assumption].
      intros x [<- | Hx]; [assumption | now apply Hall]. }
  destruct (Hgen (Z.to_nat n) g Hq Hr Hs Hinv Hnz) as (vs & g' & Hc & Hlen & Hall & Hg').
  exists vs, g'. split; [| split; [lia | split; assumption]].
  rewrite XORShiftRNG_generate_sequence_shared.
  exact (generate_sequence_with_raw _ _ _ _ _ _ Hn Hc).
Qed.

Lemma X2_xorshift_nonzero_state_stays_nonzero_witness :
  exists vs g',
    XORShiftRNG.generate_sequence 3 false (XORShiftRNG.mk 1 13 17 5) =
      (Return (Raw vs), g') /\
    Z.of_nat (List.length vs) = 3 /\
    (forall x, In x vs -> x <> 0) /\
    g'.(XORShiftRNG.state) <> 0.
Proof.
  apply (X2_xorshift_nonzero_state_stays_nonzero (XORShiftRNG.mk 1 13 17 5) 3).
  - cbn. lia.
  - cbn. lia.
  - cbn. lia.
  - unfold XORShiftSpec.inv. cbn. lia.
  - cbn. lia.
  - lia.
Defined.


Lemma xorshift_steps_zero (g : XORShiftRNG.XORShiftRNG) :
  XORShiftWords.steps g 0 = 0.
Proof.
  unfold XORShiftWords.steps, XORShiftSpec.step3, XORShiftSpec.step2,
    XORShiftSpec.step1.
  rewrite !Z.shiftl_0_l, !Z.land_0_l, !Z.lxor_0_l, Z.shiftr_0_l, Z.shiftl_0_l.
  now rewrite Z.land_0_l.
Qed.



Lemma shiftl_mask32_wide (x n : Z) :
  32 <= n -> Z.land (Z.shiftl x n) XORShiftRNG.mask32 = 0.
Proof.
  intros Hn. rewrite land_mask32, Z.shiftl_mul_pow2 by lia.
  replace n with (n - 32 + 32) by lia. rewrite Z.pow_add_r by lia.
  rewrite Z.mul_assoc. apply Z.mod_mul. lia.
Qed.

Lemma shiftr_wide (x n : Z) :
  32 <= n -> 0 <= x < 2 ^ 32 -> Z.shiftr x n = 0.
Proof.
  intros Hn Hx. rewrite Z.shiftr_div_pow2 by lia.
  apply Z.div_small. split; [lia |].
  assert (2 ^ 32 <= 2 ^ n) by (apply Z.pow_le_mono_r; lia). lia.
Qed.

(** X4. Shift amounts of 32 or more do nothing: with q, r, s all at
    least 32, every shifted word is masked or shifted away, and [next]
    returns the 32-bit state it found, leaving the object as it was. *)
Theorem X4_xorshift_wide_shifts_are_identity
  (g : XORShiftRNG.XORShiftRNG)
  (Hq : 32 <= g.(XORShiftRNG.q))
  (Hr : 32 <= g.(XORShiftRNG.r))
  (Hs : 32 <= g.(XORShiftRNG.s))
  (Hinv : XORShiftSpec.inv g) :
  XORShiftRNG.next g = (Return g.(XORShiftRNG.state), g) /\
  forall n, comprehension n XORShiftRNG.next g =
              (Return (repeat g.(XORShiftRNG.state) n), g).
Proof.
  assert (Hok : XORShiftSpec.shifts_ok g) by (unfold XORShiftSpec.shifts_ok; lia).
  assert (Hnext : XORShiftRNG.next g = (Return g.(XORShiftRNG.state), g)).
  { rewrite (xorshift_next_steps g Hok Hinv).
    assert (H0 : XORShiftWords.steps g g.(XORShiftRNG.state) = g.(XORShiftRNG.state)).
    { unfold XORShiftWords.steps, XORShiftSpec.step3, XORShiftSpec.step2,
        XORShiftSpec.step1.
      rewrite (shiftl_mask32_wide _ _ Hq), Z.lxor_0_r.
      rewrite (shiftr_wide _ _ Hr Hinv), Z.lxor_0_r.
      rewrite (shiftl_mask32_wide _ _ Hs), Z.lxor_0_r. reflexivity. }
    rewrite H0. destruct g. reflexivity. }
  split; [exact Hnext |].
  induction n as [| n IH]; [reflexivity |].
  cbn [comprehension repeat].
  rewrite (bind_Return _ _ Hnext), (bind_Return _ _ IH). reflexivity.
Qed.

Lemma X4_xorshift_wide_shifts_are_identity_witness :
  XORShiftRNG.next (XORShiftRNG.mk 123456 32 40 64) =
    (Return 123456, XORShiftRNG.mk 123456 32 40 64).
Proof.
  refine (proj1 (X4_xorshift_wide_shifts_are_identity
                   (XORShiftRNG.mk 123456 32 40 64) _ _ _ _)).
  - cbn. lia.
  - cbn. lia.
  - cbn. lia.
  - unfold XORShiftSpec.inv. cbn. lia.
Defined.

(** X5. The constructor does not look at the shift amounts, so a
    negative one is accepted; but then every method that draws a number
    raises ValueError("negative shift count") and leaves the object as
    it was: [next], [random], [randint] with low <= high and
    [generate_sequence] with n > 0. *)
Theorem X5_xorshift_negative_shift_always_raises
  (g : XORShiftRNG.XORShiftRNG) (low high n : Z) (scale : bool)
  (Hbad : ~ XORShiftSpec.shifts_ok g)
  (Hrange : low <= high) (Hn : 0 < n) :
  let err := ValueError "negative shift count" in
  (forall seed, seed <> 0 ->
     XORShiftRNG.__init__ seed g.(XORShiftRNG.q) g.(XORShiftRNG.r) g.(XORShiftRNG.s) =
       Return (XORShiftRNG.mk (Z.land seed XORShiftRNG.mask32)
                 g.(XORShiftRNG.q) g.(XORShiftRNG.r) g.(XORShiftRNG.s))) /\
  XORShiftRNG.next g = (Raise err, g) /\
  XORShiftRNG.random g = (Raise err, g) /\
  XORShiftRNG.randint low high g = (Raise err, g) /\
  XORShiftRNG.generate_sequence n scale g = (Raise err, g).
Proof.
  intros err.
  pose proof (XORShiftFacts.xorshift_next_raises g Hbad) as Hnext. fold err in Hnext.
  split; [| split; [exact Hnext | split; [| split]]].
  - intros seed Hseed. unfold XORShiftRNG.__init__.
    destruct (Z.eqb_spec seed 0); [contradiction | reflexivity].
  - unfold XORShiftRNG.random. now rewrite (bind_Raise _ _ Hnext).
  - rewrite XORShiftRNG_randint_shared.
    exact (randint_with_raises _ _ _ _ _ _ _ Hrange Hnext).
  - unfold XORShiftRNG.generate_sequence.
    destruct (Z.leb_spec n 0); [lia |].
    assert (Hc : comprehension (range_len n) XORShiftRNG.next g = (Raise err, g)).
    { unfold range_len. destruct (Z.to_nat n) as [| k] eqn:Ek; [lia |].
      cbn [comprehension]. now rewrite (bind_Raise _ _ Hnext). }
    now rewrite (bind_Raise _ _ Hc).
Qed.

Lemma X5_xorshift_negative_shift_always_raises_witness :
  ~ XORShiftSpec.shifts_ok (XORShiftRNG.mk 1 13 (-17) 5) /\
  XORShiftRNG.generate_sequence 3 true (XORShiftRNG.mk 1 13 (-17) 5) =
    (Raise (ValueError "negative shift count"), XORShiftRNG.mk 1 13 (-17) 5).
Proof.
  assert (Hbad : ~ XORShiftSpec.shifts_ok (XORShiftRNG.mk 1 13 (-17) 5))
    by (unfold XORShiftSpec.shifts_ok; cbn; lia).
  assert (Hrange : 1 <= 6) by lia.
  assert (Hn : 0 < 3) by lia.
  split; [exact Hbad |].
  exact (proj2 (proj2 (proj2 (proj2
    (X5_xorshift_negative_shift_always_raises _ 1 6 3 true Hbad Hrange Hn))))).
Defined.

(** ** LCG: construction, moduli and fixed points *)

Lemma lcg_after_calls_modulus (g : LCG.LCG) (k : nat) :
  g.(LCG.m) <> 0 -> (after_calls LCG.next k g).(LCG.m) <> 0.
Proof.
  intros Hm.
  apply (after_calls_preserves LCG.LCG LCG.next (fun g => g.(LCG.m) <> 0)); [| exact Hm].
  intros g0 Hg0. unfold advance. rewrite (LCGFacts.lcg_next_returns g0 Hg0). exact Hg0.
Qed.

(** X6. An LCG cannot be built with modulus 0: for a non-zero seed the
    constructor raises ZeroDivisionError at [seed % m] (seed 0 is
    rejected first, whatever m is).  So every LCG that exists has a
    non-zero modulus, and its [next] returns a value after any number
    of earlier calls: it never raises. *)
Theorem X6_lcg_constructed_never_raises
  (seed a c m : Z) (Hseed : seed <> 0) :
  (m = 0 ->
   LCG.__init__ seed a c m = Raise (ZeroDivisionError "integer modulo by zero")) /\
  LCG.__init__ 0 a c 0 = Raise InvalidSeed /\
  (forall g, LCG.__init__ seed a c m = Return g ->
     m <> 0 /\
     forall k, exists v g',
       LCG.next (after_calls LCG.next k g) = (Return v, g')).
Proof.
  split; [| split].
  - intros ->. unfold LCG.__init__.
    destruct (Z.eqb_spec seed 0); [contradiction | reflexivity].
  - reflexivity.
  - intros g Hinit. apply LCGFacts.lcg_init_inversion in Hinit.
    destruct Hinit as (_ & Hm & ->). split; [exact Hm |].
    intros k.
    set (g := {| LCG.state := seed mod m; LCG.a := a; LCG.c := c; LCG.m := m |}).
    assert (Hk : (after_calls LCG.next k g).(LCG.m) <> 0)
      by (apply lcg_after_calls_modulus; exact Hm).
    eexists. eexists. exact (LCGFacts.lcg_next_returns _ Hk).
Qed.

Lemma X6_lcg_constructed_never_raises_witness :
  5 <> 0 /\
  LCG.__init__ 5 3 7 0 = Raise (ZeroDivisionError "integer modulo by zero").
Proof.
  assert (Hseed : 5 <> 0) by lia.
  split; [exact Hseed |].
  exact (proj1 (X6_lcg_constructed_never_raises 5 3 7 0 Hseed) eq_refl).
Defined.

(** X7. With a negative modulus the constructor succeeds, and [%]
    takes the sign of the modulus: the state after construction and
    every value [next] returns lie in [m+1, 0], not in [0, m-1]. *)
Theorem X7_lcg_negative_modulus_range
  (seed a c m : Z) (Hseed : seed <> 0) (Hm : m < 0) :
  exists g,
    LCG.__init__ seed a c m = Return g /\
    m + 1 <= g.(LCG.state) <= 0 /\
    forall k, exists v g',
      LCG.next (after_calls LCG.next k g) = (Return v, g') /\
      m + 1 <= v <= 0 /\ g'.(LCG.state) = v.
Proof.
  exists {| LCG.state := seed mod m; LCG.a := a; LCG.c := c; LCG.m := m |}.
  split; [apply LCGFacts.lcg_init_returns; lia |]. split.
  - cbn. pose proof (Z.mod_neg_bound seed m Hm). lia.
  - intros k.
    set (g := {| LCG.state := seed mod m; LCG.a := a; LCG.c := c; LCG.m := m |}).
    assert (Hk : (after_calls LCG.next k g).(LCG.m) = m).
    { apply (after_calls_preserves LCG.LCG LCG.next (fun g => g.(LCG.m) = m));
        [| reflexivity].
      intros g0 Hg0. unfold advance.
      rewrite (LCGFacts.lcg_next_returns g0) by lia. exact Hg0. }
    set (gk := after_calls LCG.next k g) in *.
    exists (LCGSpec.recurrence gk), (LCG.set_state gk (LCGSpec.recurrence gk)).
    split; [apply LCGFacts.lcg_next_returns; lia |].
    split; [| reflexivity].
    unfold LCGSpec.recurrence. rewrite Hk.
    pose proof (Z.mod_neg_bound (gk.(LCG.a) * gk.(LCG.state) + gk.(LCG.c)) m Hm). lia.
Qed.

Lemma X7_lcg_negative_modulus_range_witness :
  7 <> 0 /\ -10 < 0 /\
  exists g,
    LCG.__init__ 7 3 5 (-10) = Return g /\ -10 + 1 <= g.(LCG.state) <= 0.
Proof.
  assert (Hseed : 7 <> 0) by lia.
  assert (Hm : -10 < 0) by lia.
  split; [exact Hseed |]. split; [exact Hm |].
  destruct (X7_lcg_negative_modulus_range 7 3 5 (-10) Hseed Hm) as (g & Hinit & Hst & _).
  exists g. split; [exact Hinit | exact Hst].
Defined.

(** X8. Only the residue of the seed matters: two non-zero seeds that
    are congruent modulo m build the same LCG, and two non-zero seeds
    that are congruent modulo 2^32 (a negative seed and its two's
    complement, for one) build the same XORShift32 generator. *)
Theorem X8_congruent_seeds_build_the_same_generator
  (seed1 seed2 : Z) (Hs1 : seed1 <> 0) (Hs2 : seed2 <> 0) :
  (forall a c m, seed1 mod m = seed2 mod m ->
     LCG.__init__ seed1 a c m = LCG.__init__ seed2 a c m) /\
  (forall q r s, seed1 mod 2 ^ 32 = seed2 mod 2 ^ 32 ->
     XORShiftRNG.__init__ seed1 q r s = XORShiftRNG.__init__ seed2 q r s).
Proof.
  split.
  - intros a c m Hcong. unfold LCG.__init__, py_mod.
    destruct (Z.eqb_spec seed1 0); [contradiction |].
    destruct (Z.eqb_spec seed2 0); [contradiction |].
    destruct (m =? 0); [reflexivity | now rewrite Hcong].
  - intros q r s Hcong. unfold XORShiftRNG.__init__.
    destruct (Z.eqb_spec seed1 0); [contradiction |].
    destruct (Z.eqb_spec seed2 0); [contradiction |].
    now rewrite !land_mask32, Hcong.
Qed.

Lemma X8_congruent_seeds_build_the_same_generator_witness :
  -1 <> 0 /\ 4294967295 <> 0 /\
  XORShiftRNG.__init__ (-1) 13 17 5 = XORShiftRNG.__init__ 4294967295 13 17 5.
Proof.
  assert (Hs1 : -1 <> 0) by lia.
  assert (Hs2 : 4294967295 <> 0) by lia.
  split; [exact Hs1 |]. split; [exact Hs2 |].
  apply (proj2 (X8_congruent_seeds_build_the_same_generator (-1) 4294967295 Hs1 Hs2)).
  reflexivity.
Defined.

Lemma lcg_fixed_point_forever (g : LCG.LCG) (n : nat) :
  g.(LCG.m) <> 0 -> LCGSpec.recurrence g = g.(LCG.state) ->
  comprehension n LCG.next g = (Return (repeat g.(LCG.state) n), g).
Proof.
  intros Hm Hfix.
  assert (Hnext : LCG.next g = (Return g.(LCG.state), g)).
  { rewrite (LCGFacts.lcg_next_returns g Hm), Hfix. destruct g. reflexivity. }
  induction n as [| n IH]; [reflexivity |].
  cbn [comprehension repeat].
  rewrite (bind_Return _ _ Hnext), (bind_Return _ _ IH). reflexivity.
Qed.

(** X9. A state with (a * state + c) mod m = state is a fixed point:
    [next] returns it for ever.  In particular, when c is a multiple of
    m (a multiplicative generator) every non-zero multiple of m is a
    seed that passes the constructor's check and yields the state 0,
    from which only 0 is ever returned. *)
Theorem X9_lcg_fixed_points_are_absorbing
  (g : LCG.LCG) (Hm : g.(LCG.m) <> 0)
  (Hfix : (g.(LCG.a) * g.(LCG.state) + g.(LCG.c)) mod g.(LCG.m) = g.(LCG.state)) :
  (forall n, comprehension n LCG.next g = (Return (repeat g.(LCG.state) n), g)) /\
  (forall k a c m, k <> 0 -> m <> 0 -> c mod m = 0 ->
     LCG.__init__ (k * m) a c m = Return (LCG.mk 0 a c m) /\
     forall n, comprehension n LCG.next (LCG.mk 0 a c m) =
                 (Return (repeat 0 n), LCG.mk 0 a c m)).
Proof.
  split.
  - intros n. now apply lcg_fixed_point_forever.
  - intros k a c m Hk Hm0 Hc. split.
    + rewrite LCGFacts.lcg_init_returns by nia.
      now rewrite Z.mod_mul.
    + intros n.
      apply (lcg_fixed_point_forever (LCG.mk 0 a c m) n Hm0).
      unfold LCGSpec.recurrence. cbn. now rewrite Z.mul_0_r, Z.add_0_l.
Qed.

Lemma X9_lcg_fixed_points_are_absorbing_witness :
  (LCG.mk 5 3 0 10).(LCG.m) <> 0 /\
  (3 * 5 + 0) mod 10 = 5 /\
  comprehension 4 LCG.next (LCG.mk 5 3 0 10) = (Return [5; 5; 5; 5], LCG.mk 5 3 0 10).
Proof.
  assert (Hm : (LCG.mk 5 3 0 10).(LCG.m) <> 0) by (cbn; lia).
  assert (Hfix : ((LCG.mk 5 3 0 10).(LCG.a) * (LCG.mk 5 3 0 10).(LCG.state) +
                  (LCG.mk 5 3 0 10).(LCG.c)) mod (LCG.mk 5 3 0 10).(LCG.m) =
                 (LCG.mk 5 3 0 10).(LCG.state)) by reflexivity.
  split; [exact Hm |]. split; [reflexivity |].
  exact (proj1 (X9_lcg_fixed_points_are_absorbing _ Hm Hfix) 4%nat).
Defined.

(** ** Sequences and ranges, for both classes *)

Section SharedStreams.
Variable G : Type.
Variable next : meth G Z.

Lemma comprehension_app (a b : nat) : forall g v1 g1 v2 g2,
  comprehension a next g = (Return v1, g1) ->
  comprehension b next g1 = (Return v2, g2) ->
  comprehension (a + b) next g = (Return (v1 ++ v2)%list, g2).
Proof.
  induction a as [| a IH]; intros g v1 g1 v2 g2 Ha Hb.
  - cbn in Ha. unfold ret in Ha. injection Ha as <- <-. exact Hb.
  - cbn [comprehension] in Ha. unfold bind at 1 in Ha.
    destruct (next g) as [[v | e] g0] eqn:Hn; [| discriminate].
    unfold bind in Ha.
    destruct (comprehension a next g0) as [[vs | e] g0'] eqn:Hc; [| discriminate].
    unfold ret in Ha. injection Ha as <- <-.
    cbn [Nat.add comprehension app].
    rewrite (bind_Return _ _ Hn), (bind_Return _ _ (IH _ _ _ _ _ Hc Hb)).
    reflexivity.
Qed.

Lemma generate_sequence_with_raw_inv n g vs g' :
  generate_sequence_with next n false g = (Return (Raw vs), g') ->
  0 < n /\ comprehension (range_len n) next g = (Return vs, g').
Proof.
  unfold generate_sequence_with. destruct (Z.leb_spec n 0); [discriminate |].
  unfold bind.
  destruct (comprehension (range_len n) next g) as [[seq | e] g0]; [| discriminate].
  cbn [negb]. unfold ret. intros Heq. injection Heq as <- <-.
  split; [lia | reflexivity].
Qed.

Lemma generate_sequence_with_compose n1 n2 g v1 g1 v2 g2 :
  generate_sequence_with next n1 false g = (Return (Raw v1), g1) ->
  generate_sequence_with next n2 false g1 = (Return (Raw v2), g2) ->
  generate_sequence_with next (n1 + n2) false g = (Return (Raw (v1 ++ v2)%list), g2).
Proof.
  intros H1 H2.
  apply generate_sequence_with_raw_inv in H1. destruct H1 as [Hn1 Hc1].
  apply generate_sequence_with_raw_inv in H2. destruct H2 as [Hn2 Hc2].
  apply generate_sequence_with_raw; [lia |].
  unfold range_len in *. rewrite Z2Nat.inj_add by lia.
  exact (comprehension_app _ _ _ _ _ _ _ Hc1 Hc2).
Qed.

Lemma generate_sequence_with_single g v g' :
  next g = (Return v, g') ->
  generate_sequence_with next 1 true g = (Return (Scaled [zero_float]), g') /\
  generate_sequence_with next 1 false g = (Return (Raw [v]), g').
Proof.
  intros Hn.
  assert (Hc : comprehension (range_len 1) next g = (Return [v], g')).
  { change (range_len 1) with 1%nat. cbn [comprehension].
    rewrite (bind_Return _ _ Hn). reflexivity. }
  unfold generate_sequence_with. destruct (Z.leb_spec 1 0); [lia |].
  rewrite !(bind_Return _ _ Hc). run_meth. cbn [py_min py_max fold_left negb].
  rewrite Z.eqb_refl. split; reflexivity.
Qed.

Lemma randint_with_inv low high g v g' :
  randint_with next low high g = (Return v, g') ->
  low <= high /\
  exists x, next g = (Return x, g') /\ v = low + x mod (high - low + 1).
Proof.
  destruct (Z.le_gt_cases low high) as [H | H].
  - destruct (next g) as [[x | e] g0] eqn:Hn.
    + rewrite (randint_with_returns _ _ _ _ _ _ _ H Hn). intros Heq.
      injection Heq as <- <-. split; [exact H |]. now exists x.
    + rewrite (randint_with_raises _ _ _ _ _ _ _ H Hn). discriminate.
  - rewrite randint_with_invalid by lia. discriminate.
Qed.

End SharedStreams.

(** X10. Raw sequences are one continuous stream: a raw
    [generate_sequence(n1)] followed by a raw [generate_sequence(n2)] on
    the same object returns, concatenated, what a single raw
    [generate_sequence(n1 + n2)] returns, and leaves the same state; for
    both classes. *)
Theorem X10_raw_sequences_compose
  (n1 n2 : Z) :
  (forall g v1 g1 v2 g2,
     LCG.generate_sequence n1 false g = (Return (Raw v1), g1) ->
     LCG.generate_sequence n2 false g1 = (Return (Raw v2), g2) ->
     LCG.generate_sequence (n1 + n2) false g = (Return (Raw (v1 ++ v2)%list), g2)) /\
  (forall g v1 g1 v2 g2,
     XORShiftRNG.generate_sequence n1 false g = (Return (Raw v1), g1) ->
     XORShiftRNG.generate_sequence n2 false g1 = (Return (Raw v2), g2) ->
     XORShiftRNG.generate_sequence (n1 + n2) false g =
       (Return (Raw (v1 ++ v2)%list), g2)).
Proof.
  split; intros g v1 g1 v2 g2.
  - rewrite !LCG_generate_sequence_shared. apply generate_sequence_with_compose.
  - rewrite !XORShiftRNG_generate_sequence_shared.
    apply generate_sequence_with_compose.
Qed.

Lemma X10_raw_sequences_compose_witness :
  LCG.generate_sequence 2 false (LCG.mk 7 3 5 10) =
    (Return (Raw [6; 3]), LCG.mk 3 3 5 10) /\
  LCG.generate_sequence 1 false (LCG.mk 3 3 5 10) =
    (Return (Raw [4]), LCG.mk 4 3 5 10) /\
  LCG.generate_sequence (2 + 1) false (LCG.mk 7 3 5 10) =
    (Return (Raw ([6; 3] ++ [4])%list), LCG.mk 4 3 5 10).
Proof.
  assert (H1 : LCG.generate_sequence 2 false (LCG.mk 7 3 5 10) =
               (Return (Raw [6; 3]), LCG.mk 3 3 5 10)) by reflexivity.
  assert (H2 : LCG.generate_sequence 1 false (LCG.mk 3 3 5 10) =
               (Return (Raw [4]), LCG.mk 4 3 5 10)) by reflexivity.
  split; [exact H1 |]. split; [exact H2 |].
  exact (proj1 (X10_raw_sequences_compose 2 1) _ _ _ _ _ H1 H2).
Defined.

(** X11. A scaled sequence of one element is [0.0] whatever the
    generator returned: min and max coincide, so the division is never
    made; for both classes, whenever [next] returns. *)
Theorem X11_single_element_scales_to_zero :
  (forall g v g', LCG.next g = (Return v, g') ->
     LCG.generate_sequence 1 true g = (Return (Scaled [zero_float]), g')) /\
  (forall g v g', XORShiftRNG.next g = (Return v, g') ->
     XORShiftRNG.generate_sequence 1 true g = (Return (Scaled [zero_float]), g')).
Proof.
  split; intros g v g' Hn.
  - rewrite LCG_generate_sequence_shared.
    exact (proj1 (generate_sequence_with_single _ _ _ _ _ Hn)).
  - rewrite XORShiftRNG_generate_sequence_shared.
    exact (proj1 (generate_sequence_with_single _ _ _ _ _ Hn)).
Qed.

Lemma X11_single_element_scales_to_zero_witness :
  LCG.next (LCG.mk 7 3 5 10) = (Return 6, LCG.mk 6 3 5 10) /\
  LCG.generate_sequence 1 true (LCG.mk 7 3 5 10) =
    (Return (Scaled [zero_float]), LCG.mk 6 3 5 10).
Proof.
  assert (Hn : LCG.next (LCG.mk 7 3 5 10) = (Return 6, LCG.mk 6 3 5 10))
    by reflexivity.
  split; [exact Hn |].
  exact (proj1 X11_single_element_scales_to_zero _ _ _ Hn).
Defined.

(** X12. [randint] cannot reach further than the generator does: an
    XORShift32 result is at most low + 2^32 - 1, and an LCG result (for a
    state in [0, m-1]) at most low + m - 1, however large [high] is; and
    when the range is at least as wide as the generator (high - low + 1
    >= 2^32, respectively >= m) the modulo changes nothing and the result
    is exactly low + next(). *)
Theorem X12_randint_reach
  (low high v : Z) :
  (forall g g', XORShiftRNG.randint low high g = (Return v, g') ->
     low <= v <= high /\ v <= low + (2 ^ 32 - 1) /\
     (2 ^ 32 <= high - low + 1 ->
      XORShiftRNG.next g = (Return (v - low), g'))) /\
  (forall g g', LCGSpec.inv g -> LCG.randint low high g = (Return v, g') ->
     low <= v <= high /\ v <= low + (g.(LCG.m) - 1) /\
     (g.(LCG.m) <= high - low + 1 ->
      LCG.next g = (Return (v - low), g'))).
Proof.
  split.
  - intros g g' H. rewrite XORShiftRNG_randint_shared in H.
    apply randint_with_inv in H. destruct H as (Hr & x & Hn & ->).
    pose proof (xorshift_next_value_range _ _ _ Hn) as Hx.
    pose proof (Z.mod_pos_bound x (high - low + 1) ltac:(lia)) as Hb.
    pose proof (Z.mod_le x (high - low + 1) ltac:(lia) ltac:(lia)) as Hle.
    split; [lia |]. split; [lia |].
    intros Hwide. rewrite Z.mod_small by lia.
    replace (low + x - low) with x by lia. exact Hn.
  - intros g g' Hinv H. rewrite LCG_randint_shared in H.
    apply randint_with_inv in H. destruct H as (Hr & x & Hn & ->).
    destruct Hinv as [Hm Hst].
    rewrite (LCGFacts.lcg_next_returns g) in Hn by lia.
    injection Hn as Hx Hg.
    pose proof (Z.mod_pos_bound (g.(LCG.a) * g.(LCG.state) + g.(LCG.c))
                  g.(LCG.m) Hm) as Hxr.
    unfold LCGSpec.recurrence in Hx. rewrite Hx in Hxr.
    pose proof (Z.mod_pos_bound x (high - low + 1) ltac:(lia)) as Hb.
    pose proof (Z.mod_le x (high - low + 1) ltac:(lia) ltac:(lia)) as Hle.
    split; [lia |]. split; [lia |].
    intros Hwide. rewrite Z.mod_small by lia.
    replace (low + x - low) with x by lia.
    rewrite (LCGFacts.lcg_next_returns g) by lia.
    unfold LCGSpec.recurrence. rewrite Hx. now rewrite <- Hg, <- Hx.
Qed.

Lemma X12_randint_reach_witness :
  XORShiftRNG.randint 0 (2 ^ 40) (XORShiftRNG.mk 1 13 17 5) =
    (Return 270369, XORShiftRNG.mk 270369 13 17 5) /\
  270369 <= 0 + (2 ^ 32 - 1) /\
  XORShiftRNG.next (XORShiftRNG.mk 1 13 17 5) =
    (Return (270369 - 0), XORShiftRNG.mk 270369 13 17 5).
Proof.
  assert (H : XORShiftRNG.randint 0 (2 ^ 40) (XORShiftRNG.mk 1 13 17 5) =
              (Return 270369, XORShiftRNG.mk 270369 13 17 5))
    by (vm_compute; reflexivity).
  split; [exact H |].
  destruct (proj1 (X12_randint_reach 0 (2 ^ 40) 270369) _ _ H) as (_ & Hreach & Hwide).
  split; [exact Hreach |]. apply Hwide. lia.
Defined.

(** ** [random] for a power-of-two modulus *)

(** An even 54-digit mantissa with nothing to round loses its last bit
    and nothing else. *)
Lemma binary_round_aux_exact_even (mq : positive) (e : Z) :
  Zpos (digits2_pos mq) = 53 -> -1074 <= e + 1 <= 971 ->
  binary_round_aux prec emax false (Zpos mq~0) e loc_Exact =
    S754_finite false mq (e + 1).
Proof.
  intros Hd He. unfold binary_round_aux, shr_fexp.
  cbn [Zdigits2 digits2_pos]. rewrite Pos2Z.inj_succ, Hd.
  change (Z.succ 53) with 54.
  rewrite fexp_normal by lia.
  replace (54 + e - 53 - e) with 1 by lia.
  cbn [shr_record_of_loc shr iter_pos shr_1 orb shr_m loc_of_shr_record
         round_nearest_even Zdigits2].
  rewrite Hd, fexp_normal by lia.
  replace (53 + (e + 1) - 53 - (e + 1)) with 0 by lia.
  cbn [shr shr_m]. change (emax - prec) with 971.
  destruct (Z.leb_spec (e + 1) 971); [reflexivity | lia].
Qed.

Lemma new_location_zero (nb : Z) : new_location nb 0 = loc_Exact.
Proof.
  unfold new_location, new_location_even, new_location_odd.
  destruct (Z.even nb); reflexivity.
Qed.

(** [x / 2^p] on integers, for [0 <= x < 2^53]: the quotient is a
    float, so nothing is rounded. *)
Lemma int_truediv_pow2_exact (x p : Z) :
  0 <= x < 2 ^ 53 -> 0 <= p <= 1000 ->
  exists y, int_truediv x (2 ^ p) = Return y /\ equals_over_pow2 y x p.
Proof.
  intros Hx Hp. unfold int_truediv.
  assert (Hpow : 0 < 2 ^ p) by (apply Z.pow_pos_nonneg; lia).
  destruct (Z.eqb_spec (2 ^ p) 0); [lia |].
  destruct (2 ^ p) as [| pp | pp] eqn:Epp; [lia | | lia].
  destruct x as [| px | px]; [| | lia].
  - exists (S754_zero false). split; [reflexivity | left; split; reflexivity].
  - set (j := Zpos (digits2_pos px)).
    assert (Hj : 1 <= j <= 53).
    { split; [unfold j; lia | apply digits_le_of_lt; lia]. }
    pose proof (digits2_pos_bounds px) as Bx. fold j in Bx.
    assert (Hdp : Zpos (digits2_pos pp) = p + 1).
    { apply digits2_pos_unique. rewrite <- Epp.
      replace (p + 1 - 1) with p by lia.
      replace (p + 1) with (Z.succ p) by lia.
      rewrite Z.pow_succ_r by lia. lia. }
    (* the 53-digit mantissa of the quotient *)
    assert (Hmq : exists mq, Zpos mq = Zpos px * 2 ^ (53 - j) /\
                             Zpos (digits2_pos mq) = 53).
    { assert (Hq0 : 0 < 2 ^ (53 - j)) by (apply Z.pow_pos_nonneg; lia).
      destruct (Zpos px * 2 ^ (53 - j)) as [| mq | mq] eqn:Emq; [lia | | lia].
      exists mq. split; [reflexivity |].
      apply digits2_pos_unique. rewrite <- Emq.
      assert (E1 : 2 ^ (53 - 1) = 2 ^ (j - 1) * 2 ^ (53 - j))
        by (rewrite <- pow2_split by lia; f_equal; lia).
      assert (E2 : 2 ^ 53 = 2 ^ j * 2 ^ (53 - j))
        by (rewrite <- pow2_split by lia; f_equal; lia).
      rewrite E1, E2. split.
      - apply Z.mul_le_mono_nonneg_r; lia.
      - apply Z.mul_lt_mono_pos_r; lia. }
    destruct Hmq as (mq & Hmq & Hdq).
    cbn [exact_of_int]. unfold SFdiv, SFdiv_core_binary. cbv zeta.
    cbn [Zdigits2]. fold j. rewrite Hdp.
    replace (j + 0 - (p + 1 + 0)) with (j - p - 1) by lia.
    rewrite fexp_normal by lia.
    replace (0 - 0) with 0 by lia.
    rewrite Z.min_l by lia.
    replace (0 - (j - p - 1 - 53)) with (p + 54 - j) by lia.
    assert (Hs : 0 < p + 54 - j) by lia.
    assert (Hm' : match p + 54 - j with
                  | 0 => Zpos px
                  | Zpos _ => Z.shiftl (Zpos px) (p + 54 - j)
                  | Zneg _ => 0
                  end = Zpos mq~0 * Zpos pp).
    { destruct (p + 54 - j) as [| ps | ps] eqn:Es; [lia | | lia].
      rewrite Z.shiftl_mul_pow2 by lia. rewrite <- Es, <- Epp.
      rewrite (Pos2Z.inj_xO mq), Hmq.
      replace (p + 54 - j) with (1 + (53 - j) + p) by lia.
      rewrite !Z.pow_add_r by lia. change (2 ^ 1) with 2. lia. }
    rewrite Hm'.
    assert (Hdiv : Z.div_eucl (Zpos mq~0 * Zpos pp) (Zpos pp) = (Zpos mq~0, 0)).
    { pose proof (Z.div_mul (Zpos mq~0) (Zpos pp) ltac:(lia)) as Hq.
      pose proof (Z.mod_mul (Zpos mq~0) (Zpos pp) ltac:(lia)) as Hr.
      unfold Z.div in Hq. unfold Z.modulo in Hr.
      destruct (Z.div_eucl (Zpos mq~0 * Zpos pp) (Zpos pp)) as [q0 r0].
      now subst. }
    rewrite Hdiv, new_location_zero. cbn [xorb].
    rewrite binary_round_aux_exact_even by (try assumption; lia).
    exists (S754_finite false mq (j - p - 1 - 53 + 1)).
    split; [reflexivity |]. right. exists mq, (j - p - 1 - 53 + 1).
    split; [reflexivity |]. split; [lia |]. split; [| exact Hdq].
    rewrite Hmq. f_equal. f_equal. lia.
Qed.

Lemma equals_over_pow2_inj (y : float) (x1 x2 p : Z) :
  equals_over_pow2 y x1 p -> equals_over_pow2 y x2 p -> x1 = x2.
Proof.
  intros [[-> Hy1] | (m1 & e1 & Hy1 & He1 & Hm1 & _)]
         [[-> Hy2] | (m2 & e2 & Hy2 & He2 & Hm2 & _)];
    try reflexivity; try congruence.
  rewrite Hy1 in Hy2. injection Hy2 as <- <-.
  assert (Hpow : 0 < 2 ^ (- (e1 + p))) by (apply Z.pow_pos_nonneg; lia).
  rewrite Hm1 in Hm2. nia.
Qed.

(** X13. Dividing by a power of two is exact: [XORShiftRNG.random] is
    next() / 2^32 with nothing rounded, and so is [LCG.random] for a
    modulus 2^p with p <= 53 (the default 2^32 for one) and a state in
    range.  Hence the float determines the integer: calls that return
    the same float drew the same value from [next]. *)
Theorem X13_random_is_exact_for_power_of_two
  (xs : XORShiftRNG.XORShiftRNG) (lcg : LCG.LCG) (p : Z)
  (Hshift : XORShiftSpec.shifts_ok xs)
  (Hp : 0 <= p <= 53)
  (Hm : lcg.(LCG.m) = 2 ^ p) :
  (exists x y xs',
      XORShiftRNG.next xs = (Return x, xs') /\
      XORShiftRNG.random xs = (Return y, xs') /\
      equals_over_pow2 y x 32 /\
      forall x', equals_over_pow2 y x' 32 -> x' = x) /\
  (exists x y lcg',
      LCG.next lcg = (Return x, lcg') /\
      LCG.random lcg = (Return y, lcg') /\
      equals_over_pow2 y x p /\
      forall x', equals_over_pow2 y x' p -> x' = x).
Proof.
  split.
  - pose proof (XORShiftFacts.xorshift_next_returns xs Hshift) as Hn.
    destruct (int_truediv_pow2_exact (XORShiftSpec.scramble xs) 32) as (y & Hy & Hex).
    { pose proof (land_mask32_range
        (XORShiftSpec.step3 xs (XORShiftSpec.step2 xs
           (XORShiftSpec.step1 xs xs.(XORShiftRNG.state))))).
      unfold XORShiftSpec.scramble. lia. }
    { lia. }
    exists (XORShiftSpec.scramble xs), y,
      (XORShiftRNG.set_state xs (XORShiftSpec.scramble xs)).
    split; [exact Hn |]. split; [| split; [exact Hex |]].
    + unfold XORShiftRNG.random. rewrite (bind_Return _ _ Hn).
      unfold lift. now rewrite Hy.
    + intros x' Hx'. exact (equals_over_pow2_inj y _ _ 32 Hx' Hex).
  - assert (Hpow : 0 < 2 ^ p) by (apply Z.pow_pos_nonneg; lia).
    assert (Hm0 : lcg.(LCG.m) <> 0) by lia.
    pose proof (LCGFacts.lcg_next_returns lcg Hm0) as Hn.
    destruct (int_truediv_pow2_exact (LCGSpec.recurrence lcg) p) as (y & Hy & Hex).
    { unfold LCGSpec.recurrence.
      pose proof (Z.mod_pos_bound (lcg.(LCG.a) * lcg.(LCG.state) + lcg.(LCG.c))
                    lcg.(LCG.m) ltac:(lia)) as Hb.
      assert (2 ^ p <= 2 ^ 53) by (apply Z.pow_le_mono_r; lia). lia. }
    { lia. }
    exists (LCGSpec.recurrence lcg), y,
      (LCG.set_state lcg (LCGSpec.recurrence lcg)).
    split; [exact Hn |]. split; [| split; [exact Hex |]].
    + unfold LCG.random. rewrite (bind_Return _ _ Hn).
      run_meth. cbn [LCG.set_state LCG.m]. now rewrite Hm, Hy.
    + intros x' Hx'. exact (equals_over_pow2_inj y _ _ p Hx' Hex).
Qed.

Lemma X13_random_is_exact_for_power_of_two_witness :
  XORShiftSpec.shifts_ok (XORShiftRNG.mk 123456 13 17 5) /\
  0 <= 32 <= 53 /\
  (LCG.mk 123456 1664525 1013904223 (2 ^ 32)).(LCG.m) = 2 ^ 32 /\
  exists x y lcg',
    LCG.next (LCG.mk 123456 1664525 1013904223 (2 ^ 32)) = (Return x, lcg') /\
    LCG.random (LCG.mk 123456 1664525 1013904223 (2 ^ 32)) = (Return y, lcg') /\
    equals_over_pow2 y x 32.
Proof.
  assert (H1 : XORShiftSpec.shifts_ok (XORShiftRNG.mk 123456 13 17 5))
    by (unfold XORShiftSpec.shifts_ok; cbn; lia).
  assert (H2 : 0 <= 32 <= 53) by lia.
  assert (H3 : (LCG.mk 123456 1664525 1013904223 (2 ^ 32)).(LCG.m) = 2 ^ 32)
    by reflexivity.
  split; [exact H1 |]. split; [exact H2 |]. split; [exact H3 |].
  destruct (X13_random_is_exact_for_power_of_two _ _ 32 H1 H2 H3)
    as (_ & x & y & lcg' & Hn & Hr & Hex & _).
  exists x, y, lcg'. split; [exact Hn |]. split; [exact Hr | exact Hex].
Defined.

(** X14. Below 2^53 the quotient cannot round up to 1.0:
    [LCG.random] returns a float in [0, 1) for every modulus
    0 < m < 2^53, and [XORShiftRNG.random] always does; both advance the
    object as one call of [next] does. *)
Theorem X14_random_is_below_one
  (lcg : LCG.LCG) (xs : XORShiftRNG.XORShiftRNG)
  (Hm : 0 < lcg.(LCG.m) < 2 ^ 53)
  (Hshift : XORShiftSpec.shifts_ok xs) :
  (exists y,
      LCG.random lcg = (Return y, advance LCG.next lcg) /\
      in_unit_interval y = true) /\
  (exists y,
      XORShiftRNG.random xs = (Return y, advance XORShiftRNG.next xs) /\
      in_unit_interval y = true).
Proof.
  split.
  - exact (lcg_random_below_one lcg Hm).
  - exact (xorshift_random_below_one xs Hshift).
Qed.

Lemma X14_random_is_below_one_witness :
  0 < (LCG.mk 123456 1664525 1013904223 (2 ^ 32)).(LCG.m) < 2 ^ 53 /\
  XORShiftSpec.shifts_ok (XORShiftRNG.mk 123456 13 17 5) /\
  exists y,
    LCG.random (LCG.mk 123456 1664525 1013904223 (2 ^ 32)) =
      (Return y, advance LCG.next (LCG.mk 123456 1664525 1013904223 (2 ^ 32))) /\
    in_unit_interval y = true.
Proof.
  assert (H1 : 0 < (LCG.mk 123456 1664525 1013904223 (2 ^ 32)).(LCG.m) < 2 ^ 53)
    by (cbn; lia).
  assert (H2 : XORShiftSpec.shifts_ok (XORShiftRNG.mk 123456 13 17 5))
    by (unfold XORShiftSpec.shifts_ok; cbn; lia).
  split; [exact H1 |]. split; [exact H2 |].
  exact (proj1 (X14_random_is_below_one _ _ H1 H2)).
Defined.

Lemma lcg_raw_values_range n : forall g vs g',
  0 < g.(LCG.m) ->
  comprehension n LCG.next g = (Return vs, g') ->
  forall x, In x vs -> 0 <= x < g.(LCG.m).
Proof.
  induction n as [| n IH]; intros g vs g' Hm; cbn [comprehension].
  - run_meth. intros H. injection H as <- _. intros x [].
  - rewrite (bind_Return _ _ (LCGFacts.lcg_next_returns g ltac:(lia))).
    unfold bind.
    destruct (comprehension n LCG.next (LCG.set_state g (LCGSpec.recurrence g)))
      as [[ws | e] g1] eqn:Hc; [| discriminate].
    run_meth. intros H. injection H as <- _. intros x [<- | Hx].
    + unfold LCGSpec.recurrence. now apply Z.mod_pos_bound.
    + exact (IH (LCG.set_state g (LCGSpec.recurrence g)) _ _ Hm Hc x Hx).
Qed.

Lemma scaled_run_in_unit_interval (G : Type) (next : meth G Z) n g vs g' :
  0 < n ->
  comprehension (range_len n) next g = (Return vs, g') ->
  List.length vs = Z.to_nat n ->
  (forall x y, In x vs -> In y vs -> y - x < 2 ^ 33) ->
  exists ys,
    generate_sequence_with next n true g = (Return (Scaled ys), g') /\
    List.length ys = Z.to_nat n /\
    forall y, In y ys -> in_unit_interval y = true.
Proof.
  intros Hn Hc Hlen Hspan.
  assert (Hne : vs <> []) by (destruct vs; [cbn in Hlen; lia | discriminate]).
  destruct (generate_sequence_with_scaled G next n g vs g' Hn Hc Hne)
    as (lo & hi & _ & _ & Hlo & Hhi & _ & Heq & _ & Hnarrow).
  destruct (Z.eq_dec hi lo) as [E | E].
  - exists (repeat zero_float (List.length vs)). split; [exact (Heq E) |].
    split; [now rewrite repeat_length |].
    intros y Hy. apply repeat_spec in Hy. now subst y.
  - destruct (Hnarrow E (Hspan lo hi Hlo Hhi)) as [Hrun Hall].
    exists (map (scaled_value lo hi) vs). split; [exact Hrun |].
    split; [now rewrite length_map |].
    intros y Hy. apply in_map_iff in Hy. destruct Hy as (x & <- & Hx).
    apply (Hall x Hx).
Qed.

(** X15. With scaling, [generate_sequence(n)] for n > 0 returns exactly
    n floats, each in [0, 1), and does not raise: for every XORShift32
    generator (usable shift amounts) and for every LCG whose modulus is
    positive and at most 2^33, the default 2^32 included. *)
Theorem X15_scaled_sequence_is_in_unit_interval
  (lcg : LCG.LCG) (xs : XORShiftRNG.XORShiftRNG) (n : Z)
  (Hn : 0 < n)
  (Hm : 0 < lcg.(LCG.m) <= 2 ^ 33)
  (Hshift : XORShiftSpec.shifts_ok xs) :
  (exists ys lcg',
      LCG.generate_sequence n true lcg = (Return (Scaled ys), lcg') /\
      Z.of_nat (List.length ys) = n /\
      forall y, In y ys -> in_unit_interval y = true) /\
  (exists ys xs',
      XORShiftRNG.generate_sequence n true xs = (Return (Scaled ys), xs') /\
      Z.of_nat (List.length ys) = n /\
      forall y, In y ys -> in_unit_interval y = true).
Proof.
  split.
  - assert (Hm0 : lcg.(LCG.m) <> 0) by lia.
    destruct (comprehension_returns _ _ _ (Z.to_nat n) lcg LCG_always_returns Hm0)
      as (vs & Hc & Hlen & _ & _).
    pose proof (lcg_raw_values_range _ _ _ _ (proj1 Hm) Hc) as Hrange.
    destruct (scaled_run_in_unit_interval _ LCG.next n lcg vs _ Hn Hc Hlen)
      as (ys & Hrun & Hl & Hall).
    { intros x y Hx Hy. pose proof (Hrange x Hx) as Hx'.
      pose proof (Hrange y Hy) as Hy'. lia. }
    exists ys, (after_calls LCG.next (Z.to_nat n) lcg).
    rewrite LCG_generate_sequence_shared.
    split; [exact Hrun |]. split; [lia | exact Hall].
  - destruct (comprehension_returns _ _ _ (Z.to_nat n) xs
                XORShiftRNG_always_returns Hshift) as (vs & Hc & Hlen & _ & _).
    pose proof (xorshift_raw_values_range _ _ _ _ Hc) as Hrange.
    destruct (scaled_run_in_unit_interval _ XORShiftRNG.next n xs vs _ Hn Hc Hlen)
      as (ys & Hrun & Hl & Hall).
    { intros x y Hx Hy. pose proof (Hrange x Hx) as Hx'.
      pose proof (Hrange y Hy) as Hy'. lia. }
    exists ys, (after_calls XORShiftRNG.next (Z.to_nat n) xs).
    rewrite XORShiftRNG_generate_sequence_shared.
    split; [exact Hrun |]. split; [lia | exact Hall].
Qed.

Lemma X15_scaled_sequence_is_in_unit_interval_witness :
  0 < 10 /\
  0 < (LCG.mk 123456 1664525 1013904223 (2 ^ 32)).(LCG.m) <= 2 ^ 33 /\
  XORShiftSpec.shifts_ok (XORShiftRNG.mk 123456 13 17 5) /\
  exists ys lcg',
    LCG.generate_sequence 10 true (LCG.mk 123456 1664525 1013904223 (2 ^ 32)) =
      (Return (Scaled ys), lcg') /\
    Z.of_nat (List.length ys) = 10 /\
    forall y, In y ys -> in_unit_interval y = true.
Proof.
  assert (H1 : 0 < 10) by lia.
  assert (H2 : 0 < (LCG.mk 123456 1664525 1013904223 (2 ^ 32)).(LCG.m) <= 2 ^ 33)
    by (cbn; lia).
  assert (H3 : XORShiftSpec.shifts_ok (XORShiftRNG.mk 123456 13 17 5))
    by (unfold XORShiftSpec.shifts_ok; cbn; lia).
  split; [exact H1 |]. split; [exact H2 |]. split; [exact H3 |].
  exact (proj1 (X15_scaled_sequence_is_in_unit_interval _ _ 10 H1 H2 H3)).
Defined.

(** ** A failure that is not atomic *)

Lemma generate_sequence_with_late_failure (G : Type) (next : meth G Z)
  n g vs g0 e g' :
  0 < n ->
  comprehension (range_len n) next g = (Return vs, g0) ->
  generate_sequence_with next n true g = (Raise e, g') ->
  g' = g0 /\ is_ValueError e = false.
Proof.
  intros Hn Hc. unfold generate_sequence_with.
  destruct (Z.leb_spec n 0); [lia |].
  rewrite (bind_Return _ _ Hc). cbn [negb]. run_meth.
  destruct vs as [| x xs].
  - unfold range_len in Hc. destruct (Z.to_nat n) as [| k] eqn:Ek; [lia |].
    cbn [comprehension] in Hc. unfold bind in Hc.
    destruct (next g) as [[v | e0] g1]; [| discriminate].
    destruct (comprehension k next g1) as [[ws | e0] g2]; discriminate.
  - cbn [py_min py_max]. destruct (_ =? _); [discriminate |].
    destruct (map_outcome _ _) as [out | e0] eqn:Hmap; [discriminate |].
    intros Heq. injection Heq as <- <-. split; [reflexivity |].
    destruct (map_outcome_raises _ _ _ Hmap) as (y & _ & Hy).
    exact (scale_expr_exn _ _ _ _ Hy).
Qed.

(** X16. A raise inside the scaling is not atomic.  The n numbers are
    drawn before min, max and the divisions are computed, so when
    [generate_sequence(n)] on a generator whose [next] works raises
    while scaling (the error is not a ValueError: it is the overflow of
    an int-to-float conversion), the object has advanced by all n calls
    and the numbers drawn are lost.  An LCG with modulus 2^2000 and a
    span of 2^1100 does this. *)
Theorem X16_scaling_failure_keeps_the_draws
  (lcg : LCG.LCG) (n : Z) (e : exn) (lcg' : LCG.LCG)
  (Hn : 0 < n)
  (Hm : lcg.(LCG.m) <> 0)
  (Hraise : LCG.generate_sequence n true lcg = (Raise e, lcg')) :
  lcg' = after_calls LCG.next (Z.to_nat n) lcg /\
  is_ValueError e = false /\
  (exists vs, LCG.generate_sequence n false lcg = (Return (Raw vs), lcg')) /\
  LCG.generate_sequence 2 true (LCG.mk 1 1 (2 ^ 1100) (2 ^ 2000)) =
    (Raise (OverflowError "int too large to convert to float"),
     LCG.mk (2 ^ 1101 + 1) 1 (2 ^ 1100) (2 ^ 2000)).
Proof.
  destruct (comprehension_returns _ _ _ (Z.to_nat n) lcg LCG_always_returns Hm)
    as (vs & Hc & _ & _ & _).
  rewrite LCG_generate_sequence_shared in Hraise.
  destruct (generate_sequence_with_late_failure _ _ _ _ _ _ _ _ Hn Hc Hraise)
    as [-> He].
  split; [reflexivity |]. split; [exact He |]. split.
  - exists vs. rewrite LCG_generate_sequence_shared.
    exact (generate_sequence_with_raw _ _ _ _ _ _ Hn Hc).
  - vm_compute. reflexivity.
Qed.

Lemma X16_scaling_failure_keeps_the_draws_witness :
  0 < 2 /\
  (LCG.mk 1 1 (2 ^ 1100) (2 ^ 2000)).(LCG.m) <> 0 /\
  LCG.generate_sequence 2 true (LCG.mk 1 1 (2 ^ 1100) (2 ^ 2000)) =
    (Raise (OverflowError "int too large to convert to float"),
     LCG.mk (2 ^ 1101 + 1) 1 (2 ^ 1100) (2 ^ 2000)) /\
  LCG.mk (2 ^ 1101 + 1) 1 (2 ^ 1100) (2 ^ 2000) =
    after_calls LCG.next (Z.to_nat 2) (LCG.mk 1 1 (2 ^ 1100) (2 ^ 2000)).
Proof.
  assert (H1 : 0 < 2) by lia.
  assert (H2 : (LCG.mk 1 1 (2 ^ 1100) (2 ^ 2000)).(LCG.m) <> 0)
    by (vm_compute; discriminate).
  assert (H3 : LCG.generate_sequence 2 true (LCG.mk 1 1 (2 ^ 1100) (2 ^ 2000)) =
               (Raise (OverflowError "int too large to convert to float"),
                LCG.mk (2 ^ 1101 + 1) 1 (2 ^ 1100) (2 ^ 2000)))
    by (vm_compute; reflexivity).
  split; [exact H1 |]. split; [exact H2 |]. split; [exact H3 |].
  exact (proj1 (X16_scaling_failure_keeps_the_draws _ 2 _ _ H1 H2 H3)).
Defined.
